(** * The application runtime of [framework_application.js]

    A shallow embedding of [pc.Application]: the preload batch, the
    library loading done by [configure], [start], the frame loop
    ([tick], [update], [render]), the canvas resizing policy, the
    fullscreen observers and [loadFromToc].

    External collaborators (the loader, the asset registry, the
    component systems, the DOM) appear as effects recorded in a
    chronological trace; what they report back is an input of the
    model. *)

From Stdlib Require Import List Bool Arith Lia ZArith QArith Lqa String.
From Stdlib Require Import Sorting.Sorted.
Import ListNotations.

Close Scope Q_scope.
Open Scope nat_scope.

(** ** JavaScript numbers

    A JS number is modelled by an exact rational, or one of the three
    IEEE special values.  Rounding, overflow, underflow and the sign
    of zero are outside the model; division by zero, [Infinity] and
    [NaN] are inside it.
    Finite results are kept in lowest terms, so that two results are
    equal numbers exactly when they are equal terms. *)
Module JS.

Local Open Scope Q_scope.

Inductive number : Type :=
| Fin (q : Q)
| PosInf
| NegInf
| NaN.

Definition fin (q : Q) : number := Fin (Qred q).

Definition of_nat (n : nat) : number := Fin (inject_Z (Z.of_nat n)).

(** [ToBoolean]: 0 and NaN are falsy. *)
Definition truthy (x : number) : bool :=
  match x with
  | Fin q => negb (Qeq_bool q 0)
  | NaN => false
  | PosInf | NegInf => true
  end.

(** [a || b] on numbers. *)
Definition or_else (a b : number) : number := if truthy a then a else b.

(** [a - b] *)
Definition sub (a b : number) : number :=
  match a, b with
  | NaN, _ | _, NaN => NaN
  | Fin p, Fin q => fin (p - q)
  | PosInf, PosInf | NegInf, NegInf => NaN
  | PosInf, _ => PosInf
  | NegInf, _ => NegInf
  | Fin _, PosInf => NegInf
  | Fin _, NegInf => PosInf
  end.

(** [a * b] *)
Definition mul (a b : number) : number :=
  match a, b with
  | NaN, _ | _, NaN => NaN
  | Fin p, Fin q => fin (p * q)
  | PosInf, PosInf | NegInf, NegInf => PosInf
  | PosInf, NegInf | NegInf, PosInf => NegInf
  | PosInf, Fin q | Fin q, PosInf =>
      match q ?= 0 with Gt => PosInf | Lt => NegInf | Eq => NaN end
  | NegInf, Fin q | Fin q, NegInf =>
      match q ?= 0 with Gt => NegInf | Lt => PosInf | Eq => NaN end
  end.

(** [a / b]: a finite non-zero number over zero is an infinity,
    zero over zero is NaN. *)
Definition div (a b : number) : number :=
  match a, b with
  | NaN, _ | _, NaN => NaN
  | Fin p, Fin q =>
      if Qeq_bool q 0
      then match p ?= 0 with Gt => PosInf | Lt => NegInf | Eq => NaN end
      else fin (p / q)
  | Fin _, (PosInf | NegInf) => Fin 0
  | (PosInf | NegInf), (PosInf | NegInf) => NaN
  | PosInf, Fin q => match q ?= 0 with Lt => NegInf | _ => PosInf end
  | NegInf, Fin q => match q ?= 0 with Lt => PosInf | _ => NegInf end
  end.

(** [a > b]: false as soon as one side is NaN. *)
Definition gt (a b : number) : bool :=
  match a, b with
  | NaN, _ | _, NaN => false
  | Fin p, Fin q => match p ?= q with Gt => true | _ => false end
  | PosInf, PosInf | NegInf, _ | _, PosInf => false
  | PosInf, _ | Fin _, NegInf => true
  end.

(** [a >= b] *)
Definition ge (a b : number) : bool :=
  match a, b with
  | NaN, _ | _, NaN => false
  | Fin p, Fin q => Qle_bool q p
  | PosInf, _ | _, NegInf => true
  | _, PosInf | NegInf, _ => false
  end.

(** [a <= b] *)
Definition le (a b : number) : bool := ge b a.

End JS.

(** [pc.math.clamp].

    Modelled from the spec: [pc.math] is defined outside the files at
    hand; the frame clock "clamps dt to [0, 0.1] seconds", that is, a
    value at or above the upper bound becomes the upper bound, a value
    at or below the lower bound becomes the lower bound, and any other
    value is kept. *)
Module pc_math.

Definition clamp (value min max : JS.number) : JS.number :=
  if JS.ge value max then max
  else if JS.le value min then min
  else value.

End pc_math.

(** ** The preload batch ([Application.prototype.preload]) *)
Module Preload.

(** The mini-object [Progress] "used to measure progress of loading
    sets". *)
Module Progress.

Record t : Type := make { length : nat; count : nat }.

Definition inc (p : t) : t := make (length p) (S (count p)).

Definition done (p : t) : bool := count p =? length p.

End Progress.

(** An entry of [this.assets.list({preload: true})]. *)
Record Asset : Type := { name : string; loaded : bool }.

(** What the environment reports: an asset emits ['load'] or ['error'],
    or the loader invokes the callback of the [j]-th script request
    with [(err, ScriptType)]; [err] is [None] for a falsy first
    argument. *)
Inductive Settlement : Type :=
| AssetLoad (i : nat)
| AssetError (i : nat)
| ScriptLoaded (j : nat) (err : option string).

(** An item of the batch: the [i]-th asset or the [j]-th script. *)
Inductive Item : Type :=
| AssetItem (i : nat)
| ScriptItem (j : nat).

(** What [preload] does to the outside, in order.  [Settled] is ghost:
    it marks the moment the settlement of an item is counted. *)
Inductive Effect : Type :=
| SetPreloading (b : bool)              (* this.systems.script.preloading = b *)
| AssetsLoad (i : nat)                  (* this.assets.load(assets[i]) *)
| LoaderLoad (prefix script : string)   (* this.loader.load(pc.path.join(prefix, script), "script", cb) *)
| FireProgress (fraction : JS.number)   (* self.fire("preload:progress", fraction) *)
| ConsoleError (err : string)
| ConsoleLog
| Callback (args : list string)         (* callback(args...) *)
| Settled (item : Item).

(** The variables captured by the closures of one [preload] call, the
    listeners it has handed out, and its trace. *)
Record State : Type := mkState {
  _assets : Progress.t;
  _scripts : Progress.t;
  _done : bool;
  total : nat;
  preloading : bool;
  load_once : list nat;         (* assets carrying once('load', ...) *)
  error_once : list nat;        (* assets carrying once('error', ...) *)
  loader_callbacks : list nat;  (* script requests issued to the loader *)
  effects : list Effect
}.

Definition emit (e : Effect) (st : State) : State :=
  mkState (_assets st) (_scripts st) (_done st) (total st) (preloading st)
          (load_once st) (error_once st) (loader_callbacks st)
          (effects st ++ [e]).

(** [_assets.inc()] for the asset [i] *)
Definition inc_assets (i : nat) (st : State) : State :=
  mkState (Progress.inc (_assets st)) (_scripts st) (_done st) (total st)
          (preloading st) (load_once st) (error_once st) (loader_callbacks st)
          (effects st ++ [Settled (AssetItem i)]).

(** [_scripts.inc()] for the script [j] *)
Definition inc_scripts (j : nat) (st : State) : State :=
  mkState (_assets st) (Progress.inc (_scripts st)) (_done st) (total st)
          (preloading st) (load_once st) (error_once st) (loader_callbacks st)
          (effects st ++ [Settled (ScriptItem j)]).

Definition latch (st : State) : State :=
  mkState (_assets st) (_scripts st) true (total st) false
          (load_once st) (error_once st) (loader_callbacks st)
          (effects st).

Definition set_listeners (ls es cs : list nat) (st : State) : State :=
  mkState (_assets st) (_scripts st) (_done st) (total st) (preloading st)
          ls es cs (effects st).

Definition mem (i : nat) (l : list nat) : bool := existsb (Nat.eqb i) l.

Definition drop (i : nat) (l : list nat) : list nat :=
  filter (fun k => negb (k =? i)) l.

(** [done]: "check if all loading is done". *)
Definition done (st : State) : State :=
  if negb (_done st) && Progress.done (_assets st) && Progress.done (_scripts st)
  then emit (Callback []) (emit (SetPreloading false) (latch st))
  else st.

(** [count]: "totals loading progress of assets and scripts". *)
Definition count (st : State) : nat :=
  Progress.count (_assets st) + Progress.count (_scripts st).

(** The body shared by the ['load'] listener, the ['error'] listener and
    the branch taken for an asset that is already loaded. *)
Definition asset_settled (i : nat) (st : State) : State :=
  let st := inc_assets i st in
  let st := emit (FireProgress (JS.div (JS.of_nat (count st))
                                       (JS.of_nat (total st)))) st in
  if Progress.done (_assets st) then done st else st.

(** The callback given to [this.loader.load(url, "script", ...)]. *)
Definition script_callback (j : nat) (err : option string) (st : State) : State :=
  let st := match err with
            | Some e => emit (ConsoleError e) st
            | None => emit ConsoleLog st
            end in
  let st := inc_scripts j st in
  if Progress.done (_scripts st) then done st else st.

(** Delivery of one report.  A [once] listener is removed when it
    fires; a report nobody listens to does nothing. *)
Definition deliver (st : State) (ev : Settlement) : State :=
  match ev with
  | AssetLoad i =>
      if mem i (load_once st)
      then asset_settled i
             (set_listeners (drop i (load_once st)) (error_once st)
                            (loader_callbacks st) st)
      else st
  | AssetError i =>
      if mem i (error_once st)
      then asset_settled i
             (set_listeners (load_once st) (drop i (error_once st))
                            (loader_callbacks st) st)
      else st
  | ScriptLoaded j err =>
      if mem j (loader_callbacks st) then script_callback j err st else st
  end.

Definition deliver_all (evs : list Settlement) (st : State) : State :=
  fold_left deliver evs st.

(** The reports that arrive while a load call is still running (a
    loader may answer from its cache before it returns). *)
Record Loader : Type := {
  during_assets_load : nat -> list Settlement;
  during_loader_load : nat -> list Settlement
}.

Definition asynchronous : Loader :=
  {| during_assets_load := fun _ => []; during_loader_load := fun _ => [] |}.

Section Batch.

Variable env : Loader.
Variable assets : list Asset.     (* this.assets.list({preload: true}) *)
Variable scripts : list string.   (* this._scripts *)
Variable scriptPrefix : string.   (* this._scriptPrefix *)

Definition init : State :=
  {| _assets := Progress.make (List.length assets) 0;
     _scripts := Progress.make (List.length scripts) 0;
     _done := false;
     total := List.length assets + List.length scripts;
     preloading := true;
     load_once := []; error_once := []; loader_callbacks := [];
     effects := [SetPreloading true] |}.

(** One turn of the loop over the assets. *)
Definition asset_step (st : State) (i : nat) : State :=
  if loaded (nth i assets {| name := EmptyString; loaded := false |})
  then asset_settled i st
  else
    let st := set_listeners (load_once st ++ [i]) (error_once st ++ [i])
                            (loader_callbacks st) st in
    let st := emit (AssetsLoad i) st in
    deliver_all (during_assets_load env i) st.

(** One turn of the loop over the scripts. *)
Definition script_step (st : State) (j : nat) : State :=
  let st := set_listeners (load_once st) (error_once st)
                          (loader_callbacks st ++ [j]) st in
  let st := emit (LoaderLoad scriptPrefix (nth j scripts EmptyString)) st in
  deliver_all (during_loader_load env j) st.

Definition assets_phase (st : State) : State :=
  if Progress.length (_assets st) =? 0 then done st
  else fold_left asset_step (seq 0 (Progress.length (_assets st))) st.

Definition scripts_phase (st : State) : State :=
  if Progress.length (_scripts st) =? 0 then done st
  else fold_left script_step (seq 0 (Progress.length (_scripts st))) st.

(** The state when [preload] returns. *)
Definition preload : State := scripts_phase (assets_phase init).

(** The state after the reports [later] have arrived as well. *)
Definition run (later : list Settlement) : State := deliver_all later preload.

End Batch.

Definition pending (n : string) : Asset := {| name := n; loaded := false |}.
Definition cached (n : string) : Asset := {| name := n; loaded := true |}.

Definition is_callback (e : Effect) : bool :=
  match e with Callback _ => true | _ => false end.

Definition callbacks_invoked (st : State) : nat :=
  List.length (filter is_callback (effects st)).

Definition fractions (st : State) : list JS.number :=
  flat_map (fun e => match e with FireProgress f => [f] | _ => [] end)
           (effects st).

Definition is_log (e : Effect) : bool :=
  match e with ConsoleError _ | ConsoleLog => true | _ => false end.

(** The assets, and the scripts, whose settlement a trace counts, in
    order. *)
Definition asset_markers (l : list Effect) : list nat :=
  flat_map (fun e => match e with Settled (AssetItem i) => [i] | _ => [] end) l.

Definition script_markers (l : list Effect) : list nat :=
  flat_map (fun e => match e with Settled (ScriptItem j) => [j] | _ => [] end) l.

Definition settled_assets (st : State) : list nat := asset_markers (effects st).

Definition settled_scripts (st : State) : list nat := script_markers (effects st).

(** A trace counts the settlement of each of [a] assets and [s]
    scripts. *)
Definition covers (a s : nat) (l : list Effect) : Prop :=
  (forall i, i < a -> In i (asset_markers l)) /\
  (forall j, j < s -> In j (script_markers l)).

(** The trackers have counted every item of the batch: each asset,
    already loaded or not, and each script request.  This reads what
    the code has counted, not what the loader reported. *)
Definition all_settled (assets : list Asset) (scripts : list string)
    (st : State) : Prop :=
  (forall i, i < List.length assets -> In i (settled_assets st)) /\
  (forall j, j < List.length scripts -> In j (settled_scripts st)).

(** Traces of a batch of [a] assets and [s] scripts in which [callback]
    is only ever called without arguments, right after the preloading
    flag has been switched off and, as long as no item has settled
    twice, after every item has settled. *)
Inductive Flagged (a s : nat) : list Effect -> Prop :=
| Flagged_nil : Flagged a s []
| Flagged_other l e :
    Flagged a s l -> is_callback e = false -> Flagged a s (l ++ [e])
| Flagged_callback l :
    Flagged a s l ->
    (NoDup (asset_markers l) -> NoDup (script_markers l) -> covers a s l) ->
    Flagged a s (l ++ [SetPreloading false; Callback []]).

(** No item has been counted twice. *)
Definition settled_once (st : State) : Prop :=
  NoDup (settled_assets st) /\ NoDup (settled_scripts st).

(** What holds of every reachable state, whatever is reported. *)
Record Wf (st : State) : Prop := {
  wf_assets : Progress.count (_assets st) = List.length (settled_assets st);
  wf_scripts : Progress.count (_scripts st) = List.length (settled_scripts st);
  wf_assets_range :
    forall i, In i (settled_assets st) -> i < Progress.length (_assets st);
  wf_scripts_range :
    forall j, In j (settled_scripts st) -> j < Progress.length (_scripts st);
  wf_load_once :
    forall i, In i (load_once st) -> i < Progress.length (_assets st);
  wf_error_once :
    forall i, In i (error_once st) -> i < Progress.length (_assets st);
  wf_callbacks :
    forall j, In j (loader_callbacks st) -> j < Progress.length (_scripts st);
  wf_latch : callbacks_invoked st = if _done st then 1 else 0;
  wf_flag : _done st = true -> preloading st = false;
  wf_flagged : Flagged (Progress.length (_assets st))
                       (Progress.length (_scripts st)) (effects st)
}.

(** The latch is set exactly when both trackers are full. *)
Definition Latched (st : State) : Prop :=
  _done st = true <->
  Progress.done (_assets st) = true /\ Progress.done (_scripts st) = true.

Definition Good (st : State) : Prop :=
  Wf st /\ (settled_once st -> Latched st).

(** [Good] for a batch of [a] assets and [s] scripts. *)
Definition GoodFor (a s : nat) (st : State) : Prop :=
  Good st /\
  Progress.length (_assets st) = a /\ Progress.length (_scripts st) = s.

End Preload.

(** ** Loading the configuration ([configure] and
    [_parseApplicationProperties]) *)
Module Configure.

Record Props : Type := {
  width : JS.number;
  height : JS.number;
  resolution_mode : string;
  fill_mode : string;
  libraries : list string
}.

Record Response : Type := {
  application_properties : Props;
  scripts : option (list string);
  assets : list string
}.

(** What [pc.net.http.get] answers. *)
Inductive HttpResult : Type :=
| HttpOk (response : Response)
| HttpError (status : string).

(** The loader invokes the callback of the [i]-th library request with
    [(err, script)]; [err] is [None] for a falsy first argument. *)
Inductive Report : Type :=
| LibraryLoaded (i : nat) (err : option string).

Inductive Effect : Type :=
| HttpGet (url : string)
| SetCanvasResolution (mode : string) (w h : JS.number)
| SetCanvasFillMode (mode : string) (w h : JS.number)
| LoaderLoad (url : string)             (* this.loader.load(url, "script", cb) *)
| OnLibraryLoaded                       (* this.systems.rigidbody.onLibraryLoaded() *)
| ParseScripts
| ParseAssets
| Callback (err : option string).       (* callback(err); [None] is callback(null) *)

(** The counter captured by the library callbacks, the requests the
    loader holds a callback for, and the trace. *)
Record State : Type := mkState {
  count : Z;
  requests : list nat;
  effects : list Effect
}.

Definition emit (e : Effect) (st : State) : State :=
  mkState (count st) (requests st) (effects st ++ [e]).

(** A callback taking [err]. *)
Definition Continuation : Type := option string -> State -> State.

(** The function handed to [this.loader.load(url, "script", ...)]. *)
Definition library_callback (callback : Continuation) (err : option string)
    (st : State) : State :=
  let st := mkState (count st - 1) (requests st) (effects st) in
  match err with
  | Some e => callback (Some e) st
  | None =>
      if (count st =? 0)%Z
      then callback None (emit OnLibraryLoaded st)
      else st
  end.

Definition deliver (callback : Continuation) (st : State) (r : Report) : State :=
  match r with
  | LibraryLoaded i err =>
      if existsb (Nat.eqb i) (requests st)
      then library_callback callback err st
      else st
  end.

(** [_parseApplicationProperties(props, callback)], up to its return. *)
Definition parseApplicationProperties (props : Props) (callback : Continuation)
    (st : State) : State :=
  let st := emit (SetCanvasResolution (resolution_mode props)
                                      (width props) (height props)) st in
  let st := emit (SetCanvasFillMode (fill_mode props)
                                    (width props) (height props)) st in
  let len := List.length (libraries props) in
  let st := mkState (Z.of_nat len) (requests st) (effects st) in
  if len =? 0 then callback None st
  else
    fold_left
      (fun st i =>
         emit (LoaderLoad (nth i (libraries props) EmptyString))
              (mkState (count st) (requests st ++ [i]) (effects st)))
      (seq 0 len) st.

(** The function [configure] passes to [_parseApplicationProperties]. *)
Definition configured : Continuation :=
  fun err st =>
    let st := emit ParseScripts st in
    let st := emit ParseAssets st in
    match err with
    | None => emit (Callback None) st
    | Some e => emit (Callback (Some e)) st
    end.

(** [configure(url, callback)] with the answer of the HTTP request, up
    to the return of the response handler. *)
Definition configure (url : string) (answer : HttpResult) : State :=
  let st := mkState 0 [] [HttpGet url] in
  match answer with
  | HttpOk response =>
      parseApplicationProperties (application_properties response) configured st
  | HttpError status => emit (Callback (Some status)) st
  end.

(** ... and after the library reports [later]. *)
Definition run (url : string) (answer : HttpResult) (later : list Report) : State :=
  fold_left (deliver configured) later (configure url answer).

(** The arguments [callback] was invoked with, in order. *)
Definition callback_args (st : State) : list (option string) :=
  flat_map (fun e => match e with Callback a => [a] | _ => [] end) (effects st).

Definition with_libraries (libs : list string) : HttpResult :=
  HttpOk {| application_properties :=
              {| width := JS.Fin 1280; height := JS.Fin 720;
                 resolution_mode := "AUTO"; fill_mode := "KEEP_ASPECT";
                 libraries := libs |};
            scripts := None; assets := [] |}.

(** A report of success for a request that has been issued. *)
Definition succeeds_in (st : State) (r : Report) : Prop :=
  match r with
  | LibraryLoaded i err => err = None /\ In i (requests st)
  end.

End Configure.

(** ** The frame loop ([tick], [update], [render]) and [start] *)
Module Frame.

(** A node of the entity hierarchy. *)
#[warnings="-register-all"] Inductive Entity : Type :=
| Node (name : string) (children : list Entity).

(** [parent.addChild(child)] *)
Definition addChild (parent child : Entity) : Entity :=
  match parent with
  | Node n cs => Node n (cs ++ [child])
  end.

Record Scene : Type := { scene_name : string; scene_root : option Entity }.

(** An entry of [this.systems.camera.cameras]: a camera component and
    the camera node it drives ([camera.camera]). *)
Record Camera : Type := { component : nat; camera : nat }.

(** The fields of the application the frame loop reads and writes.  An
    input device or controller is [true] when the field holds one. *)
Record Application : Type := mkApplication {
  _time : JS.number;
  timeScale : JS.number;
  _inTools : bool;
  controller : bool;
  mouse : bool;
  keyboard : bool;
  gamepads : bool;
  cameras : list Camera;
  scene : option Scene;
  root : Entity
}.

Record Options : Type := {
  opt_keyboard : bool;
  opt_mouse : bool;
  opt_gamepads : bool
}.

(** The constructor, for the fields above: the clock starts at 0, the
    time scale at 1, there is no scene, and [controller] is never
    assigned. *)
Definition create (options : Options) : Application :=
  {| _time := JS.Fin 0;
     timeScale := JS.Fin 1;
     _inTools := false;
     controller := false;
     mouse := opt_mouse options;
     keyboard := opt_keyboard options;
     gamepads := opt_gamepads options;
     cameras := [];
     scene := None;
     root := Node EmptyString [] |}.

Inductive Effect : Type :=
| SetCurrentApplication                        (* Application._currentApplication = this *)
| RequestAnimationFrame                        (* window.requestAnimationFrame(this.tick.bind(this)) *)
| FixedUpdate (step : JS.number) (inTools : bool)
| Update (dt : JS.number) (inTools : bool)
| PostUpdate (dt : JS.number) (inTools : bool)
| FireUpdate (dt : JS.number)                  (* this.fire("update", dt) *)
| ControllerUpdate (dt : JS.number)
| MouseUpdate (dt : JS.number)
| KeyboardUpdate (dt : JS.number)
| GamepadsUpdate (dt : JS.number)
| SyncHierarchy                                (* this.root.syncHierarchy() *)
| FrameBegin (component : nat)
| Render (scene : option string) (camera : nat)
| FrameEnd (component : nat)
| AddChild (child : Entity)                    (* this.root.addChild(child) *)
| ConsoleLog (text : string)
| Initialize (node : string)
| PostInitialize (node : string).

Definition when (b : bool) (e : Effect) : list Effect :=
  if b then [e] else [].

(** [update(dt)] *)
Definition update (app : Application) (dt : JS.number) : list Effect :=
  [ FixedUpdate (JS.div (JS.Fin 1) (JS.Fin 60)) (_inTools app);
    Update dt (_inTools app);
    PostUpdate dt (_inTools app);
    FireUpdate dt ]
  ++ when (controller app) (ControllerUpdate dt)
  ++ when (mouse app) (MouseUpdate dt)
  ++ when (keyboard app) (KeyboardUpdate dt)
  ++ when (gamepads app) (GamepadsUpdate dt).

Definition scene_id (app : Application) : option string :=
  option_map scene_name (scene app).

(** The loop of [render]: [for (var i=0,len=cameras.length; i<len; i++)],
    with [todo] turns left. *)
Fixpoint render_from (app : Application) (i todo : nat) : list Effect :=
  match todo with
  | 0 => []
  | S todo' =>
      match nth_error (cameras app) i with
      | Some c =>
          [FrameBegin (component c); Render (scene_id app) (camera c);
           FrameEnd (component c)]
          ++ render_from app (S i) todo'
      | None => []      (* past the end of the array: not reached *)
      end
  end.

(** [render()] *)
Definition render (app : Application) : list Effect :=
  SyncHierarchy :: render_from app 0 (List.length (cameras app)).

(** The measured step of [tick], in seconds, before clamping. *)
Definition elapsed (app : Application) (now : JS.number) : JS.number :=
  JS.div (JS.sub now (JS.or_else (_time app) now)) (JS.Fin 1000).

Definition set_time (now : JS.number) (app : Application) : Application :=
  mkApplication now (timeScale app) (_inTools app) (controller app)
                (mouse app) (keyboard app) (gamepads app) (cameras app)
                (scene app) (root app).

(** [tick()], where [now] is what [performance.now()] (or [Date.now()])
    returns. *)
Definition tick (app : Application) (now : JS.number)
    : Application * list Effect :=
  let dt := elapsed app now in
  let app := set_time now app in
  let dt := pc_math.clamp dt (JS.Fin 0) (JS.Fin (1 # 10)) in
  let dt := JS.mul dt (timeScale app) in
  (app, [SetCurrentApplication; RequestAnimationFrame]
        ++ update app dt ++ render app).

(** The steps handed to [update], in order. *)
Definition update_steps (t : list Effect) : list JS.number :=
  flat_map (fun e => match e with Update dt _ => [dt] | _ => [] end) t.

(** *** One tick, phase by phase *)

(** What [tick] measures from, [this._time || now]: the stored time
    or, while that is 0 or NaN, the current time. *)
Definition lastTimestamp (app : Application) (now : JS.number) : JS.number :=
  if JS.truthy (_time app) then _time app else now.

(** Clamp the elapsed seconds to [0, 0.1], then scale. *)
Definition spec_delta (now last scale : JS.number) : JS.number :=
  JS.mul (pc_math.clamp (JS.div (JS.sub now last) (JS.Fin 1000))
                        (JS.Fin 0) (JS.Fin (1 # 10)))
         scale.

(** Fixed step, variable step, post-update, notification, device
    polling, then one synchronisation and a frame per camera. *)
Definition spec_phases (app : Application) (dt : JS.number) : list Effect :=
  [FixedUpdate (JS.Fin (1 # 60)) (_inTools app)]
  ++ [Update dt (_inTools app)]
  ++ [PostUpdate dt (_inTools app)]
  ++ [FireUpdate dt]
  ++ filter (fun e => match e with
                      | ControllerUpdate _ => controller app
                      | MouseUpdate _ => mouse app
                      | KeyboardUpdate _ => keyboard app
                      | GamepadsUpdate _ => gamepads app
                      | _ => false
                      end)
            [ControllerUpdate dt; MouseUpdate dt; KeyboardUpdate dt;
             GamepadsUpdate dt]
  ++ [SyncHierarchy]
  ++ flat_map (fun c => [FrameBegin (component c);
                         Render (scene_id app) (camera c);
                         FrameEnd (component c)])
              (cameras app).

(** The rank of an effect in the order of a tick. *)
Definition phase (e : Effect) : nat :=
  match e with
  | SetCurrentApplication | RequestAnimationFrame => 0
  | FixedUpdate _ _ => 1
  | Update _ _ => 2
  | PostUpdate _ _ => 3
  | FireUpdate _ => 4
  | ControllerUpdate _ | MouseUpdate _ | KeyboardUpdate _
  | GamepadsUpdate _ => 5
  | SyncHierarchy => 6
  | FrameBegin _ | Render _ _ | FrameEnd _ => 7
  | AddChild _ | ConsoleLog _ | Initialize _ | PostInitialize _ => 0
  end.

Definition is_sync (e : Effect) : bool :=
  match e with SyncHierarchy => true | _ => false end.

(** An application whose last tick was at 1000 ms, at time scale 2. *)
Definition stalled : Application :=
  {| _time := JS.Fin 1000; timeScale := JS.Fin 2; _inTools := false;
     controller := false; mouse := false; keyboard := false;
     gamepads := false; cameras := []; scene := None; root := Node EmptyString [] |}.

(** *** [start] *)

Section Start.

(** The nodes [pc.ComponentSystem.initialize(root)] and
    [pc.ComponentSystem.postInitialize(root)] reach, in the order they
    reach them.  [pc.ComponentSystem] is defined outside the files at
    hand, so both are parameters. *)
Variable visit_initialize : Entity -> list string.
Variable visit_postInitialize : Entity -> list string.

Definition attach (app : Application) : Application * list Effect :=
  match scene app with
  | Some sc =>
      match scene_root sc with
      | Some r =>
          (mkApplication (_time app) (timeScale app) (_inTools app)
                         (controller app) (mouse app) (keyboard app)
                         (gamepads app) (cameras app) (scene app)
                         (addChild (root app) r),
           [AddChild r])
      | None => (app, [])
      end
  | None => (app, [])
  end.

(** [start()] *)
Definition start (app : Application) (now : JS.number)
    : Application * list Effect :=
  let (app, attached) := attach app in
  let initialized := map Initialize (visit_initialize (root app)) in
  let postInitialized := map PostInitialize (visit_postInitialize (root app)) in
  let (app', ticked) := tick app now in
  (app', attached ++ [ConsoleLog "INITIALIZE"] ++ initialized
         ++ postInitialized ++ ticked).

End Start.

(** Modelled from the spec: [pc.ComponentSystem.initialize] and
    [postInitialize] are defined outside the files at hand; the
    initialization runs "over the whole hierarchy", here parent first
    and children in their order. *)
Fixpoint nodes (e : Entity) : list string :=
  match e with
  | Node n cs => n :: flat_map nodes cs
  end.

(** A world root and a scene of two nodes. *)
Definition three_nodes : Application :=
  {| _time := JS.Fin 0; timeScale := JS.Fin 1; _inTools := false;
     controller := false; mouse := false; keyboard := false;
     gamepads := false; cameras := [];
     scene := Some {| scene_name := "level";
                      scene_root := Some (Node "scene" [Node "child" []]) |};
     root := Node "world" [] |}.

(** The rank of an effect in the order of [start]. *)
Definition start_phase (e : Effect) : nat :=
  match e with
  | AddChild _ => 0
  | ConsoleLog _ => 1
  | Initialize _ => 2
  | PostInitialize _ => 3
  | _ => 4
  end.

End Frame.

(** ** The canvas ([resizeCanvas], [setCanvasResolution],
    [setCanvasFillMode]) *)
Module Viewport.

Definition FILLMODE_NONE : string := "NONE".
Definition FILLMODE_FILL_WINDOW : string := "FILL_WINDOW".
Definition FILLMODE_KEEP_ASPECT : string := "KEEP_ASPECT".
Definition RESOLUTION_AUTO : string := "AUTO".
Definition RESOLUTION_FIXED : string := "FIXED".

(** What the functions read from the host: the window, the navigator
    and the canvas element. *)
Record Host : Type := {
  innerWidth : JS.number;
  innerHeight : JS.number;
  isCocoonJS : bool;
  devicePixelRatio : JS.number;
  canvas_width : JS.number;      (* this.graphicsDevice.canvas.width *)
  canvas_height : JS.number;
  clientWidth : JS.number;
  clientHeight : JS.number
}.

Record Application : Type := {
  _fillMode : string;
  _resolutionMode : string
}.

(** An argument that may be [undefined]. *)
Definition arg : Type := option JS.number.

Inductive Effect : Type :=
| DeviceResizeCanvas (w h : arg)   (* this.graphicsDevice.resizeCanvas(w, h) *)
| StyleWidth (w : arg)             (* canvas.style.width = w + 'px' *)
| StyleHeight (h : arg).

(** The object [{width: ..., height: ...}] returned by [resizeCanvas]. *)
Record Size : Type := { width : arg; height : arg }.

Section WithHost.

Variable host : Host.

(** [setCanvasResolution(mode, width, height)] *)
Definition setCanvasResolution (app : Application) (mode : string)
    (w h : arg) : Application * list Effect :=
  let app := {| _fillMode := _fillMode app; _resolutionMode := mode |} in
  let '(w, h) :=
    match w with
    | None =>
        if String.eqb mode RESOLUTION_AUTO
        then (Some (clientWidth host), Some (clientHeight host))
        else (w, h)
    | Some _ => (w, h)
    end in
  (app, [DeviceResizeCanvas w h]).

(** [resizeCanvas(width, height)] *)
Definition resizeCanvas (app : Application) (w h : arg)
    : Application * list Effect * Size :=
  let windowWidth := innerWidth host in
  let windowHeight := innerHeight host in
  if isCocoonJS host then
    let ratio := devicePixelRatio host in
    (app,
     [DeviceResizeCanvas (Some (JS.mul windowWidth ratio))
                         (Some (JS.mul windowHeight ratio))],
     {| width := Some windowWidth; height := Some windowHeight |})
  else
    let '(w, h) :=
      if String.eqb (_fillMode app) FILLMODE_KEEP_ASPECT then
        let r := JS.div (canvas_width host) (canvas_height host) in
        let winR := JS.div windowWidth windowHeight in
        if JS.gt r winR
        then (Some windowWidth, Some (JS.div windowWidth r))
        else (Some (JS.mul windowHeight r), Some windowHeight)
      else if String.eqb (_fillMode app) FILLMODE_FILL_WINDOW then
        (Some windowWidth, Some windowHeight)
      else (w, h) in
    let styled := [StyleWidth w; StyleHeight h] in
    let '(app, resized) :=
      if String.eqb (_resolutionMode app) RESOLUTION_AUTO
      then setCanvasResolution app RESOLUTION_AUTO None None
      else (app, []) in
    (app, styled ++ resized, {| width := w; height := h |}).

(** [setCanvasFillMode(mode, width, height)] *)
Definition setCanvasFillMode (app : Application) (mode : string)
    (w h : arg) : Application * list Effect :=
  let app := {| _fillMode := mode; _resolutionMode := _resolutionMode app |} in
  let '(app, effects, _) := resizeCanvas app w h in
  (app, effects).

End WithHost.

(** The ratio of a returned size, when both sides are there. *)
Definition aspect (s : Size) : option JS.number :=
  match width s, height s with
  | Some w, Some h => Some (JS.div w h)
  | _, _ => None
  end.

(** A browser window around a canvas of [cw] by [ch] pixels. *)
Definition browser (ww wh cw ch : JS.number) : Host :=
  {| innerWidth := ww; innerHeight := wh; isCocoonJS := false;
     devicePixelRatio := JS.Fin 1;
     canvas_width := cw; canvas_height := ch;
     clientWidth := cw; clientHeight := ch |}.

Definition keep_aspect : Application :=
  {| _fillMode := FILLMODE_KEEP_ASPECT; _resolutionMode := RESOLUTION_FIXED |}.

End Viewport.

(** ** Fullscreen ([enableFullscreen], [disableFullscreen]) *)
Module Fullscreen.

Inductive EventType : Type := fullscreenchange | fullscreenerror.

(** The functions created by the [call]-th call of the two methods:
    [s] and [e] of [enableFullscreen], [s] of [disableFullscreen]. *)
Inductive Listener : Type :=
| EnableSuccess (call : nat)
| EnableError (call : nat)
| DisableSuccess (call : nat).

(** [Fired l]: the listener [l] ran, that is, it called the [success]
    (or [error]) function given to its call. *)
Inductive Effect : Type :=
| Fired (l : Listener)
| RequestFullscreen        (* element.requestFullscreen(...) *)
| ExitFullscreen.          (* document.exitFullscreen() *)

(** The listeners registered on [document], the number of calls made so
    far (the identity of the next closures), and the trace. *)
Record Document : Type := mkDocument {
  listeners : list (EventType * Listener);
  calls : nat;
  log : list Effect
}.

Definition type_eqb (a b : EventType) : bool :=
  match a, b with
  | fullscreenchange, fullscreenchange
  | fullscreenerror, fullscreenerror => true
  | _, _ => false
  end.

Definition listener_eqb (a b : Listener) : bool :=
  match a, b with
  | EnableSuccess i, EnableSuccess j
  | EnableError i, EnableError j
  | DisableSuccess i, DisableSuccess j => i =? j
  | _, _ => false
  end.

Definition same (a b : EventType * Listener) : bool :=
  type_eqb (fst a) (fst b) && listener_eqb (snd a) (snd b).

(** [document.addEventListener(type, l, false)]: a listener already
    registered for the type is not registered twice. *)
Definition addEventListener (ty : EventType) (l : Listener)
    (doc : Document) : Document :=
  if existsb (same (ty, l)) (listeners doc) then doc
  else mkDocument (listeners doc ++ [(ty, l)]) (calls doc) (log doc).

(** [document.removeEventListener(type, l)] *)
Definition removeEventListener (ty : EventType) (l : Listener)
    (doc : Document) : Document :=
  mkDocument (filter (fun x => negb (same (ty, l) x)) (listeners doc))
             (calls doc) (log doc).

Definition emit (e : Effect) (doc : Document) : Document :=
  mkDocument (listeners doc) (calls doc) (log doc ++ [e]).

(** The body of a listener: call the function, then unregister. *)
Definition invoke (l : Listener) (doc : Document) : Document :=
  match l with
  | EnableSuccess _ | DisableSuccess _ =>
      removeEventListener fullscreenchange l (emit (Fired l) doc)
  | EnableError _ =>
      removeEventListener fullscreenerror l (emit (Fired l) doc)
  end.

(** The host dispatches an event: the listeners registered for it at
    that moment run in order, unless removed meanwhile. *)
Definition dispatch (ty : EventType) (doc : Document) : Document :=
  fold_left
    (fun doc x =>
       if existsb (same x) (listeners doc) then invoke (snd x) doc else doc)
    (filter (fun x => type_eqb ty (fst x)) (listeners doc))
    doc.

Definition fresh (doc : Document) : Document :=
  mkDocument (listeners doc) (S (calls doc)) (log doc).

(** [enableFullscreen(element, success, error)]; [success] and [error]
    tell whether the function was given. *)
Definition enableFullscreen (success error : bool) (doc : Document) : Document :=
  let k := calls doc in
  let doc := fresh doc in
  let doc := if success
             then addEventListener fullscreenchange (EnableSuccess k) doc
             else doc in
  let doc := if error
             then addEventListener fullscreenerror (EnableError k) doc
             else doc in
  emit RequestFullscreen doc.

(** [disableFullscreen(success)] *)
Definition disableFullscreen (success : bool) (doc : Document) : Document :=
  let k := calls doc in
  let doc := fresh doc in
  let doc := if success
             then addEventListener fullscreenchange (DisableSuccess k) doc
             else doc in
  emit ExitFullscreen doc.

(** What happens to the document: calls of the two methods, and events
    dispatched by the host. *)
Inductive Step : Type :=
| Enable (success error : bool)
| Disable (success : bool)
| Event (ty : EventType).

Definition step (doc : Document) (s : Step) : Document :=
  match s with
  | Enable success error => enableFullscreen success error doc
  | Disable success => disableFullscreen success doc
  | Event ty => dispatch ty doc
  end.

Definition initial : Document := mkDocument [] 0 [].

Definition run (steps : list Step) : Document := fold_left step steps initial.

(** The listeners that have run, in order. *)
Definition fired (doc : Document) : list Listener :=
  flat_map (fun e => match e with Fired l => [l] | _ => [] end) (log doc).

Definition call_of (l : Listener) : nat :=
  match l with
  | EnableSuccess k | EnableError k | DisableSuccess k => k
  end.

(** The event a listener is registered for. *)
Definition type_of (l : Listener) : EventType :=
  match l with
  | EnableSuccess _ | DisableSuccess _ => fullscreenchange
  | EnableError _ => fullscreenerror
  end.

(** [n] rounds of entering fullscreen with both functions given, each
    followed by its success. *)
Fixpoint rounds (n : nat) : list Step :=
  match n with
  | 0 => []
  | S n' => rounds n' ++ [Enable true true; Event fullscreenchange]
  end.

(** The error observers of the first [n] calls. *)
Definition leaked (n : nat) : list (EventType * Listener) :=
  map (fun k => (fullscreenerror, EnableError k)) (seq 0 n).

(** What holds of every reachable document. *)
Record Wf (doc : Document) : Prop := {
  wf_nodup : NoDup (listeners doc);
  wf_typed : forall ty l, In (ty, l) (listeners doc) -> ty = type_of l;
  wf_known : forall ty l, In (ty, l) (listeners doc) -> call_of l < calls doc;
  wf_fired_known : forall l, In l (fired doc) -> call_of l < calls doc;
  wf_fired_gone : forall ty l, In l (fired doc) -> ~ In (ty, l) (listeners doc);
  wf_fired_once : NoDup (fired doc)
}.

End Fullscreen.

(** ** [loadFromToc], up to its return *)
Module Toc.

(** The faults of the engine: calling [undefined], reading a property
    of [undefined]. *)
Inductive Exception : Type :=
| NotAFunction (callee : string)
| PropertyOfUndefined (property : string).

(** A function value: one given by the caller, or the empty function
    put in its place. *)
Inductive Function : Type :=
| Given (id : nat)
| Empty.

Inductive Effect : Type :=
| Call (f : Function) (argument : string)     (* f(argument) *)
| OnLibrariesLoaded                           (* this.on('librariesloaded', ...) *)
| AssetsList (guid : option string)           (* this.assets.list(guid) *)
| LoaderOnProgress (progress : Function)      (* this.loader.on('progress', progress) *)
| AssetsLoad (guid : option string)           (* this.assets.load(assets).then(...) *)
| SetTimeoutOnLoaded.                         (* setTimeout(function () { onLoaded([]) }, 0) *)

(** How a computation ends. *)
Inductive Completion (A : Type) : Type :=
| Normal (a : A)
| Throw (e : Exception).

Arguments Normal {A} a.
Arguments Throw {A} e.

(** A computation: its trace and how it ends. *)
Definition M (A : Type) : Type := list Effect * Completion A.

Definition ret {A} (a : A) : M A := ([], Normal a).

Definition throw {A} (e : Exception) : M A := ([], Throw e).

Definition emit (e : Effect) : M unit := ([e], Normal tt).

Definition bind {A B} (m : M A) (k : A -> M B) : M B :=
  match m with
  | (t, Normal a) => let (t', c) := k a in (t ++ t', c)
  | (t, Throw e) => (t, Throw e)
  end.

Notation "x <- m ;; k" := (bind m (fun x => k))
  (at level 61, m at next level, right associativity).
Notation "m ;;; k" := (bind m (fun _ => k))
  (at level 61, right associativity).

Record TocBlock : Type := { packs : list string }.

(** [this.content], when there is one: its table of contents. *)
Record Content : Type := { toc : list (string * TocBlock) }.

Record Application : Type := {
  content : option Content;
  _librariesLoaded : bool;
  listed : option string -> nat    (* the length of this.assets.list(guid) *)
}.

(** [f(argument)] for a parameter that may be [undefined]. *)
Definition call (name : string) (f : option Function) (argument : string)
    : M unit :=
  match f with
  | Some g => emit (Call g argument)
  | None => throw (NotAFunction name)
  end.

(** [f || function () {}] *)
Definition or_empty (f : option Function) : Function :=
  match f with Some g => g | None => Empty end.

Fixpoint lookup (name : string) (l : list (string * TocBlock))
    : option TocBlock :=
  match l with
  | [] => None
  | (k, v) :: l' => if String.eqb k name then Some v else lookup name l'
  end.

(** The names a plain object inherits from [Object.prototype]. *)
Definition Object_prototype : list string :=
  ["constructor"%string; "__defineGetter__"%string;
   "__defineSetter__"%string; "hasOwnProperty"%string;
   "__lookupGetter__"%string; "__lookupSetter__"%string;
   "isPrototypeOf"%string; "propertyIsEnumerable"%string;
   "toString"%string; "valueOf"%string; "__proto__"%string;
   "toLocaleString"%string].

(** What [table[name]] finds in a table that is a plain object: a
    block of the table, a member inherited from [Object.prototype]
    (a function, or the prototype itself: nothing with [packs]), or
    nothing. *)
Inductive Member : Type :=
| Own (block : TocBlock)
| Inherited
| Missing.

Definition member (name : string) (l : list (string * TocBlock)) : Member :=
  match lookup name l with
  | Some b => Own b
  | None =>
      if existsb (String.eqb name) Object_prototype then Inherited
      else Missing
  end.

(** The function [load] defined inside [loadFromToc]. *)
Definition load (app : Application) (guid : option string)
    (progress : Function) : M unit :=
  emit (AssetsList guid) ;;;
  emit (LoaderOnProgress progress) ;;;
  if listed app guid =? 0 then emit SetTimeoutOnLoaded
  else emit (AssetsLoad guid).

(** [loadFromToc(name, success, error, progress)] *)
Definition loadFromToc (app : Application) (name : string)
    (success error progress : option Function) : M unit :=
  (match content app with
   | None => call "error" error "No content"
   | Some _ => ret tt
   end) ;;;
  block <- match content app with
           | None => throw (PropertyOfUndefined "toc")
           | Some c => ret (member name (toc c))
           end ;;
  let success := or_empty success in
  let error := or_empty error in
  let progress := or_empty progress in
  guid <- match block with
          | Missing => throw (PropertyOfUndefined "packs")
          | Inherited => throw (PropertyOfUndefined "0")
          | Own b => ret (nth_error (packs b) 0)
          end ;;
  if negb (_librariesLoaded app) then emit OnLibrariesLoaded
  else load app guid progress.

(** A freshly constructed application: the constructor sets no
    [content]. *)
Definition fresh : Application :=
  {| content := None; _librariesLoaded := false; listed := fun _ => 0 |}.

End Toc.

(** ** More about the preload batch: what it requests, what it reports *)
Module PreloadTrace.

Import Preload.

(** The assets handed to [this.assets.load], in order. *)
Definition asset_requests (st : State) : list nat :=
  flat_map (fun e => match e with AssetsLoad i => [i] | _ => [] end)
           (effects st).

(** The (prefix, script) pairs handed to [this.loader.load], in order. *)
Definition script_requests (st : State) : list (string * string) :=
  flat_map (fun e => match e with LoaderLoad p u => [(p, u)] | _ => [] end)
           (effects st).

(** The indices of the assets that are not loaded yet. *)
Definition pending_indices (assets : list Asset) : list nat :=
  filter (fun i => negb (loaded (nth i assets {| name := EmptyString;
                                                 loaded := false |})))
         (seq 0 (List.length assets)).

(** [c / total], as [count()/total] computes it. *)
Definition fraction (total c : nat) : JS.number :=
  JS.div (JS.of_nat c) (JS.of_nat total).

(** The reported fractions are those of the counts [cs]. *)
Definition reports (st : State) (cs : list nat) : Prop :=
  fractions st = map (fraction (total st)) cs.

(** The fractions reported so far, in a batch of [a] assets and [s]
    scripts, are those of increasing counts. *)
Definition Rising (a s : nat) (st : State) : Prop :=
  exists cs, reports st cs /\ StronglySorted lt cs /\
             Forall (fun c => 1 <= c <= count st) cs /\
             total st = a + s /\ (cs <> [] -> 0 < a).

End PreloadTrace.

(** ** Reading the trace of [configure] *)
Module ConfigureTrace.

Import Configure.

(** The urls handed to [this.loader.load(url, "script", ...)], in order. *)
Definition library_requests (st : State) : list string :=
  flat_map (fun e => match e with LoaderLoad u => [u] | _ => [] end)
           (effects st).

(** The errors among the arguments of [callback]. *)
Definition errors (args : list (option string)) : list string :=
  flat_map (fun a => match a with Some e => [e] | None => [] end) args.

(** How many times [callback(null)] occurs. *)
Definition nulls (args : list (option string)) : nat :=
  List.length (filter (fun a => match a with None => true | Some _ => false end)
                      args).

(** The errors the loader reports for one of [n] requests, in order. *)
Definition reported_errors (n : nat) (later : list Report) : list string :=
  flat_map (fun r => match r with
                     | LibraryLoaded i (Some e) => if i <? n then [e] else []
                     | LibraryLoaded _ None => []
                     end) later.

(** What the response handler does besides issuing requests. *)
Definition is_handling (e : Effect) : bool :=
  match e with
  | OnLibraryLoaded | ParseScripts | ParseAssets | Callback _ => true
  | _ => false
  end.

Definition handling (st : State) : list Effect := filter is_handling (effects st).

(** One invocation of [callback] by the response handler of a response
    declaring [n] libraries. *)
Definition invocation (n : nat) (a : option string) : list Effect :=
  match a with
  | None => (if n =? 0 then [] else [OnLibraryLoaded])
            ++ [ParseScripts; ParseAssets; Callback None]
  | Some e => [ParseScripts; ParseAssets; Callback (Some e)]
  end.

End ConfigureTrace.

(** ** Frame after frame *)
Module FrameRun.

Import Frame.

(** The ticks that follow one another, each run when the animation
    frame requested by the previous one arrives; [nows] are the clock
    values they read. *)
Fixpoint ticks (app : Application) (nows : list JS.number)
    : Application * list Effect :=
  match nows with
  | [] => (app, [])
  | now :: rest =>
      let (app1, t1) := tick app now in
      let (app2, t2) := ticks app1 rest in
      (app2, t1 ++ t2)
  end.

(** *** What the specification says of a run of ticks *)

(** The steps of a run, with the last timestamp as the specification
    has it: none before the first tick, which is measured from its
    own clock value, then the clock value the previous tick read. *)
Fixpoint spec_steps (scale : JS.number) (last : option JS.number)
    (nows : list JS.number) : list JS.number :=
  match nows with
  | [] => []
  | now :: rest =>
      spec_delta now (match last with Some t => t | None => now end) scale
      :: spec_steps scale (Some now) rest
  end.

(** The same with one amendment: a clock value that is 0 or NaN does
    not count as a timestamp, and the tick after it is measured as a
    first tick. *)
Definition seeded (t : JS.number) : option JS.number :=
  if JS.truthy t then Some t else None.

Fixpoint amended_steps (scale : JS.number) (last : option JS.number)
    (nows : list JS.number) : list JS.number :=
  match nows with
  | [] => []
  | now :: rest =>
      spec_delta now (match last with Some t => t | None => now end) scale
      :: amended_steps scale (seeded now) rest
  end.

(** No device, no scene. *)
Definition bare : Options :=
  {| opt_keyboard := false; opt_mouse := false; opt_gamepads := false |}.

End FrameRun.

(** ** Reading the trace of the canvas functions *)
Module ViewportTrace.

Import Viewport.

(** The sizes handed to [this.graphicsDevice.resizeCanvas], in order. *)
Definition device_sizes (t : list Effect) : list (arg * arg) :=
  flat_map (fun e => match e with
                     | DeviceResizeCanvas w h => [(w, h)]
                     | _ => []
                     end) t.

End ViewportTrace.

(** ** Counting the fullscreen observers *)
Module FullscreenTrace.

Import Fullscreen.

(** The listeners registered for an event, in registration order. *)
Definition registered_for (ty : EventType) (doc : Document)
    : list (EventType * Listener) :=
  filter (fun x => type_eqb ty (fst x)) (listeners doc).

(** The listeners registered for another event. *)
Definition registered_otherwise (ty : EventType) (doc : Document)
    : list (EventType * Listener) :=
  filter (fun x => negb (type_eqb ty (fst x))) (listeners doc).

(** The number of functions ([success], [error]) a step supplies. *)
Definition supplied (s : Step) : nat :=
  match s with
  | Enable success error => Nat.b2n success + Nat.b2n error
  | Disable success => Nat.b2n success
  | Event _ => 0
  end.

Definition supplied_by (steps : list Step) : nat :=
  list_sum (map supplied steps).

End FullscreenTrace.

(** ** Reading the trace of [loadFromToc] *)
Module TocTrace.

Import Toc.

Definition is_call (e : Effect) : bool :=
  match e with Call _ _ => true | _ => false end.

(** A table of contents with one block. *)
Definition one_pack (name guid : string) : Application :=
  {| content := Some {| toc := [(name, {| packs := [guid] |})] |};
     _librariesLoaded := true;
     listed := fun _ => 2 |}.

End TocTrace.

(** * The four-dimensional vector of [vec4.js]

    A [Vec4] is an object with four number fields.  The methods update
    the object they are called on and take other vectors by reference,
    so the objects live in a heap and the methods are computations on
    it.  [Vec4.ZERO] and [Vec4.ONE] are frozen: the class body is
    strict code, where writing a field of a frozen object throws. *)
Module Vec4.

Local Open Scope Q_scope.

(** [a + b] on numbers. *)
Definition plus (a b : JS.number) : JS.number :=
  match a, b with
  | JS.NaN, _ | _, JS.NaN => JS.NaN
  | JS.Fin p, JS.Fin q => JS.fin (p + q)
  | JS.PosInf, JS.NegInf | JS.NegInf, JS.PosInf => JS.NaN
  | JS.PosInf, _ | _, JS.PosInf => JS.PosInf
  | JS.NegInf, _ | _, JS.NegInf => JS.NegInf
  end.

(** [a === b] on numbers: NaN is equal to nothing. *)
Definition strict_equal (a b : JS.number) : bool :=
  match a, b with
  | JS.Fin p, JS.Fin q => Qeq_bool p q
  | JS.PosInf, JS.PosInf | JS.NegInf, JS.NegInf => true
  | _, _ => false
  end.

Local Close Scope Q_scope.

Inductive Field : Type := X | Y | Z | W.

Record Components : Type := mkComponents {
  x : JS.number;
  y : JS.number;
  z : JS.number;
  w : JS.number
}.

Definition field (f : Field) (c : Components) : JS.number :=
  match f with X => x c | Y => y c | Z => z c | W => w c end.

Definition with_field (f : Field) (v : JS.number) (c : Components) : Components :=
  match f with
  | X => mkComponents v (y c) (z c) (w c)
  | Y => mkComponents (x c) v (z c) (w c)
  | Z => mkComponents (x c) (y c) v (w c)
  | W => mkComponents (x c) (y c) (z c) v
  end.

Record Object : Type := mkObject { components : Components; frozen : bool }.

(** A reference is the position of the object in the heap; a reference
    to nothing stands for [undefined]. *)
Definition Ref : Type := nat.

Definition Heap : Type := list Object.

Fixpoint store (r : Ref) (o : Object) (h : Heap) : Heap :=
  match r, h with
  | _, [] => []
  | 0, _ :: h' => o :: h'
  | S r', o' :: h' => o' :: store r' o h'
  end.

(** The two TypeErrors of field access. *)
Inductive Exception : Type :=
| PropertyOfUndefined (f : Field)   (* reading or writing a field of undefined *)
| ReadOnlyProperty (f : Field).     (* writing a field of a frozen object *)

Inductive Result (A : Type) : Type :=
| Ok (a : A) (h : Heap)
| Throw (e : Exception) (h : Heap).

Arguments Ok {A} a h.
Arguments Throw {A} e h.

Definition heap_of {A} (r : Result A) : Heap :=
  match r with Ok _ h | Throw _ h => h end.

(** A computation on the heap that may throw. *)
Definition M (A : Type) : Type := Heap -> Result A.

Definition ret {A} (a : A) : M A := fun h => Ok a h.

Definition bind {A B} (m : M A) (k : A -> M B) : M B :=
  fun h => match m h with
           | Ok a h' => k a h'
           | Throw e h' => Throw e h'
           end.

Notation "x <- m ;; k" := (bind m (fun x => k))
  (at level 61, m at next level, right associativity).
Notation "m ;;; k" := (bind m (fun _ => k))
  (at level 61, right associativity).

(** [r.f] *)
Definition get (r : Ref) (f : Field) : M JS.number :=
  fun h => match nth_error h r with
           | Some o => Ok (field f (components o)) h
           | None => Throw (PropertyOfUndefined f) h
           end.

(** [r.f = v], in strict code. *)
Definition put (r : Ref) (f : Field) (v : JS.number) : M unit :=
  fun h => match nth_error h r with
           | Some o =>
               if frozen o then Throw (ReadOnlyProperty f) h
               else Ok tt (store r (mkObject (with_field f v (components o)) false) h)
           | None => Throw (PropertyOfUndefined f) h
           end.

(** [e1 op e2]: the left operand is evaluated first. *)
Definition binary {A} (op : JS.number -> JS.number -> A)
    (e1 e2 : M JS.number) : M A :=
  a <- e1 ;; b <- e2 ;; ret (op a b).

(** [this.f = e] *)
Definition assign (this : Ref) (f : Field) (e : M JS.number) : M unit :=
  v <- e ;; put this f v.

(** [this.f op= e]: [this.f] is read before [e] is evaluated. *)
Definition compound (op : JS.number -> JS.number -> JS.number)
    (this : Ref) (f : Field) (e : M JS.number) : M unit :=
  assign this f (binary op (get this f) e).

(** [e1 && e2] on booleans. *)
Definition and_then (e1 e2 : M bool) : M bool :=
  b <- e1 ;; if b then e2 else ret false.

(** An argument left out is [undefined] and takes the default 0. *)
Definition or_zero (a : option JS.number) : JS.number :=
  match a with Some v => v | None => JS.Fin 0 end.

(** [new Vec4(x, y, z, w)] with numbers; the form taking an array of
    length 4 is [new Vec4(a[0], a[1], a[2], a[3])]. *)
Definition new (x y z w : option JS.number) : M Ref :=
  fun h => Ok (List.length h)
              (h ++ [mkObject (mkComponents (or_zero x) (or_zero y)
                                            (or_zero z) (or_zero w))
                              false]).

Definition new_from_array (a : JS.number * JS.number * JS.number * JS.number)
    : M Ref :=
  let '(a0, a1, a2, a3) := a in new (Some a0) (Some a1) (Some a2) (Some a3).

(** [Object.freeze(r)] *)
Definition freeze (r : Ref) : M Ref :=
  fun h => match nth_error h r with
           | Some o => Ok r (store r (mkObject (components o) true) h)
           | None => Ok r h
           end.

Definition add (this rhs : Ref) : M Ref :=
  compound plus this X (get rhs X) ;;;
  compound plus this Y (get rhs Y) ;;;
  compound plus this Z (get rhs Z) ;;;
  compound plus this W (get rhs W) ;;;
  ret this.

Definition add2 (this lhs rhs : Ref) : M Ref :=
  assign this X (binary plus (get lhs X) (get rhs X)) ;;;
  assign this Y (binary plus (get lhs Y) (get rhs Y)) ;;;
  assign this Z (binary plus (get lhs Z) (get rhs Z)) ;;;
  assign this W (binary plus (get lhs W) (get rhs W)) ;;;
  ret this.

Definition addScalar (this : Ref) (scalar : JS.number) : M Ref :=
  compound plus this X (ret scalar) ;;;
  compound plus this Y (ret scalar) ;;;
  compound plus this Z (ret scalar) ;;;
  compound plus this W (ret scalar) ;;;
  ret this.

Definition clone (this : Ref) : M Ref :=
  x <- get this X ;;
  y <- get this Y ;;
  z <- get this Z ;;
  w <- get this W ;;
  new (Some x) (Some y) (Some z) (Some w).

Definition copy (this rhs : Ref) : M Ref :=
  assign this X (get rhs X) ;;;
  assign this Y (get rhs Y) ;;;
  assign this Z (get rhs Z) ;;;
  assign this W (get rhs W) ;;;
  ret this.

Definition div (this rhs : Ref) : M Ref :=
  compound JS.div this X (get rhs X) ;;;
  compound JS.div this Y (get rhs Y) ;;;
  compound JS.div this Z (get rhs Z) ;;;
  compound JS.div this W (get rhs W) ;;;
  ret this.

Definition div2 (this lhs rhs : Ref) : M Ref :=
  assign this X (binary JS.div (get lhs X) (get rhs X)) ;;;
  assign this Y (binary JS.div (get lhs Y) (get rhs Y)) ;;;
  assign this Z (binary JS.div (get lhs Z) (get rhs Z)) ;;;
  assign this W (binary JS.div (get lhs W) (get rhs W)) ;;;
  ret this.

Definition divScalar (this : Ref) (scalar : JS.number) : M Ref :=
  compound JS.div this X (ret scalar) ;;;
  compound JS.div this Y (ret scalar) ;;;
  compound JS.div this Z (ret scalar) ;;;
  compound JS.div this W (ret scalar) ;;;
  ret this.

(** [a.x * b.x + a.y * b.y + a.z * b.z + a.w * b.w], summed from the
    left. *)
Definition products (a b : Ref) : M JS.number :=
  binary plus
    (binary plus
       (binary plus (binary JS.mul (get a X) (get b X))
                    (binary JS.mul (get a Y) (get b Y)))
       (binary JS.mul (get a Z) (get b Z)))
    (binary JS.mul (get a W) (get b W)).

Definition dot (this rhs : Ref) : M JS.number := products this rhs.

Definition equals (this rhs : Ref) : M bool :=
  and_then
    (and_then
       (and_then (binary strict_equal (get this X) (get rhs X))
                 (binary strict_equal (get this Y) (get rhs Y)))
       (binary strict_equal (get this Z) (get rhs Z)))
    (binary strict_equal (get this W) (get rhs W)).

Definition lengthSq (this : Ref) : M JS.number := products this this.

Definition lerp (this lhs rhs : Ref) (alpha : JS.number) : M Ref :=
  let mix f :=
    binary plus (get lhs f)
           (binary JS.mul (ret alpha) (binary JS.sub (get rhs f) (get lhs f))) in
  assign this X (mix X) ;;;
  assign this Y (mix Y) ;;;
  assign this Z (mix Z) ;;;
  assign this W (mix W) ;;;
  ret this.

Definition mul (this rhs : Ref) : M Ref :=
  compound JS.mul this X (get rhs X) ;;;
  compound JS.mul this Y (get rhs Y) ;;;
  compound JS.mul this Z (get rhs Z) ;;;
  compound JS.mul this W (get rhs W) ;;;
  ret this.

Definition mul2 (this lhs rhs : Ref) : M Ref :=
  assign this X (binary JS.mul (get lhs X) (get rhs X)) ;;;
  assign this Y (binary JS.mul (get lhs Y) (get rhs Y)) ;;;
  assign this Z (binary JS.mul (get lhs Z) (get rhs Z)) ;;;
  assign this W (binary JS.mul (get lhs W) (get rhs W)) ;;;
  ret this.

Definition mulScalar (this : Ref) (scalar : JS.number) : M Ref :=
  compound JS.mul this X (ret scalar) ;;;
  compound JS.mul this Y (ret scalar) ;;;
  compound JS.mul this Z (ret scalar) ;;;
  compound JS.mul this W (ret scalar) ;;;
  ret this.

Definition set (this : Ref) (x y z w : JS.number) : M Ref :=
  put this X x ;;;
  put this Y y ;;;
  put this Z z ;;;
  put this W w ;;;
  ret this.

Definition sub (this rhs : Ref) : M Ref :=
  compound JS.sub this X (get rhs X) ;;;
  compound JS.sub this Y (get rhs Y) ;;;
  compound JS.sub this Z (get rhs Z) ;;;
  compound JS.sub this W (get rhs W) ;;;
  ret this.

Definition sub2 (this lhs rhs : Ref) : M Ref :=
  assign this X (binary JS.sub (get lhs X) (get rhs X)) ;;;
  assign this Y (binary JS.sub (get lhs Y) (get rhs Y)) ;;;
  assign this Z (binary JS.sub (get lhs Z) (get rhs Z)) ;;;
  assign this W (binary JS.sub (get lhs W) (get rhs W)) ;;;
  ret this.

Definition subScalar (this : Ref) (scalar : JS.number) : M Ref :=
  compound JS.sub this X (ret scalar) ;;;
  compound JS.sub this Y (ret scalar) ;;;
  compound JS.sub this Z (ret scalar) ;;;
  compound JS.sub this W (ret scalar) ;;;
  ret this.

(** [static ZERO = Object.freeze(new Vec4(0, 0, 0, 0))], and [ONE]. *)
Definition ZERO : M Ref :=
  r <- new (Some (JS.Fin 0)) (Some (JS.Fin 0)) (Some (JS.Fin 0)) (Some (JS.Fin 0)) ;;
  freeze r.

Definition ONE : M Ref :=
  r <- new (Some (JS.Fin 1)) (Some (JS.Fin 1)) (Some (JS.Fin 1)) (Some (JS.Fin 1)) ;;
  freeze r.

Section Sqrt.

(** [Math.sqrt] is not a function of exact rationals: a parameter. *)
Variable sqrt : JS.number -> JS.number.

Definition length (this : Ref) : M JS.number :=
  v <- products this this ;; ret (sqrt v).

Definition normalize (this : Ref) : M Ref :=
  lengthSq <- products this this ;;
  (if JS.gt lengthSq (JS.Fin 0)
   then
     let invLength := JS.div (JS.Fin 1) (sqrt lengthSq) in
     compound JS.mul this X (ret invLength) ;;;
     compound JS.mul this Y (ret invLength) ;;;
     compound JS.mul this Z (ret invLength) ;;;
     compound JS.mul this W (ret invLength)
   else ret tt) ;;;
  ret this.

(** A call of a method, by name. *)
Inductive Method : Type :=
| CallAdd (rhs : Ref)
| CallAdd2 (lhs rhs : Ref)
| CallAddScalar (scalar : JS.number)
| CallClone
| CallCopy (rhs : Ref)
| CallDiv (rhs : Ref)
| CallDiv2 (lhs rhs : Ref)
| CallDivScalar (scalar : JS.number)
| CallDot (rhs : Ref)
| CallEquals (rhs : Ref)
| CallLength
| CallLengthSq
| CallLerp (lhs rhs : Ref) (alpha : JS.number)
| CallMul (rhs : Ref)
| CallMul2 (lhs rhs : Ref)
| CallMulScalar (scalar : JS.number)
| CallNormalize
| CallSet (x y z w : JS.number)
| CallSub (rhs : Ref)
| CallSub2 (lhs rhs : Ref)
| CallSubScalar (scalar : JS.number).

Inductive Value : Type :=
| Vector (r : Ref)
| Number (n : JS.number)
| Boolean (b : bool).

Definition call (m : Method) (this : Ref) : M Value :=
  match m with
  | CallAdd rhs => r <- add this rhs ;; ret (Vector r)
  | CallAdd2 lhs rhs => r <- add2 this lhs rhs ;; ret (Vector r)
  | CallAddScalar s => r <- addScalar this s ;; ret (Vector r)
  | CallClone => r <- clone this ;; ret (Vector r)
  | CallCopy rhs => r <- copy this rhs ;; ret (Vector r)
  | CallDiv rhs => r <- div this rhs ;; ret (Vector r)
  | CallDiv2 lhs rhs => r <- div2 this lhs rhs ;; ret (Vector r)
  | CallDivScalar s => r <- divScalar this s ;; ret (Vector r)
  | CallDot rhs => n <- dot this rhs ;; ret (Number n)
  | CallEquals rhs => b <- equals this rhs ;; ret (Boolean b)
  | CallLength => n <- length this ;; ret (Number n)
  | CallLengthSq => n <- lengthSq this ;; ret (Number n)
  | CallLerp lhs rhs alpha => r <- lerp this lhs rhs alpha ;; ret (Vector r)
  | CallMul rhs => r <- mul this rhs ;; ret (Vector r)
  | CallMul2 lhs rhs => r <- mul2 this lhs rhs ;; ret (Vector r)
  | CallMulScalar s => r <- mulScalar this s ;; ret (Vector r)
  | CallNormalize => r <- normalize this ;; ret (Vector r)
  | CallSet x y z w => r <- set this x y z w ;; ret (Vector r)
  | CallSub rhs => r <- sub this rhs ;; ret (Vector r)
  | CallSub2 lhs rhs => r <- sub2 this lhs rhs ;; ret (Vector r)
  | CallSubScalar s => r <- subScalar this s ;; ret (Vector r)
  end.

(** The methods that write [this.x] first, whatever the values. *)
Definition writes (m : Method) : bool :=
  match m with
  | CallClone | CallDot _ | CallEquals _ | CallLength | CallLengthSq | CallNormalize => false
  | _ => true
  end.

(** The vectors a call reads besides [this]. *)
Definition operands (m : Method) : list Ref :=
  match m with
  | CallAdd r | CallCopy r | CallDiv r | CallDot r | CallEquals r | CallMul r | CallSub r => [r]
  | CallAdd2 l r | CallDiv2 l r | CallLerp l r _ | CallMul2 l r | CallSub2 l r => [l; r]
  | _ => []
  end.

End Sqrt.

(** The components of a vector, when the reference holds one. *)
Definition value (h : Heap) (r : Ref) : option Components :=
  option_map components (nth_error h r).

(** Componentwise application. *)
Definition pointwise (op : JS.number -> JS.number -> JS.number)
    (a b : Components) : Components :=
  mkComponents (op (x a) (x b)) (op (y a) (y b)) (op (z a) (z b)) (op (w a) (w b)).

(** What a call may have done to the heap: nothing is removed, and an
    object other than [this], or a frozen one, is as before. *)
Definition Preserves (this : Ref) (h h' : Heap) : Prop :=
  List.length h <= List.length h' /\
  forall r o, nth_error h r = Some o -> r <> this \/ frozen o = true ->
              nth_error h' r = Some o.

(** A computation with that property, whatever the heap. *)
Definition Frames {A} (this : Ref) (m : M A) : Prop :=
  forall h, Preserves this h (heap_of (m h)).

(** The value of [a.x * b.x + a.y * b.y + a.z * b.z + a.w * b.w]. *)
Definition dot_value (a b : Components) : JS.number :=
  plus (plus (plus (JS.mul (x a) (x b)) (JS.mul (y a) (y b)))
             (JS.mul (z a) (z b)))
       (JS.mul (w a) (w b)).

(** The value of [a === b], field by field. *)
Definition same_components (a b : Components) : bool :=
  strict_equal (x a) (x b) && strict_equal (y a) (y b)
  && strict_equal (z a) (z b) && strict_equal (w a) (w b).

Definition is_nan (n : JS.number) : bool :=
  match n with JS.NaN => true | _ => false end.

Definition has_nan (c : Components) : bool :=
  is_nan (x c) || is_nan (y c) || is_nan (z c) || is_nan (w c).

(** The vector whose four components are [k]. *)
Definition uniform (k : JS.number) : Components := mkComponents k k k k.

End Vec4.

(** ** What the loader reports to a preload batch *)
Module PreloadReports.

Import Preload PreloadTrace.

(** The item a report is about. *)
Definition item_of (ev : Settlement) : Item :=
  match ev with
  | AssetLoad i | AssetError i => AssetItem i
  | ScriptLoaded j _ => ScriptItem j
  end.

(** The asset at index [i] is not loaded when [preload] is called. *)
Definition is_pending (assets : list Asset) (i : nat) : bool :=
  negb (loaded (nth i assets {| name := EmptyString; loaded := false |})).

(** The items [preload] asks the loader for: the assets not loaded
    yet, and the scripts. *)
Definition awaited (assets : list Asset) (scripts : list string)
    (it : Item) : Prop :=
  match it with
  | AssetItem i => i < List.length assets /\ is_pending assets i = true
  | ScriptItem j => j < List.length scripts
  end.

(** The reports delivered while [preload] runs: those arriving during
    the load call of each asset not loaded yet, then those arriving
    during each script request. *)
Definition during (env : Loader) (assets : list Asset)
    (scripts : list string) : list Settlement :=
  flat_map (during_assets_load env) (pending_indices assets)
  ++ flat_map (during_loader_load env) (seq 0 (List.length scripts)).

(** All the reports of a run, in the order they are delivered. *)
Definition delivered (env : Loader) (assets : list Asset)
    (scripts : list string) (later : list Settlement) : list Settlement :=
  during env assets scripts ++ later.

(** Every item [preload] asked for has been reported, as loaded or as
    failed. *)
Definition all_reported (assets : list Asset) (scripts : list string)
    (reports : list Settlement) : Prop :=
  forall it, awaited assets scripts it -> In it (map item_of reports).

(** No item is reported twice. *)
Definition reported_once (reports : list Settlement) : Prop :=
  NoDup (map item_of reports).

(** While a load call runs, the loader reports on nothing but the item
    it is being asked for. *)
Definition answers_own (env : Loader) : Prop :=
  (forall i, Forall (fun ev => item_of ev = AssetItem i)
                    (during_assets_load env i)) /\
  (forall j, Forall (fun ev => item_of ev = ScriptItem j)
                    (during_loader_load env j)).

(** The link between the reports delivered so far ([seen], by item)
    and the state, when the first [regA] assets and the first [regS]
    scripts of the batch have been dealt with. *)
Record Tied (assets : list Asset) (scripts : list string)
    (regA regS : nat) (seen : list Item) (st : State) : Prop := {
  tied_listening :
    forall i, i < regA -> is_pending assets i = true ->
              ~ In (AssetItem i) seen ->
              In i (load_once st) /\ In i (error_once st);
  tied_load :
    forall i, In i (load_once st) -> i < regA /\ is_pending assets i = true;
  tied_error :
    forall i, In i (error_once st) -> i < regA /\ is_pending assets i = true;
  tied_callbacks : forall j, In j (loader_callbacks st) <-> j < regS;
  tied_assets :
    forall i, In i (settled_assets st) <->
              i < regA /\ (is_pending assets i = false \/ In (AssetItem i) seen);
  tied_scripts :
    forall j, In j (settled_scripts st) <-> j < regS /\ In (ScriptItem j) seen;
  tied_seen_assets :
    forall i, In (AssetItem i) seen -> i < regA \/ List.length assets <= i;
  tied_seen_scripts :
    forall j, In (ScriptItem j) seen -> j < regS \/ List.length scripts <= j;
  tied_assets_once : NoDup (settled_assets st);
  tied_scripts_once : NoDup (settled_scripts st)
}.

(** An item the batch has asked for already, or will never ask for. *)
Definition registered (assets : list Asset) (scripts : list string)
    (regA regS : nat) (it : Item) : Prop :=
  match it with
  | AssetItem i => i < regA \/ List.length assets <= i
  | ScriptItem j => j < regS \/ List.length scripts <= j
  end.

End PreloadReports.

(** * Proofs *)

(** ** Arithmetic on finite numbers *)
Module JSFacts.

Local Open Scope Q_scope.

Lemma fin_eq (x y : Q) : x == y -> JS.fin x = JS.fin y.
Proof. intros H. unfold JS.fin. f_equal. now apply Qred_complete. Qed.

Lemma nonzero_pos (q : Q) : 0 < q -> Qeq_bool q 0 = false.
Proof.
  intros Hq. destruct (Qeq_bool q 0) eqn:E; [|reflexivity].
  apply Qeq_bool_iff in E. lra.
Qed.

Lemma Qred_pos (q : Q) : 0 < q -> 0 < Qred q.
Proof. intros H. now rewrite Qred_correct. Qed.

Lemma Qdiv_pos (p q : Q) : 0 < p -> 0 < q -> 0 < p / q.
Proof. intros Hp Hq. apply Qlt_shift_div_l; [assumption | lra]. Qed.

Lemma div_pos (p q : Q) : 0 < q -> JS.div (JS.Fin p) (JS.Fin q) = JS.fin (p / q).
Proof. intros Hq. unfold JS.div. now rewrite nonzero_pos. Qed.

End JSFacts.


(** ** The preload batch *)
Module PreloadProofs.

Import Preload.

Lemma callbacks_emit e st :
  callbacks_invoked (emit e st) =
  callbacks_invoked st + (if is_callback e then 1 else 0).
Proof.
  unfold callbacks_invoked, emit; simpl.
  rewrite filter_app, length_app; simpl.
  destruct (is_callback e); reflexivity.
Qed.

(** A duplicate-free list of indices below [n] has at most [n]
    entries, and with [n] entries it holds every index below [n]. *)
Lemma bounded_nodup_length (l : list nat) n :
  NoDup l -> (forall i, In i l -> i < n) -> List.length l <= n.
Proof.
  intros Hnd Hlt.
  rewrite <- (length_seq n 0).
  apply NoDup_incl_length; [assumption|].
  intros i Hi. apply in_seq. specialize (Hlt i Hi). lia.
Qed.

Lemma bounded_nodup_full (l : list nat) n :
  NoDup l -> (forall i, In i l -> i < n) -> List.length l = n ->
  forall i, i < n -> In i l.
Proof.
  intros Hnd Hlt Hlen i Hi.
  assert (Hincl : incl l (seq 0 n)).
  { intros k Hk. apply in_seq. specialize (Hlt k Hk). lia. }
  apply (NoDup_length_incl (l' := seq 0 n) Hnd).
  - rewrite length_seq. lia.
  - assumption.
  - apply in_seq. lia.
Qed.

Lemma full_length (l : list nat) n :
  NoDup l -> (forall i, In i l -> i < n) -> (forall i, i < n -> In i l) ->
  List.length l = n.
Proof.
  intros Hnd Hlt Hall.
  apply Nat.le_antisymm.
  - now apply bounded_nodup_length.
  - rewrite <- (length_seq n 0) at 1.
    apply NoDup_incl_length; [apply seq_NoDup|].
    intros i Hi. apply in_seq in Hi. apply Hall. lia.
Qed.

Lemma mem_In i l : mem i l = true <-> In i l.
Proof.
  unfold mem. rewrite existsb_exists. split.
  - intros [k [Hk Heq]]. apply Nat.eqb_eq in Heq. now subst.
  - intros H. exists i. split; [assumption | apply Nat.eqb_refl].
Qed.

Lemma drop_In i k l : In k (drop i l) -> In k l.
Proof. unfold drop. intros H. apply filter_In in H. tauto. Qed.

Lemma drop_not_In i l : ~ In i (drop i l).
Proof.
  unfold drop. intros H. apply filter_In in H. destruct H as [_ H].
  rewrite Nat.eqb_refl in H. discriminate.
Qed.

Local Opaque Nat.eqb JS.div JS.of_nat.

Lemma asset_markers_snoc l e :
  asset_markers (l ++ [e]) =
  asset_markers l ++ match e with Settled (AssetItem i) => [i] | _ => [] end.
Proof.
  unfold asset_markers. rewrite flat_map_app. cbn. now rewrite app_nil_r.
Qed.

Lemma script_markers_snoc l e :
  script_markers (l ++ [e]) =
  script_markers l ++ match e with Settled (ScriptItem j) => [j] | _ => [] end.
Proof.
  unfold script_markers. rewrite flat_map_app. cbn. now rewrite app_nil_r.
Qed.

Lemma asset_markers_app l l' :
  asset_markers (l ++ l') = asset_markers l ++ asset_markers l'.
Proof. apply flat_map_app. Qed.

Lemma script_markers_app l l' :
  script_markers (l ++ l') = script_markers l ++ script_markers l'.
Proof. apply flat_map_app. Qed.

Lemma Flagged_done a s l :
  Flagged a s l ->
  (NoDup (asset_markers l) -> NoDup (script_markers l) -> covers a s l) ->
  Flagged a s ((l ++ [SetPreloading false]) ++ [Callback []]).
Proof. intros H Hc. rewrite <- app_assoc. now apply Flagged_callback. Qed.

Lemma Flagged_init a s : Flagged a s [SetPreloading true].
Proof.
  apply (Flagged_other a s [] (SetPreloading true) (Flagged_nil a s) eq_refl).
Qed.

Lemma Flagged_init_done :
  Flagged 0 0 [SetPreloading true; SetPreloading false; Callback []].
Proof.
  apply (Flagged_callback 0 0 [SetPreloading true] (Flagged_init 0 0)).
  intros _ _. split; intros k Hk; lia.
Qed.

(** Full trackers over duplicate-free settlements: everything has
    settled. *)
Lemma covers_full a s l :
  List.length (asset_markers l) = a -> List.length (script_markers l) = s ->
  (forall i, In i (asset_markers l) -> i < a) ->
  (forall j, In j (script_markers l) -> j < s) ->
  NoDup (asset_markers l) -> NoDup (script_markers l) -> covers a s l.
Proof.
  intros La Ls Ra Rs Na Ns. split; intros k Hk.
  - now apply (bounded_nodup_full _ a).
  - now apply (bounded_nodup_full _ s).
Qed.

Local Opaque asset_markers script_markers.

Ltac latch_close :=
  rewrite ?Nat.eqb_eq in *; intuition (try congruence; try lia).

(** Bring the markers of an extended trace to the form [old ++ new]. *)
Ltac markers :=
  unfold settled_assets, settled_scripts in *; cbn in *;
  rewrite ?asset_markers_snoc, ?script_markers_snoc in *; cbn in *;
  rewrite ?app_nil_r in *;
  try change (asset_markers [SetPreloading true]) with (@nil nat) in *;
  try change (script_markers [SetPreloading true]) with (@nil nat) in *;
  try change (asset_markers [SetPreloading true; SetPreloading false;
                             Callback []]) with (@nil nat) in *;
  try change (script_markers [SetPreloading true; SetPreloading false;
                              Callback []]) with (@nil nat) in *.

Ltac wf_fields :=
  constructor; markers;
  repeat rewrite filter_app; repeat rewrite length_app; cbn;
  try (intros k Hk; try apply in_app_or in Hk; cbn in Hk; intuition (subst; auto));
  try lia; try congruence; try (intros; auto; congruence);
  try (repeat first [ assumption
                    | apply Flagged_init
                    | apply Flagged_done
                    | apply Flagged_other; [|reflexivity] ]).

Ltac cover_close :=
  intros; apply covers_full; markers; rewrite ?length_app; cbn;
  try lia; try assumption;
  try (intros k Hk; try apply in_app_or in Hk; cbn in Hk;
       intuition (subst; auto)).

Lemma asset_settled_good a s i st :
  GoodFor a s st -> i < a -> GoodFor a s (asset_settled i st).
Proof.
  intros [[Hwf Hl] [Ha Hs]] Hi.
  destruct st as [[al ac] [sl sc] d t p lo eo cb ef].
  destruct Hwf as [H1 H2 H3 H4 H5 H6 H7 H8 H9 H10].
  unfold Latched, settled_once in Hl.
  unfold GoodFor, Good, Latched, settled_once, asset_settled, done,
    callbacks_invoked, Progress.done in *.
  markers. subst al sl.
  assert (Hfresh : NoDup (asset_markers ef ++ [i]) /\ NoDup (script_markers ef) ->
                   d = false /\ ac < a).
  { intros [Hn1 Hn2].
    assert (Hle : List.length (asset_markers ef ++ [i]) <= a).
    { apply bounded_nodup_length; [assumption|].
      intros k Hk. apply in_app_or in Hk.
      destruct Hk as [Hk | [Hk | []]]; subst; auto. }
    rewrite length_app in Hle; cbn in Hle.
    split; [|lia].
    destruct d; [|reflexivity].
    destruct Hl as [Hl _];
      [split; [eapply NoDup_app_remove_r; eassumption | assumption]|].
    destruct (Hl eq_refl) as [Hl' _]. apply Nat.eqb_eq in Hl'. lia. }
  destruct (Nat.eqb_spec (S ac) a) as [Hfull|Hnot]; cbn.
  - destruct d; cbn.
    + split; [split|auto].
      * wf_fields.
      * markers. intros Hnd. destruct (Hfresh Hnd). discriminate.
    + destruct (Nat.eqb_spec sc s); cbn.
      * split; [split|auto].
        -- wf_fields. cover_close.
        -- intros _. latch_close.
      * split; [split|auto].
        -- wf_fields.
        -- intros _. latch_close.
  - split; [split|auto].
    + wf_fields.
    + markers. intros Hnd. destruct (Hfresh Hnd) as [-> _]. latch_close.
Qed.

Lemma script_callback_good a s j err st :
  GoodFor a s st -> j < s -> GoodFor a s (script_callback j err st).
Proof.
  intros [[Hwf Hl] [Ha Hs]] Hi.
  destruct st as [[al ac] [sl sc] d t p lo eo cb ef].
  destruct Hwf as [H1 H2 H3 H4 H5 H6 H7 H8 H9 H10].
  unfold Latched, settled_once in Hl.
  unfold GoodFor, Good, Latched, settled_once, script_callback, done,
    callbacks_invoked, Progress.done in *.
  markers. subst al sl.
  assert (Hfresh : NoDup (asset_markers ef) /\ NoDup (script_markers ef ++ [j]) ->
                   d = false /\ sc < s).
  { intros [Hn1 Hn2].
    assert (Hle : List.length (script_markers ef ++ [j]) <= s).
    { apply bounded_nodup_length; [assumption|].
      intros k Hk. apply in_app_or in Hk.
      destruct Hk as [Hk | [Hk | []]]; subst; auto. }
    rewrite length_app in Hle; cbn in Hle.
    split; [|lia].
    destruct d; [|reflexivity].
    destruct Hl as [Hl _];
      [split; [assumption | eapply NoDup_app_remove_r; eassumption]|].
    destruct (Hl eq_refl) as [_ Hl']. apply Nat.eqb_eq in Hl'. lia. }
  destruct err as [e|]; cbn.
  all: destruct (Nat.eqb_spec (S sc) s) as [Hfull|Hnot]; cbn.
  all: try (destruct d; cbn; [|destruct (Nat.eqb_spec ac a); cbn]).
  all: (split; [split|auto]); [wf_fields; try cover_close | markers].
  all: intros Hnd; try (destruct (Hfresh Hnd) as [Hd _]; try discriminate; try subst d).
  all: latch_close.
Qed.

Lemma done_good a s st : GoodFor a s st -> GoodFor a s (done st).
Proof.
  intros [[Hwf Hl] [Ha Hs]].
  destruct st as [[al ac] [sl sc] d t p lo eo cb ef].
  destruct Hwf as [H1 H2 H3 H4 H5 H6 H7 H8 H9 H10].
  unfold GoodFor, Good, Latched, settled_once, done, callbacks_invoked,
    Progress.done in *.
  markers. subst al sl.
  destruct d; cbn.
  - split; [split|auto]; [wf_fields | assumption].
  - destruct (Nat.eqb_spec ac a); cbn; [destruct (Nat.eqb_spec sc s); cbn|].
    all: (split; [split|auto]);
      [wf_fields; try cover_close
      | markers; intros Hnd; specialize (Hl Hnd); latch_close].
Qed.

Lemma listeners_good a s ls es cs st :
  GoodFor a s st ->
  (forall i, In i ls -> i < a) -> (forall i, In i es -> i < a) ->
  (forall j, In j cs -> j < s) ->
  GoodFor a s (set_listeners ls es cs st).
Proof.
  intros [[Hwf Hl] [Ha Hs]] Hls Hes Hcs.
  destruct Hwf as [H1 H2 H3 H4 H5 H6 H7 H8 H9 H10].
  split; [split|auto]; [|exact Hl].
  constructor; cbn; try assumption; subst; assumption.
Qed.

Lemma emit_good a s e st :
  is_callback e = false -> (forall it, e <> Settled it) ->
  GoodFor a s st -> GoodFor a s (emit e st).
Proof.
  intros He Hm [[Hwf Hl] [Ha Hs]].
  destruct Hwf as [H1 H2 H3 H4 H5 H6 H7 H8 H9 H10].
  assert (Ea : settled_assets (emit e st) = settled_assets st).
  { unfold settled_assets; cbn. rewrite asset_markers_snoc.
    destruct e; try apply app_nil_r. exfalso. now apply (Hm item). }
  assert (Es : settled_scripts (emit e st) = settled_scripts st).
  { unfold settled_scripts; cbn. rewrite script_markers_snoc.
    destruct e; try apply app_nil_r. exfalso. now apply (Hm item). }
  split; [split|auto].
  - constructor; rewrite ?Ea, ?Es; try assumption.
    + rewrite callbacks_emit, He. cbn in *. lia.
    + cbn. now apply Flagged_other.
  - unfold settled_once. rewrite Ea, Es. exact Hl.
Qed.

Lemma deliver_good a s st ev : GoodFor a s st -> GoodFor a s (deliver st ev).
Proof.
  intros Hg.
  assert (Hwf : Wf st) by apply Hg.
  assert (Ha : Progress.length (_assets st) = a) by apply Hg.
  assert (Hs : Progress.length (_scripts st) = s) by apply Hg.
  destruct ev as [i | i | j err]; cbn.
  - destruct (mem i (load_once st)) eqn:Hm; [|assumption].
    apply mem_In in Hm.
    apply asset_settled_good.
    + apply listeners_good; [assumption|..]; rewrite <- ?Ha, <- ?Hs.
      * intros k Hk. apply drop_In in Hk. now apply wf_load_once.
      * apply wf_error_once; assumption.
      * apply wf_callbacks; assumption.
    + rewrite <- Ha. now apply wf_load_once.
  - destruct (mem i (error_once st)) eqn:Hm; [|assumption].
    apply mem_In in Hm.
    apply asset_settled_good.
    + apply listeners_good; [assumption|..]; rewrite <- ?Ha, <- ?Hs.
      * apply wf_load_once; assumption.
      * intros k Hk. apply drop_In in Hk. now apply wf_error_once.
      * apply wf_callbacks; assumption.
    + rewrite <- Ha. now apply wf_error_once.
  - destruct (mem j (loader_callbacks st)) eqn:Hm; [|assumption].
    apply mem_In in Hm.
    apply script_callback_good; [assumption|].
    rewrite <- Hs. now apply wf_callbacks.
Qed.

Lemma deliver_all_good a s evs : forall st,
  GoodFor a s st -> GoodFor a s (deliver_all evs st).
Proof.
  induction evs as [|ev evs IH]; intros st Hg; cbn; [assumption|].
  apply IH. now apply deliver_good.
Qed.

Section Batch.

Variable env : Loader.
Variable assets : list Asset.
Variable scripts : list string.
Variable scriptPrefix : string.

Let a := List.length assets.
Let s := List.length scripts.

Lemma asset_step_good st i :
  GoodFor a s st -> i < a -> GoodFor a s (asset_step env assets st i).
Proof.
  intros Hg Hi. unfold asset_step.
  assert (Hwf : Wf st) by apply Hg.
  assert (Ha : Progress.length (_assets st) = a) by apply Hg.
  assert (Hs : Progress.length (_scripts st) = s) by apply Hg.
  destruct (loaded _).
  - now apply asset_settled_good.
  - apply deliver_all_good, emit_good; [reflexivity | discriminate |].
    apply listeners_good; [assumption|..]; rewrite <- ?Ha, <- ?Hs.
    + intros k Hk. apply in_app_or in Hk. destruct Hk as [Hk|[Hk|[]]].
      * now apply wf_load_once.
      * subst k. now rewrite Ha.
    + intros k Hk. apply in_app_or in Hk. destruct Hk as [Hk|[Hk|[]]].
      * now apply wf_error_once.
      * subst k. now rewrite Ha.
    + apply wf_callbacks; assumption.
Qed.

Lemma script_step_good st j :
  GoodFor a s st -> j < s -> GoodFor a s (script_step env scripts scriptPrefix st j).
Proof.
  intros Hg Hj. unfold script_step.
  assert (Hwf : Wf st) by apply Hg.
  assert (Ha : Progress.length (_assets st) = a) by apply Hg.
  assert (Hs : Progress.length (_scripts st) = s) by apply Hg.
  apply deliver_all_good, emit_good; [reflexivity | discriminate |].
  apply listeners_good; [assumption|..]; rewrite <- ?Ha, <- ?Hs.
  - apply wf_load_once; assumption.
  - apply wf_error_once; assumption.
  - intros k Hk. apply in_app_or in Hk. destruct Hk as [Hk|[Hk|[]]].
    + now apply wf_callbacks.
    + subst k. now rewrite Hs.
Qed.

Lemma loop_good (step : State -> nat -> State) n :
  (forall st i, GoodFor a s st -> i < n -> GoodFor a s (step st i)) ->
  forall k st, k <= n -> GoodFor a s st ->
  GoodFor a s (fold_left step (seq (n - k) k) st).
Proof.
  intros Hstep. induction k as [|k IH]; intros st Hk Hg; cbn; [assumption|].
  replace (S (n - S k)) with (n - k) by lia.
  apply IH; [lia|]. apply Hstep; [assumption | lia].
Qed.

Lemma assets_phase_good :
  GoodFor a s (assets_phase env assets (init assets scripts)).
Proof.
  unfold assets_phase. cbn [init _assets Progress.length].
  destruct (Nat.eqb_spec (List.length assets) 0) as [Hz|Hnz].
  - unfold GoodFor, Good, Latched, settled_once, done, callbacks_invoked, Progress.done.
    cbn. rewrite Hz, Nat.eqb_refl. cbn.
    destruct (Nat.eqb_spec 0 (List.length scripts)) as [Hs|Hs]; cbn.
    all: (split; [split|subst a s; auto]);
      [wf_fields; try (rewrite Hz, <- Hs; apply Flagged_init_done)
      | intros _; latch_close].
  - replace (seq 0 (List.length assets))
      with (seq (List.length assets - List.length assets) (List.length assets))
      by (now rewrite Nat.sub_diag).
    apply loop_good; [apply asset_step_good | reflexivity |].
    unfold GoodFor, Good, Latched, settled_once, callbacks_invoked, Progress.done.
    cbn. split; [split|auto]; [wf_fields|].
    intros _. split; [discriminate|]. intros [H _]. apply Nat.eqb_eq in H. lia.
Qed.

Lemma scripts_phase_good st :
  GoodFor a s st -> GoodFor a s (scripts_phase env scripts scriptPrefix st).
Proof.
  intros Hg. unfold scripts_phase.
  assert (Hs : Progress.length (_scripts st) = s) by apply Hg.
  rewrite Hs.
  destruct (Nat.eqb_spec s 0) as [Hz|Hnz].
  - now apply done_good.
  - replace (seq 0 s) with (seq (s - s) s) by (now rewrite Nat.sub_diag).
    apply loop_good; [apply script_step_good | reflexivity | assumption].
Qed.

Lemma preload_good : GoodFor a s (preload env assets scripts scriptPrefix).
Proof. apply scripts_phase_good, assets_phase_good. Qed.

Lemma run_good later : GoodFor a s (run env assets scripts scriptPrefix later).
Proof. apply deliver_all_good, preload_good. Qed.

End Batch.

(** Where [callback] is called in a flagged trace. *)
Lemma Flagged_preceded a s l :
  Flagged a s l ->
  forall pre args post, l = pre ++ Callback args :: post ->
  args = [] /\ (exists pre', pre = pre' ++ [SetPreloading false]) /\
  (NoDup (asset_markers l) -> NoDup (script_markers l) -> covers a s pre).
Proof.
  induction 1 as [|l e Hl IH He|l Hl IH Hc]; intros pre args post Heq.
  - destruct pre; discriminate.
  - destruct post as [|x post _] using rev_ind.
    + apply app_inj_tail in Heq. destruct Heq as [_ Heq]. subst e. discriminate.
    + change (pre ++ Callback args :: post ++ [x])
        with (pre ++ (Callback args :: post) ++ [x]) in Heq.
      rewrite app_assoc in Heq. apply app_inj_tail in Heq.
      destruct Heq as [Heq _].
      destruct (IH _ _ _ Heq) as (I1 & I2 & I3).
      split; [exact I1|]. split; [exact I2|].
      rewrite asset_markers_app, script_markers_app. intros Na Ns.
      apply I3; eapply NoDup_app_remove_r; eassumption.
  - assert (Hm : forall pre' : list Effect,
              NoDup (asset_markers (l ++ [SetPreloading false; Callback []])) ->
              NoDup (script_markers (l ++ [SetPreloading false; Callback []])) ->
              NoDup (asset_markers l) /\ NoDup (script_markers l)).
    { intros _. rewrite asset_markers_app, script_markers_app. intros Na Ns.
      split; eapply NoDup_app_remove_r; eassumption. }
    destruct post as [|x post _] using rev_ind.
    + change (l ++ [SetPreloading false; Callback []])
        with (l ++ [SetPreloading false] ++ [Callback []]) in Heq.
      rewrite app_assoc in Heq. apply app_inj_tail in Heq.
      destruct Heq as [Heq Hcb]. injection Hcb as <-.
      split; [reflexivity|]. split; [exists l; now symmetry|].
      intros Na Ns. destruct (Hm l Na Ns) as [Na' Ns'].
      subst pre. destruct (Hc Na' Ns') as [Ca Cs].
      split; intros k Hk.
      * rewrite asset_markers_snoc, app_nil_r. now apply Ca.
      * rewrite script_markers_snoc, app_nil_r. now apply Cs.
    + destruct post as [|y post _] using rev_ind.
      * change (l ++ [SetPreloading false; Callback []])
          with (l ++ [SetPreloading false] ++ [Callback []]) in Heq.
        change (pre ++ Callback args :: [] ++ [x])
          with (pre ++ [Callback args] ++ [x]) in Heq.
        rewrite !app_assoc in Heq. apply app_inj_tail in Heq.
        destruct Heq as [Heq _]. apply app_inj_tail in Heq.
        destruct Heq as [_ Heq]. discriminate.
      * change (l ++ [SetPreloading false; Callback []])
          with (l ++ [SetPreloading false] ++ [Callback []]) in Heq.
        replace (pre ++ Callback args :: (post ++ [y]) ++ [x])
          with (((pre ++ Callback args :: post) ++ [y]) ++ [x]) in Heq
          by (now rewrite <- !app_assoc).
        rewrite !app_assoc in Heq. apply app_inj_tail in Heq.
        destruct Heq as [Heq _]. apply app_inj_tail in Heq.
        destruct Heq as [Heq _].
        destruct (IH _ _ _ Heq) as (I1 & I2 & I3).
        split; [exact I1|]. split; [exact I2|].
        intros Na Ns. destruct (Hm l Na Ns) as [Na' Ns']. now apply I3.
Qed.

Section Claims.

Variable env : Loader.
Variable assets : list Asset.
Variable scripts : list string.
Variable scriptPrefix : string.

Lemma settled_iff_latched st :
  GoodFor (List.length assets) (List.length scripts) st ->
  settled_once st ->
  (callbacks_invoked st = 1 <-> all_settled assets scripts st).
Proof.
  intros [[Hwf Hl] [Ha Hs]] Hnd. specialize (Hl Hnd).
  destruct Hnd as [Hna Hns].
  destruct Hwf as [H1 H2 H3 H4 H5 H6 H7 H8 H9 H10].
  unfold Latched, Progress.done, all_settled in *.
  rewrite !Nat.eqb_eq in Hl. rewrite H8, H1, H2, Ha, Hs in *.
  split.
  - intros Hcb. destruct (_done st); [|discriminate].
    destruct Hl as [Hl _]. destruct (Hl eq_refl) as [Hfa Hfs].
    split; intros k Hk.
    + eapply bounded_nodup_full; eauto. 
    + eapply bounded_nodup_full; eauto.
  - intros [Hall_a Hall_s].
    destruct Hl as [_ Hl]. rewrite Hl; [reflexivity|].
    split; apply full_length; auto.
Qed.

Lemma latch_at_most_once st :
  GoodFor (List.length assets) (List.length scripts) st ->
  callbacks_invoked st <= 1.
Proof.
  intros [[Hwf _] _]. rewrite (wf_latch _ Hwf). destruct (_done st); lia.
Qed.

End Claims.

Lemma fractions_emit e st :
  fractions (emit e st) =
  fractions st ++ match e with FireProgress f => [f] | _ => [] end.
Proof.
  unfold fractions, emit; cbn. rewrite flat_map_app; cbn.
  now rewrite app_nil_r.
Qed.

Lemma fractions_done st : fractions (done st) = fractions st.
Proof.
  unfold done. destruct (_ && _); [|reflexivity].
  rewrite !fractions_emit. cbn. now rewrite !app_nil_r.
Qed.

Lemma logs_done st :
  filter is_log (effects (done st)) = filter is_log (effects st).
Proof.
  unfold done. destruct (_ && _); [|reflexivity].
  cbn. rewrite !filter_app; cbn. now rewrite !app_nil_r.
Qed.

Lemma effects_done st e : In e (effects st) -> In e (effects (done st)).
Proof.
  unfold done. destruct (_ && _); [|auto].
  cbn. intros H. apply in_or_app. left. apply in_or_app. now left.
Qed.

Lemma settled_done st :
  settled_assets (done st) = settled_assets st /\
  settled_scripts (done st) = settled_scripts st /\
  _assets (done st) = _assets st /\ _scripts (done st) = _scripts st /\
  total (done st) = total st.
Proof.
  unfold done, settled_assets, settled_scripts.
  destruct (_ && _); cbn;
    rewrite ?asset_markers_snoc, ?script_markers_snoc; cbn;
    rewrite ?app_nil_r; auto.
Qed.

(** C3.  The callback of a script request never fires
    ["preload:progress"]: the reported fractions are the same before
    and after it.  With one asset and one script, the asset settling
    first, the batch completes and the only fraction ever reported is
    1/2. *)
Theorem preload_script_settlement_reports_no_progress :
  (forall j err st, fractions (script_callback j err st) = fractions st) /\
  (let final := run asynchronous [pending "m"] ["s.js"%string] EmptyString
                    [AssetLoad 0; ScriptLoaded 0 None] in
   callbacks_invoked final = 1 /\ fractions final = [JS.Fin (1 # 2)]).
Proof.
  split.
  - intros j err st. unfold script_callback.
    assert (H : forall st', fractions (inc_scripts j st') = fractions st').
    { intros st'. unfold fractions, inc_scripts; cbn.
      rewrite flat_map_app. apply app_nil_r. }
    destruct err; destruct (Progress.done _);
      rewrite ?fractions_done, H, fractions_emit; cbn; apply app_nil_r.
  - split; reflexivity.
Qed.

End PreloadProofs.

(** ** Reports and settlements *)
Module PreloadReportsProofs.

Import Preload PreloadProofs PreloadTrace PreloadReports.

Local Opaque Nat.eqb JS.div JS.of_nat.

Lemma done_listeners st :
  load_once (done st) = load_once st /\
  error_once (done st) = error_once st /\
  loader_callbacks (done st) = loader_callbacks st.
Proof. unfold done. destruct (_ && _); auto. Qed.

Lemma asset_settled_fields i st :
  load_once (asset_settled i st) = load_once st /\
  error_once (asset_settled i st) = error_once st /\
  loader_callbacks (asset_settled i st) = loader_callbacks st /\
  settled_assets (asset_settled i st) = settled_assets st ++ [i] /\
  settled_scripts (asset_settled i st) = settled_scripts st.
Proof.
  unfold asset_settled.
  set (st1 := emit _ (inc_assets i st)).
  assert (H : load_once st1 = load_once st /\
              error_once st1 = error_once st /\
              loader_callbacks st1 = loader_callbacks st /\
              settled_assets st1 = settled_assets st ++ [i] /\
              settled_scripts st1 = settled_scripts st).
  { unfold st1, settled_assets, settled_scripts; cbn.
    rewrite !asset_markers_snoc, !script_markers_snoc; cbn.
    rewrite !app_nil_r. auto. }
  destruct (Progress.done (_assets st1)); [|exact H].
  destruct (done_listeners st1) as (-> & -> & ->).
  destruct (settled_done st1) as (-> & -> & _). exact H.
Qed.

Lemma script_callback_fields j err st :
  load_once (script_callback j err st) = load_once st /\
  error_once (script_callback j err st) = error_once st /\
  loader_callbacks (script_callback j err st) = loader_callbacks st /\
  settled_assets (script_callback j err st) = settled_assets st /\
  settled_scripts (script_callback j err st) = settled_scripts st ++ [j].
Proof.
  unfold script_callback.
  set (st1 := inc_scripts j _).
  assert (H : load_once st1 = load_once st /\
              error_once st1 = error_once st /\
              loader_callbacks st1 = loader_callbacks st /\
              settled_assets st1 = settled_assets st /\
              settled_scripts st1 = settled_scripts st ++ [j]).
  { unfold st1, settled_assets, settled_scripts. destruct err; cbn;
      rewrite !asset_markers_snoc, !script_markers_snoc; cbn;
      rewrite !app_nil_r; auto. }
  destruct (Progress.done (_scripts st1)); [|exact H].
  destruct (done_listeners st1) as (-> & -> & ->).
  destruct (settled_done st1) as (-> & -> & _). exact H.
Qed.

Lemma In_drop i k l : In k l -> k <> i -> In k (drop i l).
Proof.
  intros Hin Hne. unfold drop. apply filter_In. split; [assumption|].
  apply negb_true_iff. apply Nat.eqb_neq. assumption.
Qed.

Lemma NoDup_snoc {A} (l : list A) (x : A) :
  NoDup l -> ~ In x l -> NoDup (l ++ [x]).
Proof.
  intros Hl Hx. apply NoDup_app; [assumption | repeat constructor; intros [] |].
  intros y Hy [<-|[]]. contradiction.
Qed.

Section Batch.

Variable assets : list Asset.
Variable scripts : list string.

Let a := List.length assets.
Let s := List.length scripts.

(** One report, about an item not reported before. *)
Lemma deliver_tied regA regS seen st ev :
  Tied assets scripts regA regS seen st ->
  ~ In (item_of ev) seen ->
  registered assets scripts regA regS (item_of ev) ->
  Tied assets scripts regA regS (seen ++ [item_of ev]) (deliver st ev).
Proof.
  intros [T1 T2 T3 T4 T5 T6 T7 T8 T9 T10] Hnew Hreg.
  destruct ev as [i | i | j err]; cbn [deliver item_of] in *.
  - destruct (mem i (load_once st)) eqn:Hm.
    + apply mem_In in Hm. destruct (T2 i Hm) as [Hi Hp].
      set (st0 := set_listeners _ _ _ st).
      destruct (asset_settled_fields i st0) as (L & E & C & A & S).
      constructor; rewrite ?L, ?E, ?C, ?A, ?S; cbn [st0 set_listeners
        load_once error_once loader_callbacks];
        change (settled_assets st0) with (settled_assets st);
        change (settled_scripts st0) with (settled_scripts st).
      * intros k Hk Hpk Hns. rewrite in_app_iff in Hns. cbn in Hns.
        assert (Hne : k <> i) by (intros ->; tauto).
        destruct (T1 k Hk Hpk) as [H1 H2]; [tauto|].
        split; [now apply In_drop | assumption].
      * intros k Hk. apply drop_In in Hk. now apply T2.
      * exact T3.
      * exact T4.
      * intros k. rewrite !in_app_iff, T5. cbn. split.
        -- intros [[Hk [Hc | Hs]] | [<- | []]]; auto.
        -- intros [Hk [Hc | [Hs | [Hs | []]]]]; auto.
           injection Hs as <-. auto.
      * intros k. rewrite T6, in_app_iff. cbn. split.
        -- intros [Hk Hs]. auto.
        -- intros [Hk [Hs | [Hs | []]]]; [auto | discriminate].
      * intros k Hk. apply in_app_or in Hk. destruct Hk as [Hk | [Hk | []]];
          [now apply T7 | injection Hk as <-; auto].
      * intros k Hk. apply in_app_or in Hk. destruct Hk as [Hk | [Hk | []]];
          [now apply T8 | discriminate].
      * apply NoDup_snoc; [assumption|]. intros Hin. apply T5 in Hin.
        destruct Hin as [_ [Hc | Hs]]; [congruence | contradiction].
      * exact T10.
    + assert (Hnm : ~ In i (load_once st))
        by (intros H; apply mem_In in H; congruence).
      constructor; try assumption.
      * intros k Hk Hpk Hns. apply T1; try assumption.
        intros H. apply Hns, in_or_app. now left.
      * intros k. rewrite T5, in_app_iff. cbn. split.
        -- intros [Hk [Hc | Hs]]; auto.
        -- intros [Hk [Hc | [Hs | [Hs | []]]]]; auto.
           injection Hs as Heq. subst i.
           destruct (is_pending assets k) eqn:Hp; [|auto].
           destruct (T1 k Hk Hp Hnew). contradiction.
      * intros k. rewrite T6, in_app_iff. cbn. split.
        -- intros [Hk Hs]. auto.
        -- intros [Hk [Hs | [Hs | []]]]; [auto | discriminate].
      * intros k Hk. apply in_app_or in Hk. destruct Hk as [Hk | [Hk | []]];
          [now apply T7 | injection Hk as <-; exact Hreg].
      * intros k Hk. apply in_app_or in Hk. destruct Hk as [Hk | [Hk | []]];
          [now apply T8 | discriminate].
  - destruct (mem i (error_once st)) eqn:Hm.
    + apply mem_In in Hm. destruct (T3 i Hm) as [Hi Hp].
      set (st0 := set_listeners _ _ _ st).
      destruct (asset_settled_fields i st0) as (L & E & C & A & S).
      constructor; rewrite ?L, ?E, ?C, ?A, ?S; cbn [st0 set_listeners
        load_once error_once loader_callbacks];
        change (settled_assets st0) with (settled_assets st);
        change (settled_scripts st0) with (settled_scripts st).
      * intros k Hk Hpk Hns. rewrite in_app_iff in Hns. cbn in Hns.
        assert (Hne : k <> i) by (intros ->; tauto).
        destruct (T1 k Hk Hpk) as [H1 H2]; [tauto|].
        split; [assumption | now apply In_drop].
      * exact T2.
      * intros k Hk. apply drop_In in Hk. now apply T3.
      * exact T4.
      * intros k. rewrite !in_app_iff, T5. cbn. split.
        -- intros [[Hk [Hc | Hs]] | [<- | []]]; auto.
        -- intros [Hk [Hc | [Hs | [Hs | []]]]]; auto.
           injection Hs as <-. auto.
      * intros k. rewrite T6, in_app_iff. cbn. split.
        -- intros [Hk Hs]. auto.
        -- intros [Hk [Hs | [Hs | []]]]; [auto | discriminate].
      * intros k Hk. apply in_app_or in Hk. destruct Hk as [Hk | [Hk | []]];
          [now apply T7 | injection Hk as <-; auto].
      * intros k Hk. apply in_app_or in Hk. destruct Hk as [Hk | [Hk | []]];
          [now apply T8 | discriminate].
      * apply NoDup_snoc; [assumption|]. intros Hin. apply T5 in Hin.
        destruct Hin as [_ [Hc | Hs]]; [congruence | contradiction].
      * exact T10.
    + assert (Hnm : ~ In i (error_once st))
        by (intros H; apply mem_In in H; congruence).
      constructor; try assumption.
      * intros k Hk Hpk Hns. apply T1; try assumption.
        intros H. apply Hns, in_or_app. now left.
      * intros k. rewrite T5, in_app_iff. cbn. split.
        -- intros [Hk [Hc | Hs]]; auto.
        -- intros [Hk [Hc | [Hs | [Hs | []]]]]; auto.
           injection Hs as Heq. subst i.
           destruct (is_pending assets k) eqn:Hp; [|auto].
           destruct (T1 k Hk Hp Hnew). contradiction.
      * intros k. rewrite T6, in_app_iff. cbn. split.
        -- intros [Hk Hs]. auto.
        -- intros [Hk [Hs | [Hs | []]]]; [auto | discriminate].
      * intros k Hk. apply in_app_or in Hk. destruct Hk as [Hk | [Hk | []]];
          [now apply T7 | injection Hk as <-; exact Hreg].
      * intros k Hk. apply in_app_or in Hk. destruct Hk as [Hk | [Hk | []]];
          [now apply T8 | discriminate].
  - destruct (mem j (loader_callbacks st)) eqn:Hm.
    + apply mem_In in Hm. pose proof (proj1 (T4 j) Hm) as Hj.
      destruct (script_callback_fields j err st) as (L & E & C & A & S).
      constructor; rewrite ?L, ?E, ?C, ?A, ?S.
      * intros k Hk Hpk Hns. apply T1; try assumption.
        intros H. apply Hns, in_or_app. now left.
      * exact T2.
      * exact T3.
      * exact T4.
      * intros k. rewrite T5, in_app_iff. cbn. split.
        -- intros [Hk [Hc | Hs]]; auto.
        -- intros [Hk [Hc | [Hs | [Hs | []]]]]; auto. discriminate.
      * intros k. rewrite !in_app_iff, T6. cbn. split.
        -- intros [[Hk Hs] | [<- | []]]; auto.
        -- intros [Hk [Hs | [Hs | []]]]; auto. injection Hs as <-. auto.
      * intros k Hk. apply in_app_or in Hk. destruct Hk as [Hk | [Hk | []]];
          [now apply T7 | discriminate].
      * intros k Hk. apply in_app_or in Hk. destruct Hk as [Hk | [Hk | []]];
          [now apply T8 | injection Hk as <-; auto].
      * exact T9.
      * apply NoDup_snoc; [assumption|]. intros Hin. apply T6 in Hin.
        destruct Hin as [_ Hs]. contradiction.
    + assert (Hnm : ~ j < regS).
      { intros H. apply T4 in H. apply mem_In in H. congruence. }
      constructor; try assumption.
      * intros k Hk Hpk Hns. apply T1; try assumption.
        intros H. apply Hns, in_or_app. now left.
      * intros k. rewrite T5, in_app_iff. cbn. split.
        -- intros [Hk [Hc | Hs]]; auto.
        -- intros [Hk [Hc | [Hs | [Hs | []]]]]; auto. discriminate.
      * intros k. rewrite T6, in_app_iff. cbn. split.
        -- intros [Hk Hs]. auto.
        -- intros [Hk [Hs | [Hs | []]]]; auto. injection Hs as <-.
           contradiction.
      * intros k Hk. apply in_app_or in Hk. destruct Hk as [Hk | [Hk | []]];
          [now apply T7 | discriminate].
      * intros k Hk. apply in_app_or in Hk. destruct Hk as [Hk | [Hk | []]];
          [now apply T8 | injection Hk as <-; exact Hreg].
Qed.

Lemma deliver_all_tied regA regS evs : forall seen st,
  Tied assets scripts regA regS seen st ->
  NoDup (seen ++ map item_of evs) ->
  Forall (registered assets scripts regA regS) (map item_of evs) ->
  Tied assets scripts regA regS (seen ++ map item_of evs) (deliver_all evs st).
Proof.
  induction evs as [|ev evs IH]; intros seen st Ht Hnd Hreg; cbn [map].
  - now rewrite app_nil_r.
  - inversion Hreg as [|? ? Hev Hrest]; subst.
    change (deliver_all (ev :: evs) st) with (deliver_all evs (deliver st ev)).
    replace (seen ++ item_of ev :: map item_of evs)
      with ((seen ++ [item_of ev]) ++ map item_of evs)
      by now rewrite <- app_assoc.
    apply IH; [|now rewrite <- app_assoc | assumption].
    apply deliver_tied; [assumption | | assumption].
    cbn [map] in Hnd. apply NoDup_remove_2 in Hnd.
    intros H. apply Hnd, in_or_app. now left.
Qed.

Lemma done_tied regA regS seen st :
  Tied assets scripts regA regS seen st ->
  Tied assets scripts regA regS seen (done st).
Proof.
  intros [T1 T2 T3 T4 T5 T6 T7 T8 T9 T10].
  destruct (done_listeners st) as (L & E & C).
  destruct (settled_done st) as (A & S & _).
  constructor; rewrite ?L, ?E, ?C, ?A, ?S; assumption.
Qed.

Lemma init_tied : Tied assets scripts 0 0 [] (init assets scripts).
Proof.
  constructor; cbn; try (intros; lia); try tauto; try constructor;
    intros; try split; intros; try tauto; try lia;
    repeat match goal with H : _ /\ _ |- _ => destruct H end; lia.
Qed.

Section Loader.

Variable env : Loader.
Variable scriptPrefix : string.

Hypothesis own : answers_own env.

(** The reports that arrive during the load call of one asset. *)
Let answers (i : nat) : list Settlement :=
  if is_pending assets i then during_assets_load env i else [].

Lemma asset_step_tied regS seen st i :
  Tied assets scripts i regS seen st -> i < a ->
  NoDup (seen ++ map item_of (answers i)) ->
  Tied assets scripts (S i) regS (seen ++ map item_of (answers i))
       (asset_step env assets st i).
Proof.
  intros Ht Hi Hnd. unfold asset_step, answers in *.
  unfold is_pending in *.
  destruct (loaded (nth i assets _)) eqn:Hl; cbn [negb] in *.
  - rewrite app_nil_r.
    destruct Ht as [T1 T2 T3 T4 T5 T6 T7 T8 T9 T10].
    destruct (asset_settled_fields i st) as (L & E & C & A & S).
    constructor; rewrite ?L, ?E, ?C, ?A, ?S.
    + intros k Hk Hpk Hns. apply T1; try assumption.
      destruct (Nat.eq_dec k i) as [->|Hne]; [|lia].
      unfold is_pending in Hpk. rewrite Hl in Hpk. discriminate.
    + intros k Hk. destruct (T2 k Hk). split; [lia | assumption].
    + intros k Hk. destruct (T3 k Hk). split; [lia | assumption].
    + exact T4.
    + intros k. rewrite in_app_iff, T5. cbn. split.
      * intros [[Hk Hc] | [<- | []]]; [split; [lia | assumption]|].
        split; [lia|]. left. unfold is_pending. now rewrite Hl.
      * intros [Hk Hc]. destruct (Nat.eq_dec k i) as [->|Hne]; [auto|].
        left. split; [lia | assumption].
    + exact T6.
    + intros k Hk. destruct (T7 k Hk); [left; lia | now right].
    + exact T8.
    + apply NoDup_snoc; [assumption|]. intros Hin. apply T5 in Hin. lia.
    + exact T10.
  - set (st1 := emit (AssetsLoad i) _).
    assert (Ht1 : Tied assets scripts (S i) regS seen st1).
    { destruct Ht as [T1 T2 T3 T4 T5 T6 T7 T8 T9 T10].
      assert (A : settled_assets st1 = settled_assets st).
      { unfold st1, settled_assets; cbn. rewrite asset_markers_snoc; cbn.
        apply app_nil_r. }
      assert (S : settled_scripts st1 = settled_scripts st).
      { unfold st1, settled_scripts; cbn. rewrite script_markers_snoc; cbn.
        apply app_nil_r. }
      constructor; rewrite ?A, ?S; cbn [st1 emit set_listeners load_once
        error_once loader_callbacks].
      - intros k Hk Hpk Hns. rewrite !in_app_iff. cbn.
        destruct (Nat.eq_dec k i) as [->|Hne]; [auto|].
        destruct (T1 k) as [H1 H2]; [lia | assumption | assumption | auto].
      - intros k Hk. apply in_app_or in Hk. destruct Hk as [Hk | [<- | []]].
        + destruct (T2 k Hk). split; [lia | assumption].
        + split; [lia|]. unfold is_pending. now rewrite Hl.
      - intros k Hk. apply in_app_or in Hk. destruct Hk as [Hk | [<- | []]].
        + destruct (T3 k Hk). split; [lia | assumption].
        + split; [lia|]. unfold is_pending. now rewrite Hl.
      - exact T4.
      - intros k. rewrite T5. split.
        + intros [Hk Hc]. split; [lia | assumption].
        + intros [Hk Hc]. destruct (Nat.eq_dec k i) as [->|Hne].
          * destruct Hc as [Hc | Hs].
            -- unfold is_pending in Hc. rewrite Hl in Hc. discriminate.
            -- destruct (T7 i Hs); lia.
          * split; [lia | assumption].
      - exact T6.
      - intros k Hk. destruct (T7 k Hk); [left; lia | now right].
      - exact T8.
      - exact T9.
      - exact T10. }
    apply deliver_all_tied; [assumption | assumption |].
    destruct own as [Hown _]. specialize (Hown i).
    apply Forall_forall. intros it Hit. apply in_map_iff in Hit.
    destruct Hit as [ev [<- Hev]]. rewrite Forall_forall in Hown.
    rewrite (Hown ev Hev). cbn. left. lia.
Qed.

Lemma script_step_tied regA seen st j :
  Tied assets scripts regA j seen st -> j < s ->
  NoDup (seen ++ map item_of (during_loader_load env j)) ->
  Tied assets scripts regA (S j)
       (seen ++ map item_of (during_loader_load env j))
       (script_step env scripts scriptPrefix st j).
Proof.
  intros Ht Hj Hnd. unfold script_step.
  set (st1 := emit (LoaderLoad _ _) _).
  assert (Ht1 : Tied assets scripts regA (S j) seen st1).
  { destruct Ht as [T1 T2 T3 T4 T5 T6 T7 T8 T9 T10].
    assert (A : settled_assets st1 = settled_assets st).
    { unfold st1, settled_assets; cbn. rewrite asset_markers_snoc; cbn.
      apply app_nil_r. }
    assert (S : settled_scripts st1 = settled_scripts st).
    { unfold st1, settled_scripts; cbn. rewrite script_markers_snoc; cbn.
      apply app_nil_r. }
    constructor; rewrite ?A, ?S; cbn [st1 emit set_listeners load_once
      error_once loader_callbacks]; try assumption.
    - intros k. rewrite in_app_iff, T4. cbn. split.
      + intros [Hk | [<- | []]]; lia.
      + intros Hk. destruct (Nat.eq_dec k j) as [->|Hne]; [auto|].
        left. lia.
    - intros k. rewrite T6. split.
      + intros [Hk Hs]. split; [lia | assumption].
      + intros [Hk Hs]. split; [|assumption].
        destruct (T8 k Hs); lia.
    - intros k Hk. destruct (T8 k Hk); [left; lia | now right]. }
  apply deliver_all_tied; [assumption | assumption |].
  destruct own as [_ Hown]. specialize (Hown j).
  apply Forall_forall. intros it Hit. apply in_map_iff in Hit.
  destruct Hit as [ev [<- Hev]]. rewrite Forall_forall in Hown.
  rewrite (Hown ev Hev). cbn. left. lia.
Qed.

Lemma NoDup_prefix {A} (l l' : list A) : NoDup (l ++ l') -> NoDup l.
Proof. apply NoDup_app_remove_r. Qed.

Lemma asset_loop_tied regS k : forall st,
  k <= a ->
  Tied assets scripts 0 regS [] st ->
  NoDup (map item_of (flat_map answers (seq 0 k))) ->
  Tied assets scripts k regS (map item_of (flat_map answers (seq 0 k)))
       (fold_left (asset_step env assets) (seq 0 k) st).
Proof.
  induction k as [|k IH]; intros st Hk Ht Hnd; [exact Ht|].
  rewrite seq_S, fold_left_app, flat_map_app, map_app in *.
  cbn [Nat.add fold_left flat_map] in *. rewrite app_nil_r in *.
  apply asset_step_tied; [|lia | assumption].
  apply IH; [lia | assumption |]. now apply NoDup_prefix in Hnd.
Qed.

Lemma script_loop_tied regA seen0 k : forall st,
  k <= s ->
  Tied assets scripts regA 0 seen0 st ->
  NoDup (seen0 ++ map item_of (flat_map (during_loader_load env) (seq 0 k))) ->
  Tied assets scripts regA k
       (seen0 ++ map item_of (flat_map (during_loader_load env) (seq 0 k)))
       (fold_left (script_step env scripts scriptPrefix) (seq 0 k) st).
Proof.
  induction k as [|k IH]; intros st Hk Ht Hnd.
  - cbn. now rewrite app_nil_r.
  - rewrite seq_S, fold_left_app, flat_map_app, map_app in *.
    cbn [Nat.add fold_left flat_map] in *. rewrite app_nil_r in *.
    rewrite app_assoc in *.
    apply script_step_tied; [|lia | assumption].
    apply IH; [lia | assumption |]. now apply NoDup_prefix in Hnd.
Qed.

Lemma flat_map_filter {A B} (f : A -> list B) (p : A -> bool) l :
  flat_map f (filter p l) = flat_map (fun x => if p x then f x else []) l.
Proof.
  induction l as [|x l IH]; [reflexivity|]. cbn.
  destruct (p x); cbn; now rewrite IH.
Qed.

Lemma during_answers :
  during env assets scripts =
  flat_map answers (seq 0 a)
  ++ flat_map (during_loader_load env) (seq 0 s).
Proof.
  unfold during, pending_indices. f_equal.
  apply (flat_map_filter (during_assets_load env)
           (fun i => negb (loaded (nth i assets
                                      {| name := EmptyString;
                                         loaded := false |})))).
Qed.

(** The link at the end of a run in which no item is reported twice. *)
Lemma run_tied later :
  reported_once (delivered env assets scripts later) ->
  Tied assets scripts a s
       (map item_of (delivered env assets scripts later))
       (run env assets scripts scriptPrefix later).
Proof.
  unfold reported_once, delivered. rewrite during_answers.
  rewrite !map_app, <- !app_assoc. intros Hnd.
  set (sA := map item_of (flat_map answers (seq 0 a))) in *.
  set (sS := map item_of (flat_map (during_loader_load env) (seq 0 s))) in *.
  assert (HA : Tied assets scripts a 0 sA
                 (assets_phase env assets (init assets scripts))).
  { unfold assets_phase. cbn [init _assets Progress.length]. fold a.
    destruct (Nat.eqb_spec a 0) as [Hz|Hnz].
    - unfold sA. rewrite Hz. cbn. apply done_tied, init_tied.
    - apply asset_loop_tied; [lia | apply init_tied |].
      now apply NoDup_prefix in Hnd. }
  assert (HS : Tied assets scripts a s (sA ++ sS)
                 (preload env assets scripts scriptPrefix)).
  { unfold preload, scripts_phase.
    assert (Hlen : Progress.length
                     (_scripts (assets_phase env assets (init assets scripts)))
                   = s) by apply (assets_phase_good env assets scripts).
    rewrite Hlen.
    destruct (Nat.eqb_spec s 0) as [Hz|Hnz].
    - unfold sS. rewrite Hz. cbn. rewrite app_nil_r. apply done_tied.
      unfold sA. fold a. exact HA.
    - apply script_loop_tied; [lia | exact HA |].
      rewrite app_assoc in Hnd. now apply NoDup_prefix in Hnd. }
  unfold run. rewrite app_assoc.
  apply deliver_all_tied; [exact HS | now rewrite <- app_assoc |].
  apply Forall_forall. intros [i | j] _; cbn; lia.
Qed.

End Loader.

(** What the link says when both loops have run. *)
Lemma tied_settled seen st :
  Tied assets scripts a s seen st ->
  settled_once st /\
  (all_settled assets scripts st <->
   forall it, awaited assets scripts it -> In it seen).
Proof.
  intros [T1 T2 T3 T4 T5 T6 T7 T8 T9 T10].
  split; [split; assumption|].
  unfold all_settled, awaited. fold a s. split.
  - intros [Ha Hs] [i | j].
    + intros [Hi Hp]. apply Ha, T5 in Hi.
      destruct Hi as [_ [Hc | Hin]]; [congruence | assumption].
    + intros Hj. now apply Hs, T6 in Hj.
  - intros H. split.
    + intros i Hi. apply T5. split; [assumption|].
      destruct (is_pending assets i) eqn:Hp; [|auto].
      right. now apply (H (AssetItem i)).
    + intros j Hj. apply T6. split; [assumption|].
      now apply (H (ScriptItem j)).
Qed.

End Batch.

Lemma asynchronous_answers_own : answers_own asynchronous.
Proof. split; intros k; constructor. Qed.

(** C1 (amended).  The completion callback of [preload] is invoked at
    most once in every run, whatever is reported and however often.
    When the loader reports no item twice (and, while a load call
    runs, on nothing but the item asked for), the callback has been
    invoked, exactly once, precisely when every item [preload] asked
    for, asset or script, has been reported as loaded or as failed, in
    whatever order the reports arrive: as long as a report is missing
    it has not been invoked.  For an empty batch it is invoked before
    [preload] returns. *)
Theorem preload_callback_once_after_all_settled
    env assets scripts scriptPrefix later :
  let final := run env assets scripts scriptPrefix later in
  let reports := delivered env assets scripts later in
  callbacks_invoked final <= 1 /\
  (answers_own env -> reported_once reports ->
   (callbacks_invoked final = 1 <-> all_reported assets scripts reports)) /\
  (answers_own env -> reported_once reports ->
   forall before after, later = before ++ after ->
   ~ all_reported assets scripts (delivered env assets scripts before) ->
   callbacks_invoked (run env assets scripts scriptPrefix before) = 0) /\
  callbacks_invoked (preload env [] [] scriptPrefix) = 1.
Proof.
  intros final reports.
  assert (Hiff : forall l,
            answers_own env ->
            reported_once (delivered env assets scripts l) ->
            (callbacks_invoked (run env assets scripts scriptPrefix l) = 1 <->
             all_reported assets scripts (delivered env assets scripts l))).
  { intros l Hown Honce.
    pose proof (run_tied assets scripts env scriptPrefix Hown l Honce) as Ht.
    destruct (tied_settled assets scripts _ _ Ht) as [Hso Hall].
    rewrite (settled_iff_latched assets scripts _
               (run_good env assets scripts scriptPrefix l) Hso).
    exact Hall. }
  split; [|split; [|split]].
  - apply (latch_at_most_once assets scripts), run_good.
  - apply Hiff.
  - intros Hown Honce before after Hsplit Hmiss.
    assert (Hpre : reported_once (delivered env assets scripts before)).
    { unfold reports, reported_once, delivered in *. subst later.
      rewrite app_assoc, map_app in Honce.
      now apply NoDup_app_remove_r in Honce. }
    pose proof (latch_at_most_once assets scripts _
                  (run_good env assets scripts scriptPrefix before)) as Hle.
    destruct (Hiff before Hown Hpre) as [H1 _].
    destruct (callbacks_invoked (run env assets scripts scriptPrefix before))
      as [|[|n]]; [reflexivity | | lia].
    destruct Hmiss. now apply H1.
  - reflexivity.
Qed.

(** A batch of a pending asset, an asset already loaded and a script:
    the script loads, then the asset fails. *)
Lemma preload_callback_once_witness :
  callbacks_invoked
    (run asynchronous [pending "a"; cached "b"] ["s.js"%string] EmptyString
         [ScriptLoaded 0 None; AssetError 0]) = 1 /\
  callbacks_invoked
    (run asynchronous [pending "a"; cached "b"] ["s.js"%string] EmptyString
         [ScriptLoaded 0 None]) = 0.
Proof.
  pose proof (preload_callback_once_after_all_settled
                asynchronous [pending "a"; cached "b"] ["s.js"%string]
                EmptyString [ScriptLoaded 0 None; AssetError 0])
    as (_ & Hiff & Hbefore & _).
  assert (Honce : reported_once
                    (delivered asynchronous [pending "a"; cached "b"]
                       ["s.js"%string] [ScriptLoaded 0 None; AssetError 0])).
  { vm_compute.
    repeat (apply NoDup_cons; [cbn; intuition discriminate|]). apply NoDup_nil. }
  split.
  - apply (Hiff asynchronous_answers_own Honce).
    intros [[|[|i]] | [|j]]; cbn; intros H; try tauto;
      try (destruct H as [H1 H2]; try discriminate H2); lia.
  - apply (Hbefore asynchronous_answers_own Honce
             [ScriptLoaded 0 None] [AssetError 0] eq_refl).
    intros H. specialize (H (AssetItem 0)). cbn in H.
    destruct H as [H | []]; [split; [lia | reflexivity] | discriminate].
Defined.

(** With a report delivered twice the claim fails both ways.  Two
    scripts, the callback of the first invoked twice: [callback] runs
    although the second script was never reported.  With one more
    asset pending, the script count passes its length and [callback]
    never runs, although every item has been reported. *)
Lemma preload_duplicate_report_counterexample :
  (let later := [ScriptLoaded 0 None; ScriptLoaded 0 None] in
   let final := run asynchronous [] ["a.js"%string; "b.js"%string]
                    EmptyString later in
   callbacks_invoked final = 1 /\ ~ In (ScriptItem 1) (map item_of later)) /\
  (let later := [ScriptLoaded 0 None; ScriptLoaded 0 None;
                 ScriptLoaded 1 None; AssetLoad 0] in
   let final := run asynchronous [pending "m"] ["a.js"%string; "b.js"%string]
                    EmptyString later in
   all_reported [pending "m"] ["a.js"%string; "b.js"%string]
                (delivered asynchronous [pending "m"]
                           ["a.js"%string; "b.js"%string] later) /\
   callbacks_invoked final = 0).
Proof.
  split; cbv zeta.
  - split; [reflexivity|]. cbn. intuition discriminate.
  - split; [|reflexivity].
    intros [[|i] | [|[|j]]]; cbn; intros H; try tauto;
      try (destruct H as [H1 H2]); lia.
Qed.

(** C7.  A failing item is counted and the batch completes: once every
    item has been reported, loaded or failed, the callback has been
    invoked, every invocation is without arguments and comes right
    after the preloading flag is switched off.  A script error is
    logged with [console.error]; an asset ['error'] is counted and
    fires the progress notification but is logged nowhere: a batch of
    one failing asset completes with an empty log, where a batch of
    one failing script logs the error. *)
Theorem preload_asset_failure_not_logged :
  (let final := run asynchronous [pending "a"] [] EmptyString [AssetError 0] in
   callbacks_invoked final = 1 /\ preloading final = false /\
   fractions final = [JS.Fin 1] /\
   filter is_log (effects final) = []) /\
  (let final := run asynchronous [] ["s.js"%string] EmptyString
                    [ScriptLoaded 0 (Some "404"%string)] in
   callbacks_invoked final = 1 /\ preloading final = false /\
   filter is_log (effects final) = [ConsoleError "404"]) /\
  (forall st i,
     filter is_log (effects (deliver st (AssetError i))) =
     filter is_log (effects st)) /\
  (forall st i, mem i (error_once st) = true ->
     let st' := deliver st (AssetError i) in
     count st' = S (count st) /\
     fractions st' =
       fractions st ++ [JS.div (JS.of_nat (S (count st))) (JS.of_nat (total st))]) /\
  (forall st j e, mem j (loader_callbacks st) = true ->
     let st' := deliver st (ScriptLoaded j (Some e)) in
     count st' = S (count st) /\ In (ConsoleError e) (effects st')) /\
  (forall env assets scripts scriptPrefix later,
     answers_own env ->
     reported_once (delivered env assets scripts later) ->
     all_reported assets scripts (delivered env assets scripts later) ->
     let final := run env assets scripts scriptPrefix later in
     callbacks_invoked final = 1 /\ preloading final = false) /\
  (forall env assets scripts scriptPrefix later pre args post,
     effects (run env assets scripts scriptPrefix later)
       = pre ++ Callback args :: post ->
     args = [] /\ exists pre', pre = pre' ++ [SetPreloading false]).
Proof.
  assert (Herr : forall st i, mem i (error_once st) = true ->
            let st' := deliver st (AssetError i) in
            count st' = S (count st) /\
            fractions st' =
              fractions st ++
              [JS.div (JS.of_nat (S (count st))) (JS.of_nat (total st))] /\
            filter is_log (effects st') = filter is_log (effects st)).
  { intros st i Hm st'. subst st'. cbn [deliver]. rewrite Hm.
    unfold asset_settled.
    set (st1 := emit _ _).
    assert (H2 : count st1 = S (count st)) by reflexivity.
    assert (H3 : fractions st1 = fractions st ++
              [JS.div (JS.of_nat (S (count st))) (JS.of_nat (total st))]).
    { unfold st1. rewrite fractions_emit. unfold fractions at 1; cbn.
      rewrite flat_map_app; cbn. now rewrite app_nil_r. }
    assert (H4 : filter is_log (effects st1) = filter is_log (effects st)).
    { unfold st1; cbn. rewrite !filter_app; cbn. now rewrite !app_nil_r. }
    destruct (Progress.done (_assets st1)); [|auto].
    destruct (settled_done st1) as (E1 & E2 & E3 & E4 & E5).
    rewrite fractions_done. unfold count. rewrite E3, E4.
    rewrite logs_done. repeat split; auto. }
  split; [repeat split|]. split; [repeat split|].
  split; [|split; [|split; [|split]]].
  - intros st i. destruct (mem i (error_once st)) eqn:Hm.
    + apply (Herr st i Hm).
    + cbn [deliver]. now rewrite Hm.
  - intros st i Hm. destruct (Herr st i Hm) as (H1 & H2 & _). now split.
  - intros st j e Hm st'. subst st'. cbn [deliver]. rewrite Hm.
    unfold script_callback.
    set (st1 := inc_scripts _ _).
    assert (H2 : count st1 = S (count st)).
    { unfold st1, count; cbn. lia. }
    assert (H3 : In (ConsoleError e) (effects st1)).
    { unfold st1; cbn. apply in_or_app. left. apply in_or_app. right. now left. }
    destruct (Progress.done (_scripts st1)); [|auto].
    destruct (settled_done st1) as (E1 & E2 & E3 & E4 & E5).
    unfold count. rewrite E3, E4.
    split; [exact H2 | now apply effects_done].
  - intros env assets scripts scriptPrefix later Hown Honce Hall final.
    pose proof (run_good env assets scripts scriptPrefix later) as Hg.
    pose proof (run_tied assets scripts env scriptPrefix Hown later Honce) as Ht.
    destruct (tied_settled assets scripts _ _ Ht) as [Hso Hiff].
    assert (Hcb : callbacks_invoked final = 1).
    { apply (settled_iff_latched assets scripts); [exact Hg | exact Hso |].
      now apply Hiff. }
    split; [exact Hcb|].
    destruct Hg as [[Hwf _] _]. fold final in Hwf.
    apply (wf_flag _ Hwf).
    rewrite (wf_latch _ Hwf) in Hcb.
    destruct (_done final); [reflexivity | discriminate].
  - intros env assets scripts scriptPrefix later pre args post Heq.
    destruct (run_good env assets scripts scriptPrefix later) as [[Hwf _] _].
    destruct (Flagged_preceded _ _ _ (wf_flagged _ Hwf) pre args post Heq)
      as (I1 & I2 & _).
    now split.
Qed.

(** An asset and a script, both failing. *)
Lemma preload_failure_witness :
  let final := run asynchronous [pending "a"] ["s.js"%string] EmptyString
                   [AssetError 0; ScriptLoaded 0 (Some "404"%string)] in
  callbacks_invoked final = 1 /\ preloading final = false.
Proof.
  apply (proj1 (proj2 (proj2 (proj2 (proj2 (proj2
           preload_asset_failure_not_logged)))))
           asynchronous [pending "a"] ["s.js"%string] EmptyString
           [AssetError 0; ScriptLoaded 0 (Some "404"%string)]
           asynchronous_answers_own).
  - vm_compute.
    repeat (apply NoDup_cons; [cbn; intuition discriminate|]). apply NoDup_nil.
  - intros [[|i] | [|j]]; cbn; intros H; try tauto;
      try (destruct H as [H1 H2]); lia.
Defined.

End PreloadReportsProofs.

(** ** Loading the configuration *)
Module ConfigureProofs.

Import Configure.

Lemma callback_args_emit e st :
  callback_args (emit e st) =
  callback_args st ++ match e with Callback a => [a] | _ => [] end.
Proof.
  unfold callback_args, emit; cbn. rewrite flat_map_app; cbn.
  now rewrite app_nil_r.
Qed.

Lemma configured_args err st :
  callback_args (configured err st) = callback_args st ++ [err] /\
  requests (configured err st) = requests st /\
  count (configured err st) = count st.
Proof.
  unfold configured. destruct err; rewrite !callback_args_emit; cbn;
    rewrite !app_nil_r; auto.
Qed.

(** The registration loop only issues requests. *)
Lemma issue_loop libs : forall l st,
  let st' := fold_left
               (fun st i =>
                  emit (LoaderLoad (nth i libs EmptyString))
                       (mkState (count st) (requests st ++ [i]) (effects st)))
               l st in
  callback_args st' = callback_args st /\
  requests st' = requests st ++ l /\
  count st' = count st.
Proof.
  induction l as [|i l IH]; intros st; cbn.
  - now rewrite app_nil_r.
  - destruct (IH (emit (LoaderLoad (nth i libs EmptyString))
                       (mkState (count st) (requests st ++ [i]) (effects st))))
      as (H1 & H2 & H3).
    cbv zeta in H1, H2, H3. rewrite H1, H2, H3.
    rewrite callback_args_emit; cbn. rewrite <- app_assoc, app_nil_r.
    auto.
Qed.

Local Opaque Z.of_nat.

Lemma successes_callback later : forall st,
  Forall (succeeds_in st) later ->
  callback_args (fold_left (deliver configured) later st) =
  callback_args st ++
  (if ((0 <? count st)%Z && (count st <=? Z.of_nat (List.length later))%Z)%bool
   then [None] else []).
Proof.
  induction later as [|r later IH]; intros st Hall.
  - cbn. destruct (Z.ltb_spec 0 (count st)),
      (Z.leb_spec (count st) (Z.of_nat 0));
      cbn; try lia; now rewrite app_nil_r.
  - inversion Hall as [|r' l' Hr Hl]; subst.
    destruct r as [i err]. destruct Hr as [-> Hi].
    cbn [fold_left deliver].
    assert (Hm : existsb (Nat.eqb i) (requests st) = true).
    { apply existsb_exists. exists i. split; [assumption | apply Nat.eqb_refl]. }
    rewrite Hm. unfold library_callback. cbn [count requests effects].
    destruct (Z.eqb_spec (count st - 1) 0) as [Hz|Hnz].
    + set (st1 := emit _ _).
      destruct (configured_args None st1) as (A1 & A2 & A3).
      rewrite IH.
      * rewrite A1, A3. unfold st1. rewrite callback_args_emit. cbn.
        rewrite app_nil_r.
        destruct (Z.ltb_spec 0 (count st - 1)); [lia|]. cbn.
        destruct (Z.ltb_spec 0 (count st)); [|lia].
        destruct (Z.leb_spec (count st) (Z.of_nat (S (List.length later)))); [|lia].
        cbn. now rewrite app_nil_r.
      * eapply Forall_impl; [|exact Hl].
        intros [k e] [Hk1 Hk2]. split; [assumption | now rewrite A2].
    + rewrite IH.
      * cbn [count callback_args effects List.length].
        fold (callback_args st).
        destruct (Z.ltb_spec 0 (count st - 1)), (Z.ltb_spec 0 (count st)),
          (Z.leb_spec (count st - 1) (Z.of_nat (List.length later))),
          (Z.leb_spec (count st) (Z.of_nat (S (List.length later))));
          cbn; try lia; reflexivity.
      * exact Hl.
Qed.

(** On the success path the callback of [configure] is invoked once,
    with [null]: at once when no library is declared, and otherwise at
    the report that completes the count. *)
Lemma configure_success url response later :
  let st := configure url (HttpOk response) in
  Forall (succeeds_in st) later ->
  callback_args (run url (HttpOk response) later) =
  if List.length (libraries (application_properties response)) <=? List.length later
  then [None] else [].
Proof.
  intros st Hall. unfold run. fold st. rewrite successes_callback by assumption.
  unfold st, configure, parseApplicationProperties.
  set (n := List.length (libraries (application_properties response))).
  destruct (Nat.eqb_spec n 0) as [Hz|Hnz].
  - rewrite Hz. cbn [Nat.eqb Nat.leb].
    match goal with
    | |- context [configured None ?s] =>
        destruct (configured_args None s) as (A1 & A2 & A3)
    end.
    rewrite A1, A3. reflexivity.
  - set (st1 := mkState _ _ _).
    destruct (issue_loop (libraries (application_properties response))
                (seq 0 n) st1) as (H1 & H2 & H3).
    cbv zeta in H1, H2, H3. rewrite H1, H3. cbn.
    destruct (Z.ltb_spec 0 (Z.of_nat n)); [|lia].
    destruct (Z.leb_spec (Z.of_nat n) (Z.of_nat (List.length later))),
      (Nat.leb_spec n (List.length later)); cbn; try lia; reflexivity.
Qed.

(** C2.  With two declared libraries, the first failing and the second
    loading, the callback of [configure] is invoked twice: with the
    error, then with [null].  With both failing it is invoked twice as
    well, once per error. *)
Theorem configure_callback_invoked_twice :
  callback_args (run "config.json" (with_libraries ["a.js"%string; "b.js"%string])
                     [LibraryLoaded 0 (Some "a.js failed"%string);
                      LibraryLoaded 1 None])
  = [Some "a.js failed"%string; None] /\
  callback_args (run "config.json" (with_libraries ["a.js"%string; "b.js"%string])
                     [LibraryLoaded 0 (Some "a.js failed"%string);
                      LibraryLoaded 1 (Some "b.js failed"%string)])
  = [Some "a.js failed"%string; Some "b.js failed"%string].
Proof. split; reflexivity. Qed.

End ConfigureProofs.

(** ** The frame loop and [start] *)
Module FrameProofs.

Import Frame JSFacts.

Lemma skipn_nth_error {A} (l : list A) : forall i x,
  nth_error l i = Some x -> skipn i l = x :: skipn (S i) l.
Proof.
  induction l as [|a l IH]; intros [|i] x H; cbn in *; try discriminate.
  - now injection H as ->.
  - now apply IH.
Qed.

(** The indexed loop visits the cameras from [i] on, in array order. *)
Lemma render_from_skipn app : forall todo i,
  i + todo = List.length (cameras app) ->
  render_from app i todo =
  flat_map (fun c => [FrameBegin (component c);
                      Render (scene_id app) (camera c);
                      FrameEnd (component c)])
           (skipn i (cameras app)).
Proof.
  induction todo as [|todo IH]; intros i Hlen; cbn [render_from].
  - rewrite skipn_all2 by lia. reflexivity.
  - destruct (nth_error (cameras app) i) as [c|] eqn:Hc.
    + rewrite (skipn_nth_error _ _ _ Hc). cbn [flat_map].
      rewrite IH by lia. reflexivity.
    + apply nth_error_None in Hc. lia.
Qed.

Lemma update_polls app dt :
  when (controller app) (ControllerUpdate dt)
  ++ when (mouse app) (MouseUpdate dt)
  ++ when (keyboard app) (KeyboardUpdate dt)
  ++ when (gamepads app) (GamepadsUpdate dt)
  = filter (fun e => match e with
                     | ControllerUpdate _ => controller app
                     | MouseUpdate _ => mouse app
                     | KeyboardUpdate _ => keyboard app
                     | GamepadsUpdate _ => gamepads app
                     | _ => false
                     end)
           [ControllerUpdate dt; MouseUpdate dt; KeyboardUpdate dt;
            GamepadsUpdate dt].
Proof.
  cbn. destruct (controller app), (mouse app), (keyboard app), (gamepads app);
    reflexivity.
Qed.

Lemma tick_effects app now :
  snd (tick app now) =
  [SetCurrentApplication; RequestAnimationFrame]
  ++ spec_phases app (spec_delta now (lastTimestamp app now) (timeScale app)).
Proof.
  unfold tick, spec_phases, update, render. cbn [snd].
  rewrite (render_from_skipn _ _ 0) by reflexivity.
  cbn [skipn]. rewrite <- update_polls.
  unfold spec_delta, elapsed, lastTimestamp, JS.or_else.
  cbn [set_time _inTools controller mouse keyboard gamepads cameras timeScale
       scene scene_id].
  rewrite <- !app_assoc. reflexivity.
Qed.

Lemma StronglySorted_app {A} (R : A -> A -> Prop) (l1 l2 : list A) :
  StronglySorted R l1 -> StronglySorted R l2 ->
  (forall a b, In a l1 -> In b l2 -> R a b) ->
  StronglySorted R (l1 ++ l2).
Proof.
  induction l1 as [|x l1 IH]; intros H1 H2 H12; cbn; [assumption|].
  inversion H1 as [|? ? Hs Hf]; subst.
  constructor.
  - apply IH; [assumption | assumption |].
    intros a b Ha Hb. apply H12; [now right | assumption].
  - apply Forall_app. split; [assumption|].
    apply Forall_forall. intros b Hb. apply H12; [now left | assumption].
Qed.

Lemma constant_sorted (k : nat) (l : list nat) :
  Forall (eq k) l -> StronglySorted le l.
Proof.
  induction 1 as [|x l Hx Hl IH]; constructor; [assumption|].
  subst x. eapply Forall_impl; [|exact Hl]. intros a <-. apply le_n.
Qed.

(** In a trace sorted by rank, an effect of lower rank comes first. *)
Lemma sorted_nth_le {A} (f : A -> nat) (t : list A) :
  StronglySorted le (map f t) ->
  forall i j a b, i < j ->
  nth_error t i = Some a -> nth_error t j = Some b -> f a <= f b.
Proof.
  induction t as [|x t IH]; intros Hs i j a b Hij Ha Hb.
  - destruct i; discriminate.
  - cbn in Hs. inversion Hs as [|? ? Hs' Hf]; subst.
    destruct j as [|j]; [lia|]. cbn in Hb.
    destruct i as [|i]; cbn in Ha.
    + injection Ha as ->.
      rewrite Forall_forall in Hf. apply Hf.
      apply in_map. eapply nth_error_In; eassumption.
    + apply (IH Hs' i j); [lia | assumption | assumption].
Qed.

Lemma sorted_order {A} (f : A -> nat) (t : list A) :
  StronglySorted le (map f t) ->
  forall i j a b,
  nth_error t i = Some a -> nth_error t j = Some b -> f a < f b -> i < j.
Proof.
  intros Hs i j a b Ha Hb Hlt.
  destruct (Nat.lt_trichotomy i j) as [H|[H|H]]; [assumption | |].
  - subst j. rewrite Ha in Hb. injection Hb as ->. lia.
  - pose proof (sorted_nth_le f t Hs j i b a H Hb Ha). lia.
Qed.

Lemma phases_sorted app dt :
  StronglySorted le
    (map phase ([SetCurrentApplication; RequestAnimationFrame]
                ++ spec_phases app dt)).
Proof.
  unfold spec_phases. rewrite !map_app.
  assert (Hpolls : forall l,
            Forall (eq 5) (map phase
              (filter (fun e => match e with
                                | ControllerUpdate _ => controller app
                                | MouseUpdate _ => mouse app
                                | KeyboardUpdate _ => keyboard app
                                | GamepadsUpdate _ => gamepads app
                                | _ => false
                                end) l))).
  { induction l as [|e l IH]; cbn; [constructor|].
    destruct e; cbn; try assumption;
      match goal with |- context [if ?b then _ else _] => destruct b end;
      cbn; try assumption; now constructor. }
  assert (Hframes : forall l,
            Forall (eq 7) (map phase
              (flat_map (fun c => [FrameBegin (component c);
                                   Render (scene_id app) (camera c);
                                   FrameEnd (component c)]) l))).
  { induction l as [|c l IH]; cbn; [constructor|]. now repeat constructor. }
  set (polls := map phase (filter _ _)) in *.
  set (frames := map phase (flat_map _ _)) in *.
  specialize (Hpolls [ControllerUpdate dt; MouseUpdate dt; KeyboardUpdate dt;
                      GamepadsUpdate dt]).
  specialize (Hframes (cameras app)).
  fold polls in Hpolls. fold frames in Hframes.
  cbn [map phase List.app].
  rewrite Forall_forall in Hpolls, Hframes.
  clearbody polls frames.
  repeat (constructor;
          [| apply Forall_forall; intros x Hx; cbn in Hx;
             repeat (rewrite in_app_iff in Hx; cbn in Hx);
             repeat match goal with
                    | H : _ \/ _ |- _ => destruct H
                    | H : In _ polls |- _ => apply Hpolls in H
                    | H : In _ frames |- _ => apply Hframes in H
                    | H : False |- _ => destruct H
                    end; subst; lia]).
  apply StronglySorted_app.
  - apply (constant_sorted 5). now apply Forall_forall.
  - constructor.
    + apply (constant_sorted 7). now apply Forall_forall.
    + apply Forall_forall. intros x Hx. apply Hframes in Hx. lia.
  - intros a b Ha Hb. apply Hpolls in Ha. cbn in Hb.
    destruct Hb as [Hb|Hb]; [|apply Hframes in Hb]; lia.
Qed.

(** C6.  The trace of every tick is, after the two bookkeeping steps,
    the fixed-step update with step 1/60 whatever the clock says, the
    variable-step update with the scaled step, the post-update, the
    "update" notification, the polling of the devices that are present,
    one synchronisation of the hierarchy, and for each camera in array
    order begin-frame, render, end-frame.  The phases never interleave:
    an effect of an earlier phase is at an earlier position. *)
Theorem tick_phases_in_fixed_order app now :
  let t := snd (tick app now) in
  let dt := spec_delta now (lastTimestamp app now) (timeScale app) in
  t = [SetCurrentApplication; RequestAnimationFrame] ++ spec_phases app dt /\
  StronglySorted le (map phase t) /\
  (forall i j a b, nth_error t i = Some a -> nth_error t j = Some b ->
                   phase a < phase b -> i < j) /\
  List.length (filter is_sync t) = 1.
Proof.
  intros t dt.
  assert (Ht : t = [SetCurrentApplication; RequestAnimationFrame]
                   ++ spec_phases app dt) by apply tick_effects.
  assert (Hs : StronglySorted le (map phase t))
    by (rewrite Ht; apply phases_sorted).
  split; [exact Ht|]. split; [exact Hs|]. split; [now apply sorted_order|].
  rewrite Ht. unfold spec_phases. rewrite !filter_app, !length_app.
  assert (Hpolls : forall l,
            filter is_sync
              (filter (fun e => match e with
                                | ControllerUpdate _ => controller app
                                | MouseUpdate _ => mouse app
                                | KeyboardUpdate _ => keyboard app
                                | GamepadsUpdate _ => gamepads app
                                | _ => false
                                end) l) = []).
  { induction l as [|e l IH]; cbn; [reflexivity|].
    destruct e; cbn; try assumption;
      match goal with |- context [if ?b then _ else _] => destruct b end;
      cbn; assumption. }
  assert (Hframes : forall l,
            filter is_sync
              (flat_map (fun c => [FrameBegin (component c);
                                   Render (scene_id app) (camera c);
                                   FrameEnd (component c)]) l) = []).
  { induction l as [|c l IH]; cbn; [reflexivity | assumption]. }
  rewrite Hpolls, Hframes. reflexivity.
Qed.

(** In a tick of [stalled] the fixed-step update (position 2) comes
    before the synchronisation of the hierarchy (position 6). *)
Lemma tick_phases_witness :
  let t := snd (tick stalled (JS.Fin 1016)) in
  nth_error t 2 = Some (FixedUpdate (JS.Fin (1 # 60)) false) /\
  nth_error t 6 = Some SyncHierarchy /\
  2 < 6.
Proof.
  intros t.
  assert (H2 : nth_error t 2 = Some (FixedUpdate (JS.Fin (1 # 60)) false))
    by reflexivity.
  assert (H6 : nth_error t 6 = Some SyncHierarchy) by reflexivity.
  split; [exact H2|]. split; [exact H6|].
  apply (proj1 (proj2 (proj2
           (tick_phases_in_fixed_order stalled (JS.Fin 1016))))
           2 6 _ _ H2 H6).
  cbn. lia.
Defined.

Lemma update_steps_phases app dt : update_steps (spec_phases app dt) = [dt].
Proof.
  unfold spec_phases, update_steps. rewrite !flat_map_app.
  assert (Hframes : forall l,
            flat_map (fun e => match e with Update d _ => [d] | _ => [] end)
              (flat_map (fun c => [FrameBegin (component c);
                                   Render (scene_id app) (camera c);
                                   FrameEnd (component c)]) l) = []).
  { induction l as [|c l IH]; cbn; [reflexivity | assumption]. }
  rewrite Hframes. cbn.
  destruct (controller app), (mouse app), (keyboard app), (gamepads app);
    reflexivity.
Qed.

(** The first measured step: nothing has elapsed. *)
Lemma first_elapsed options (q : Q) :
  elapsed (create options) (JS.Fin q) = JS.Fin 0.
Proof.
  unfold elapsed, create; cbn [_time].
  change (JS.or_else (JS.Fin 0) (JS.Fin q)) with (JS.Fin q).
  change (JS.sub (JS.Fin q) (JS.Fin q)) with (JS.fin (q - q)).
  rewrite (fin_eq (q - q) 0) by ring.
  reflexivity.
Qed.

(** A finite clock and a finite stored time give a finite step. *)
Lemma elapsed_finite app (t q : Q) :
  _time app = JS.Fin t -> exists x, elapsed app (JS.Fin q) = JS.Fin x.
Proof.
  intros Ht. unfold elapsed, JS.or_else. rewrite Ht.
  destruct (JS.truthy (JS.Fin t)); cbn; eexists; reflexivity.
Qed.

Lemma clamp_bounds (x : Q) :
  exists c, pc_math.clamp (JS.Fin x) (JS.Fin 0) (JS.Fin (1 # 10)) = JS.Fin c /\
            (0 <= c <= 1 # 10)%Q.
Proof.
  unfold pc_math.clamp, JS.le, JS.ge.
  destruct (Qle_bool (1 # 10) x) eqn:Hhi.
  - exists (1 # 10)%Q. split; [reflexivity|]. split; [discriminate | apply Qle_refl].
  - destruct (Qle_bool x 0) eqn:Hlo.
    + exists 0%Q. split; [reflexivity|]. split; [apply Qle_refl | discriminate].
    + exists x. split; [reflexivity|].
      assert (H1 : ~ (1 # 10 <= x)%Q)
        by (rewrite <- Qle_bool_iff; congruence).
      assert (H2 : ~ (x <= 0)%Q)
        by (rewrite <- Qle_bool_iff; congruence).
      split; lra.
Qed.

Lemma tick_step app now :
  update_steps (snd (tick app now)) =
  [spec_delta now (lastTimestamp app now) (timeScale app)].
Proof.
  rewrite tick_effects.
  change (update_steps ([SetCurrentApplication; RequestAnimationFrame] ++ ?l))
    with (update_steps l).
  apply update_steps_phases.
Qed.

Lemma ticks_cons app now rest :
  FrameRun.ticks app (now :: rest) =
  (fst (FrameRun.ticks (fst (tick app now)) rest),
   snd (tick app now) ++ snd (FrameRun.ticks (fst (tick app now)) rest)).
Proof.
  cbn [FrameRun.ticks]. destruct (tick app now) as [app1 t1]. cbn [fst snd].
  now destruct (FrameRun.ticks app1 rest).
Qed.

(** The steps of a run of the code, from the time it has stored. *)
Lemma ticks_steps nows : forall app,
  update_steps (snd (FrameRun.ticks app nows)) =
  FrameRun.amended_steps (timeScale app) (FrameRun.seeded (_time app)) nows.
Proof.
  induction nows as [|now rest IH]; intros app; [reflexivity|].
  rewrite ticks_cons. cbn [snd]. unfold update_steps at 1.
  rewrite flat_map_app. fold (update_steps (snd (tick app now))).
  fold (update_steps (snd (FrameRun.ticks (fst (tick app now)) rest))).
  rewrite tick_step, IH. cbn [FrameRun.amended_steps List.app]. f_equal.
  unfold lastTimestamp, FrameRun.seeded.
  now destruct (JS.truthy (_time app)).
Qed.

(** As long as no tick reads 0 or NaN the amendment changes nothing. *)
Lemma amended_steps_truthy scale nows : forall last,
  Forall (fun now => JS.truthy now = true) nows ->
  FrameRun.amended_steps scale last nows = FrameRun.spec_steps scale last nows.
Proof.
  induction nows as [|now rest IH]; intros last Hall; [reflexivity|].
  inversion Hall as [|? ? Hnow Hrest]; subst.
  cbn [FrameRun.amended_steps FrameRun.spec_steps]. f_equal.
  unfold FrameRun.seeded. rewrite Hnow. now apply IH.
Qed.

(** C4 (amended).  In a run of ticks the step handed to [update] is
    the time elapsed since the clock value the previous tick read, in
    seconds, clamped to [0, 0.1] and then multiplied by the time
    scale; the first tick is measured from its own clock value, so
    nothing has elapsed.  This holds as long as no tick reads the
    clock value 0 (or NaN): such a value does not count as a
    timestamp, and the tick after it is measured as a first tick.
    With a finite clock the clamped value lies in [0, 0.1] before it
    is scaled: after a stall of five seconds at time scale 2 the step
    is 0.2. *)
Theorem tick_delta_clamped_then_scaled app nows :
  update_steps (snd (FrameRun.ticks app nows)) =
    FrameRun.amended_steps (timeScale app) (FrameRun.seeded (_time app)) nows /\
  (_time app = JS.Fin 0 ->
   Forall (fun now => JS.truthy now = true) nows ->
   update_steps (snd (FrameRun.ticks app nows)) =
     FrameRun.spec_steps (timeScale app) None nows) /\
  (forall options q,
     update_steps (snd (tick (create options) (JS.Fin q))) = [JS.Fin 0]) /\
  (forall t q, _time app = JS.Fin t ->
     exists c,
       pc_math.clamp (elapsed app (JS.Fin q)) (JS.Fin 0) (JS.Fin (1 # 10))
         = JS.Fin c /\
       (0 <= c <= 1 # 10)%Q /\
       update_steps (snd (tick app (JS.Fin q))) = [JS.mul (JS.Fin c) (timeScale app)]) /\
  update_steps (snd (tick stalled (JS.Fin 6000))) = [JS.Fin (1 # 5)].
Proof.
  split; [apply ticks_steps|]. split; [|split; [|split]].
  - intros Hfresh Hall. rewrite ticks_steps, Hfresh.
    change (FrameRun.seeded (JS.Fin 0)) with (@None JS.number).
    now apply amended_steps_truthy.
  - intros options q. rewrite tick_step.
    change (spec_delta (JS.Fin q) (lastTimestamp (create options) (JS.Fin q))
                       (timeScale (create options)))
      with (JS.mul (pc_math.clamp (elapsed (create options) (JS.Fin q))
                                  (JS.Fin 0) (JS.Fin (1 # 10)))
                   (JS.Fin 1)).
    rewrite first_elapsed. reflexivity.
  - intros t q Ht.
    destruct (elapsed_finite app t q Ht) as [x Hx].
    destruct (clamp_bounds x) as [c [Hc Hb]].
    exists c. rewrite Hx. split; [exact Hc|]. split; [exact Hb|].
    rewrite tick_step.
    change (spec_delta (JS.Fin q) (lastTimestamp app (JS.Fin q)) (timeScale app))
      with (JS.mul (pc_math.clamp (elapsed app (JS.Fin q))
                                  (JS.Fin 0) (JS.Fin (1 # 10)))
                   (timeScale app)).
    now rewrite Hx, Hc.
  - reflexivity.
Qed.

(** A fresh application ticking at 1000, 1016 and 6000 ms: nothing,
    then 16 ms, then the clamped 0.1 s. *)
Lemma tick_delta_witness :
  update_steps
    (snd (FrameRun.ticks (create FrameRun.bare)
            [JS.Fin 1000; JS.Fin 1016; JS.Fin 6000]))
  = FrameRun.spec_steps (JS.Fin 1) None
      [JS.Fin 1000; JS.Fin 1016; JS.Fin 6000].
Proof.
  apply (proj1 (proj2 (tick_delta_clamped_then_scaled (create FrameRun.bare)
                         [JS.Fin 1000; JS.Fin 1016; JS.Fin 6000])));
    [reflexivity | repeat constructor].
Defined.

(** A tick that reads the clock value 0, then one five seconds later:
    the second step is 0, where the time elapsed since the previous
    tick, clamped, is 0.1 s. *)
Lemma tick_after_zero_counterexample :
  update_steps
    (snd (FrameRun.ticks (create FrameRun.bare) [JS.Fin 0; JS.Fin 5000]))
  = [JS.Fin 0; JS.Fin 0] /\
  FrameRun.spec_steps (JS.Fin 1) None [JS.Fin 0; JS.Fin 5000]
  = [JS.Fin 0; JS.Fin (1 # 10)] /\
  update_steps
    (snd (FrameRun.ticks (create FrameRun.bare) [JS.Fin 0; JS.Fin 5000]))
  <> FrameRun.spec_steps (JS.Fin 1) None [JS.Fin 0; JS.Fin 5000].
Proof. repeat split. discriminate. Qed.

Lemma tick_effects_rank app now e :
  In e (snd (tick app now)) -> start_phase e = 4.
Proof.
  rewrite tick_effects. unfold spec_phases.
  rewrite !in_app_iff. cbn [In].
  intros H.
  repeat match goal with
         | H : _ \/ _ |- _ => destruct H
         | H : False |- _ => destruct H
         end; subst; try reflexivity.
  - apply filter_In in H. destruct H as [H _]. cbn in H.
    repeat match goal with
           | H : _ \/ _ |- _ => destruct H
           | H : False |- _ => destruct H
           end; subst; reflexivity.
  - apply in_flat_map in H. destruct H as [c [_ H]]. cbn in H.
    repeat match goal with
           | H : _ \/ _ |- _ => destruct H
           | H : False |- _ => destruct H
           end; subst; reflexivity.
Qed.

Lemma constant_rank {A} (f : A -> nat) (k : nat) (l : list A) :
  (forall a, In a l -> f a = k) -> Forall (eq k) (map f l).
Proof.
  intros H. apply Forall_forall. intros x Hx.
  apply in_map_iff in Hx. destruct Hx as [a [<- Ha]]. symmetry. now apply H.
Qed.

Lemma nodes_addChild parent child :
  nodes (addChild parent child) = nodes parent ++ nodes child.
Proof.
  destruct parent as [n cs]. cbn. rewrite flat_map_app. cbn.
  now rewrite app_nil_r.
Qed.

Section Start.

Variable visit_initialize : Entity -> list string.
Variable visit_postInitialize : Entity -> list string.

Lemma start_effects app now :
  snd (start visit_initialize visit_postInitialize app now) =
  snd (attach app) ++ [ConsoleLog "INITIALIZE"]
  ++ map Initialize (visit_initialize (root (fst (attach app))))
  ++ map PostInitialize (visit_postInitialize (root (fst (attach app))))
  ++ snd (tick (fst (attach app)) now).
Proof.
  unfold start. destruct (attach app) as [app1 attached]. cbn [fst snd].
  destruct (tick app1 now) as [app2 ticked]. reflexivity.
Qed.

Lemma start_sorted app now :
  StronglySorted le
    (map start_phase (snd (start visit_initialize visit_postInitialize app now))).
Proof.
  rewrite start_effects, !map_app.
  assert (H0 : Forall (eq 0) (map start_phase (snd (attach app)))).
  { unfold attach. destruct (scene app) as [sc|]; [|constructor].
    destruct (scene_root sc); cbn; repeat constructor. }
  assert (H2 : Forall (eq 2)
                 (map start_phase
                    (map Initialize (visit_initialize (root (fst (attach app))))))).
  { apply constant_rank. intros a Ha. apply in_map_iff in Ha.
    destruct Ha as [n [<- _]]. reflexivity. }
  assert (H3 : Forall (eq 3)
                 (map start_phase
                    (map PostInitialize
                       (visit_postInitialize (root (fst (attach app))))))).
  { apply constant_rank. intros a Ha. apply in_map_iff in Ha.
    destruct Ha as [n [<- _]]. reflexivity. }
  assert (H4 : Forall (eq 4)
                 (map start_phase (snd (tick (fst (attach app)) now)))).
  { apply constant_rank. intros a. apply tick_effects_rank. }
  set (l0 := map start_phase (snd (attach app))) in *.
  set (l2 := map start_phase (map Initialize _)) in *.
  set (l3 := map start_phase (map PostInitialize _)) in *.
  set (l4 := map start_phase (snd (tick _ _))) in *.
  clearbody l0 l2 l3 l4. cbn [map start_phase].
  rewrite Forall_forall in H0, H2, H3, H4.
  repeat (apply StronglySorted_app;
          [ first [ now apply (constant_sorted 0), Forall_forall
                  | now apply (constant_sorted 2), Forall_forall
                  | now apply (constant_sorted 3), Forall_forall
                  | repeat constructor ]
          | | intros a b Ha Hb;
              repeat (rewrite in_app_iff in Hb; cbn in Hb);
              cbn in Ha;
              repeat match goal with
                     | H : _ \/ _ |- _ => destruct H
                     | H : False |- _ => destruct H
                     | H : In _ l0 |- _ => apply H0 in H
                     | H : In _ l2 |- _ => apply H2 in H
                     | H : In _ l3 |- _ => apply H3 in H
                     | H : In _ l4 |- _ => apply H4 in H
                     end; subst; lia ]).
  now apply (constant_sorted 4), Forall_forall.
Qed.

End Start.

(** The call log of [start] on a hierarchy of three nodes. *)
Example start_three_nodes :
  snd (start nodes nodes three_nodes (JS.Fin 5000)) =
  [ AddChild (Node "scene" [Node "child" []]);
    ConsoleLog "INITIALIZE";
    Initialize "world"; Initialize "scene"; Initialize "child";
    PostInitialize "world"; PostInitialize "scene"; PostInitialize "child";
    SetCurrentApplication; RequestAnimationFrame;
    FixedUpdate (JS.Fin (1 # 60)) false; Update (JS.Fin 0) false;
    PostUpdate (JS.Fin 0) false; FireUpdate (JS.Fin 0); SyncHierarchy ].
Proof. reflexivity. Qed.

Lemma nth_error_after {A} (l l' : list A) k :
  nth_error (l ++ l') (List.length l + k) = nth_error l' k.
Proof.
  rewrite nth_error_app2 by lia. f_equal. lia.
Qed.

(** C5.  [start] first attaches the scene root, if there is one, under
    the world root, then logs, then initializes the hierarchy under the
    world root, then post-initializes it, and only then runs the first
    tick, which requests the next frame and updates: in its trace the
    attachment precedes every [Initialize], every [Initialize] precedes
    every [PostInitialize], all of them lie before the tick, and the
    request for the animation frame and the update follow the last
    [PostInitialize].  With a traversal that reaches every node, every
    node of the world, scene included, is initialized and
    post-initialized. *)
Theorem start_two_phases_then_tick visit_initialize visit_postInitialize
    app now :
  let world := root (fst (attach app)) in
  let t := snd (start visit_initialize visit_postInitialize app now) in
  let phases := snd (attach app) ++ [ConsoleLog "INITIALIZE"]
                ++ map Initialize (visit_initialize world)
                ++ map PostInitialize (visit_postInitialize world) in
  let dt := spec_delta now (lastTimestamp (fst (attach app)) now)
                       (timeScale (fst (attach app))) in
  world = match scene app with
          | Some sc => match scene_root sc with
                       | Some r => addChild (root app) r
                       | None => root app
                       end
          | None => root app
          end /\
  t = phases ++ [SetCurrentApplication; RequestAnimationFrame]
      ++ spec_phases (fst (attach app)) dt /\
  nth_error t (List.length phases + 1) = Some RequestAnimationFrame /\
  nth_error t (List.length phases + 3)
    = Some (Update dt (_inTools (fst (attach app)))) /\
  (forall i n, nth_error t i = Some (Initialize n) \/
               nth_error t i = Some (PostInitialize n) ->
               i < List.length phases) /\
  (forall i j a b, nth_error t i = Some a -> nth_error t j = Some b ->
                   start_phase a < start_phase b -> i < j) /\
  (forall n, In n (nodes world) ->
     In (Initialize n) (snd (start nodes nodes app now)) /\
     In (PostInitialize n) (snd (start nodes nodes app now))) /\
  (forall sc r, scene app = Some sc -> scene_root sc = Some r ->
     nodes world = nodes (root app) ++ nodes r).
Proof.
  intros world t phases dt.
  assert (Ht : t = phases ++ snd (tick (fst (attach app)) now)).
  { unfold t, phases. rewrite start_effects. fold world.
    now rewrite <- !app_assoc. }
  assert (Htick : snd (tick (fst (attach app)) now) =
                  [SetCurrentApplication; RequestAnimationFrame]
                  ++ spec_phases (fst (attach app)) dt)
    by apply tick_effects.
  split; [|split; [|split; [|split; [|split; [|split; [|split]]]]]].
  - unfold world, attach. destruct (scene app) as [sc|]; [|reflexivity].
    destruct (scene_root sc); reflexivity.
  - now rewrite Ht, Htick.
  - rewrite Ht, Htick, nth_error_after. reflexivity.
  - rewrite Ht, Htick, nth_error_after. reflexivity.
  - intros i n Hi.
    destruct (Nat.lt_ge_cases i (List.length phases)) as [Hlt|Hge];
      [assumption|].
    rewrite Ht in Hi. rewrite !nth_error_app2 in Hi by assumption.
    destruct Hi as [Hi | Hi]; apply nth_error_In, tick_effects_rank in Hi;
      discriminate.
  - apply sorted_order, start_sorted.
  - intros n Hn. rewrite start_effects. fold world.
    split; rewrite !in_app_iff; right; right.
    + left. now apply in_map.
    + right. left. now apply in_map.
  - intros sc r Hsc Hr. unfold world, attach. rewrite Hsc, Hr.
    apply nodes_addChild.
Qed.

(** The node ["child"] of the scene of [three_nodes]. *)
Lemma start_two_phases_witness :
  In "child"%string (nodes (root (fst (attach three_nodes)))) /\
  In (Initialize "child")
     (snd (start nodes nodes three_nodes (JS.Fin 5000))) /\
  In (PostInitialize "child")
     (snd (start nodes nodes three_nodes (JS.Fin 5000))).
Proof.
  assert (H : In "child"%string (nodes (root (fst (attach three_nodes)))))
    by (cbn; tauto).
  split; [exact H|].
  exact (proj1 (proj2 (proj2 (proj2 (proj2 (proj2 (proj2
           (start_two_phases_then_tick nodes nodes three_nodes
              (JS.Fin 5000))))))))
               "child"%string H).
Defined.

End FrameProofs.

(** ** The canvas *)
Module ViewportProofs.

Import Viewport JSFacts.

Local Open Scope Q_scope.

Section KeepAspect.

Variable host : Host.
Variable app : Application.
Variables ww wh cw ch : Q.

Hypothesis browser_host : isCocoonJS host = false.
Hypothesis keep : _fillMode app = FILLMODE_KEEP_ASPECT.
Hypothesis window_width : innerWidth host = JS.Fin ww.
Hypothesis window_height : innerHeight host = JS.Fin wh.
Hypothesis backing_width : canvas_width host = JS.Fin cw.
Hypothesis backing_height : canvas_height host = JS.Fin ch.

Let r : JS.number := JS.div (canvas_width host) (canvas_height host).
Let winR : JS.number := JS.div (innerWidth host) (innerHeight host).

(** Which side is copied and which is derived, whatever the numbers. *)
Lemma keep_aspect_size w h :
  snd (resizeCanvas host app w h) =
  if JS.gt r winR
  then {| width := Some (innerWidth host);
          height := Some (JS.div (innerWidth host) r) |}
  else {| width := Some (JS.mul (innerHeight host) r);
          height := Some (innerHeight host) |}.
Proof.
  unfold resizeCanvas. rewrite browser_host, keep. cbn [String.eqb].
  change (String.eqb FILLMODE_KEEP_ASPECT FILLMODE_KEEP_ASPECT) with true.
  cbv iota. fold r winR.
  destruct (JS.gt r winR);
    destruct (String.eqb (_resolutionMode app) RESOLUTION_AUTO); reflexivity.
Qed.

(** In exact arithmetic, that is, leaving rounding aside, and for
    positive dimensions, the size returned has the ratio [r] and fits
    in the window. *)
Hypothesis ww_pos : 0 < ww.
Hypothesis wh_pos : 0 < wh.
Hypothesis cw_pos : 0 < cw.
Hypothesis ch_pos : 0 < ch.

Lemma keep_aspect_ratio w h :
  aspect (snd (resizeCanvas host app w h)) = Some r.
Proof.
  rewrite keep_aspect_size. unfold r, winR.
  rewrite window_width, window_height, backing_width, backing_height.
  rewrite !div_pos by assumption.
  assert (Hr : 0 < Qred (cw / ch)) by (apply Qred_pos, Qdiv_pos; assumption).
  destruct (JS.gt _ _); unfold aspect; cbn [width height]; f_equal.
  - unfold JS.fin at 1. rewrite (div_pos ww) by assumption.
    unfold JS.fin at 1.
    rewrite div_pos by (apply Qred_pos, Qdiv_pos; assumption).
    apply fin_eq. rewrite !Qred_correct. field. repeat split; lra.
  - unfold JS.fin at 1. cbn [JS.mul].
    unfold JS.fin at 1. rewrite div_pos by assumption.
    apply fin_eq. rewrite !Qred_correct. field. repeat split; lra.
Qed.

Lemma keep_aspect_fits w h :
  exists x y,
    snd (resizeCanvas host app w h)
      = {| width := Some (JS.Fin x); height := Some (JS.Fin y) |} /\
    x <= ww /\ y <= wh.
Proof.
  rewrite keep_aspect_size. unfold r, winR.
  rewrite window_width, window_height, backing_width, backing_height.
  rewrite !div_pos by assumption.
  assert (Hr : 0 < Qred (cw / ch)) by (apply Qred_pos, Qdiv_pos; assumption).
  assert (Hw : ww == (ww / wh) * wh) by (field; lra).
  unfold JS.fin at 1 2. cbn [JS.gt].
  destruct (Qred (cw / ch) ?= Qred (ww / wh)) eqn:E.
  - apply Qeq_alt in E. rewrite (Qred_correct (ww / wh)) in E.
    exists (Qred (wh * Qred (cw / ch))), wh.
    split; [reflexivity|]. split; [|lra].
    rewrite Qred_correct, E. lra.
  - apply Qlt_alt in E. rewrite (Qred_correct (ww / wh)) in E.
    exists (Qred (wh * Qred (cw / ch))), wh.
    split; [reflexivity|]. split; [|lra].
    rewrite Qred_correct. nra.
  - apply Qgt_alt in E. rewrite (Qred_correct (ww / wh)) in E.
    exists ww, (Qred (ww / Qred (cw / ch))).
    split.
    + unfold JS.fin. now rewrite div_pos by assumption.
    + split; [lra|]. rewrite Qred_correct.
      apply Qle_shift_div_r; [assumption|]. nra.
Qed.

End KeepAspect.




End ViewportProofs.

(** ** Fullscreen *)
Module FullscreenProofs.

Import Fullscreen.

Lemma same_eq a b : same a b = true <-> a = b.
Proof.
  destruct a as [ta la], b as [tb lb]. unfold same; cbn.
  rewrite andb_true_iff. split.
  - intros [Ht Hl]. f_equal.
    + destruct ta, tb; cbn in Ht; congruence.
    + destruct la, lb; cbn in Hl; try discriminate;
        apply Nat.eqb_eq in Hl; now subst.
  - intros H. injection H as -> ->. split.
    + now destruct tb.
    + destruct lb; cbn; apply Nat.eqb_refl.
Qed.

Lemma registered_In x l : existsb (same x) l = true <-> In x l.
Proof.
  rewrite existsb_exists. split.
  - intros [y [Hy Hs]]. apply same_eq in Hs. now subst.
  - intros H. exists x. split; [assumption | now apply same_eq].
Qed.

Lemma removed_In x y l :
  In x (filter (fun z => negb (same y z)) l) <-> In x l /\ x <> y.
Proof.
  rewrite filter_In, negb_true_iff. split; intros [H1 H2]; split; auto.
  - intros ->. assert (same y y = true) by now apply same_eq. congruence.
  - destruct (same y x) eqn:E; [|reflexivity].
    apply same_eq in E. congruence.
Qed.

Lemma fired_emit e doc :
  fired (emit e doc) =
  fired doc ++ match e with Fired l => [l] | _ => [] end.
Proof.
  unfold fired, emit; cbn. rewrite flat_map_app; cbn. now rewrite app_nil_r.
Qed.

Lemma emit_wf e doc :
  (forall l, e <> Fired l) -> Wf doc -> Wf (emit e doc).
Proof.
  intros He [H1 H2 H3 H4 H5 H6].
  assert (Hf : fired (emit e doc) = fired doc).
  { rewrite fired_emit. destruct e; try apply app_nil_r. now destruct (He l). }
  constructor; rewrite ?Hf; assumption.
Qed.

Lemma fresh_wf doc : Wf doc -> Wf (fresh doc).
Proof.
  intros [H1 H2 H3 H4 H5 H6]. constructor; cbn; try assumption.
  - intros ty l H. specialize (H3 ty l H). lia.
  - intros l H. specialize (H4 l H). cbn in H4. lia.
Qed.

(** Registering a closure made by the current call. *)
Lemma addEventListener_wf l doc :
  Wf doc -> S (call_of l) = calls doc ->
  (forall ty, ~ In (ty, l) (listeners doc)) -> ~ In l (fired doc) ->
  Wf (addEventListener (type_of l) l doc).
Proof.
  intros [H1 H2 H3 H4 H5 H6] Hk Hnew Hnf. unfold addEventListener.
  destruct (existsb _ _) eqn:E; [now constructor|].
  constructor; cbn.
  - apply NoDup_app; [assumption | repeat constructor; intros [] |].
    intros x Hx [<-|[]]. now apply (Hnew (type_of l)).
  - intros ty l' H. apply in_app_or in H. destruct H as [H|[H|[]]].
    + now apply H2.
    + now injection H as <- <-.
  - intros ty l' H. apply in_app_or in H. destruct H as [H|[H|[]]].
    + now apply (H3 ty l').
    + injection H as <- <-. lia.
  - assumption.
  - intros ty l' Hf H. apply in_app_or in H. destruct H as [H|[H|[]]].
    + now apply (H5 ty l').
    + injection H as <- <-. contradiction.
  - assumption.
Qed.

(** A registered listener runs: it is recorded and it is gone. *)
Lemma invoke_wf l doc :
  Wf doc -> In (type_of l, l) (listeners doc) -> Wf (invoke l doc).
Proof.
  intros [H1 H2 H3 H4 H5 H6] Hin.
  assert (Hnf : ~ In l (fired doc)).
  { intros Hf. exact (H5 _ _ Hf Hin). }
  assert (Hinv : invoke l doc =
                 removeEventListener (type_of l) l (emit (Fired l) doc))
    by now destruct l.
  rewrite Hinv. clear Hinv.
  set (doc' := removeEventListener (type_of l) l (emit (Fired l) doc)).
  assert (Hfired : fired doc' = fired doc ++ [l])
    by (change (fired doc') with (fired (emit (Fired l) doc));
        apply fired_emit).
  assert (Hlist : listeners doc' =
                  filter (fun z => negb (same (type_of l, l) z)) (listeners doc))
    by reflexivity.
  assert (Hcalls : calls doc' = calls doc) by reflexivity.
  clearbody doc'.
  constructor; rewrite ?Hfired, ?Hlist, ?Hcalls.
  - now apply NoDup_filter.
  - intros ty l' H. apply removed_In in H. now apply H2.
  - intros ty l' H. apply removed_In in H. now apply (H3 ty l').
  - intros l' H. apply in_app_or in H. destruct H as [H|[<-|[]]].
    + now apply H4.
    + now apply (H3 (type_of l)).
  - intros ty l' Hf H. apply removed_In in H. destruct H as [H Hne].
    apply in_app_or in Hf. destruct Hf as [Hf|[<-|[]]].
    + now apply (H5 ty l').
    + apply Hne. f_equal. now apply H2.
  - apply NoDup_app; [assumption | repeat constructor; intros [] |].
    intros x Hx [<-|[]]. contradiction.
Qed.

Lemma dispatch_wf ty doc : Wf doc -> Wf (dispatch ty doc).
Proof.
  unfold dispatch.
  generalize (filter (fun x => type_eqb ty (fst x)) (listeners doc)).
  intros snapshot. revert doc.
  induction snapshot as [|[ty' l] snapshot IH]; intros doc Hwf; cbn;
    [assumption|].
  apply IH.
  destruct (existsb _ _) eqn:E; [|assumption].
  apply registered_In in E. cbn [snd].
  apply invoke_wf; [assumption|].
  now rewrite <- (wf_typed _ Hwf _ _ E).
Qed.

Lemma fresh_new l doc :
  Wf doc -> call_of l = calls doc ->
  (forall ty, ~ In (ty, l) (listeners (fresh doc))) /\
  ~ In l (fired (fresh doc)).
Proof.
  intros Hwf Hk. split.
  - intros ty H. cbn in H. pose proof (wf_known _ Hwf _ _ H). lia.
  - intros H. change (fired (fresh doc)) with (fired doc) in H.
    pose proof (wf_fired_known _ Hwf _ H). lia.
Qed.

Lemma addEventListener_same ty l doc :
  calls (addEventListener ty l doc) = calls doc /\
  fired (addEventListener ty l doc) = fired doc /\
  (forall x, In x (listeners (addEventListener ty l doc)) ->
             In x (listeners doc) \/ x = (ty, l)).
Proof.
  unfold addEventListener. destruct (existsb _ _); cbn; repeat split; auto.
  intros x H. apply in_app_or in H. destruct H as [H|[H|[]]]; auto.
Qed.

Lemma enableFullscreen_wf s e doc : Wf doc -> Wf (enableFullscreen s e doc).
Proof.
  intros Hwf. unfold enableFullscreen.
  apply emit_wf; [discriminate|].
  assert (H1 : Wf (if s then addEventListener fullscreenchange
                                (EnableSuccess (calls doc)) (fresh doc)
                   else fresh doc)).
  { destruct s; [|now apply fresh_wf].
    destruct (fresh_new (EnableSuccess (calls doc)) doc Hwf eq_refl).
    now apply (addEventListener_wf (EnableSuccess (calls doc)));
      [apply fresh_wf | | |]. }
  destruct e; [|assumption].
  apply (addEventListener_wf (EnableError (calls doc))); [assumption | | |].
  - destruct s; [|reflexivity].
    now rewrite (proj1 (addEventListener_same _ _ _)).
  - intros ty H.
    assert (Hin : In (ty, EnableError (calls doc)) (listeners doc)).
    { destruct s; [|exact H].
      apply addEventListener_same in H. destruct H as [H|H];
        [exact H | discriminate]. }
    pose proof (wf_known _ Hwf _ _ Hin). cbn in *. lia.
  - intros H.
    assert (Hf : In (EnableError (calls doc)) (fired doc)).
    { destruct s; [|exact H].
      now rewrite (proj1 (proj2 (addEventListener_same _ _ _))) in H. }
    pose proof (wf_fired_known _ Hwf _ Hf). cbn in *. lia.
Qed.

Lemma disableFullscreen_wf s doc : Wf doc -> Wf (disableFullscreen s doc).
Proof.
  intros Hwf. unfold disableFullscreen.
  apply emit_wf; [discriminate|].
  destruct s; [|now apply fresh_wf].
  destruct (fresh_new (DisableSuccess (calls doc)) doc Hwf eq_refl).
  now apply (addEventListener_wf (DisableSuccess (calls doc)));
    [apply fresh_wf | | |].
Qed.

Lemma step_wf doc s : Wf doc -> Wf (step doc s).
Proof.
  destruct s; cbn.
  - apply enableFullscreen_wf.
  - apply disableFullscreen_wf.
  - apply dispatch_wf.
Qed.

Lemma run_wf steps : Wf (run steps).
Proof.
  unfold run.
  assert (H0 : Wf initial) by (constructor; cbn; try tauto; constructor).
  revert H0. generalize initial.
  induction steps as [|s steps IH]; intros doc Hwf; cbn; [assumption|].
  apply IH. now apply step_wf.
Qed.

(** Dispatching an event leaves the listeners of the other event
    registered. *)
Lemma dispatch_keeps ty ty' l doc :
  Wf doc -> In (ty, l) (listeners doc) -> ty' <> ty ->
  In (ty, l) (listeners (dispatch ty' doc)).
Proof.
  intros Hwf Hin Hne. unfold dispatch.
  assert (Hsnap : forall x,
            In x (filter (fun x => type_eqb ty' (fst x)) (listeners doc)) ->
            fst x = ty').
  { intros [t l'] Hx. apply filter_In in Hx. destruct Hx as [_ Hx].
    cbn in *. now destruct ty', t. }
  revert Hsnap.
  generalize (filter (fun x => type_eqb ty' (fst x)) (listeners doc)).
  intros snapshot. revert doc Hwf Hin.
  induction snapshot as [|[t l'] snapshot IH]; intros doc Hwf Hin Hsnap; cbn;
    [assumption|].
  assert (Ht : t = ty') by (apply (Hsnap (t, l')); now left).
  assert (Hrest : forall x, In x snapshot -> fst x = ty')
    by (intros x Hx; apply Hsnap; now right).
  destruct (existsb _ _) eqn:E; [|now apply IH].
  apply registered_In in E. cbn [snd].
  pose proof (wf_typed _ Hwf _ _ E) as Hty.
  apply IH; [apply invoke_wf; [assumption | now rewrite <- Hty] | | assumption].
  assert (Hinv : invoke l' doc =
                 removeEventListener (type_of l') l' (emit (Fired l') doc))
    by now destruct l'.
  rewrite Hinv. cbn. apply removed_In. split; [assumption|].
  intros Heq. injection Heq as Heq _. congruence.
Qed.

Lemma filter_none {A} (f : A -> bool) l :
  (forall x, In x l -> f x = false) -> filter f l = [].
Proof.
  intros H. rewrite (filter_ext_in f (fun _ => false) l H). apply filter_false.
Qed.

Lemma filter_all {A} (f : A -> bool) l :
  (forall x, In x l -> f x = true) -> filter f l = l.
Proof.
  intros H. rewrite (filter_ext_in f (fun _ => true) l H). apply filter_true.
Qed.

Lemma leaked_no_change n x :
  In x (leaked n) -> fst x = fullscreenerror /\ call_of (snd x) < n.
Proof.
  unfold leaked. intros H. apply in_map_iff in H.
  destruct H as [k [<- Hk]]. apply in_seq in Hk. cbn. split; [reflexivity | lia].
Qed.

(** Every settled round leaves its error listener behind. *)
Lemma rounds_leak n :
  listeners (run (rounds n)) = leaked n /\ calls (run (rounds n)) = n.
Proof.
  induction n as [|n [IHl IHc]]; [split; reflexivity|].
  cbn [rounds]. unfold run in *. rewrite fold_left_app.
  set (doc := fold_left step (rounds n) initial) in *.
  cbn [fold_left step].
  assert (Hnew1 : existsb (same (fullscreenchange, EnableSuccess n))
                          (leaked n) = false).
  { destruct (existsb _ _) eqn:E; [|reflexivity].
    apply registered_In, leaked_no_change in E. destruct E; discriminate. }
  assert (Hnew2 : existsb (same (fullscreenerror, EnableError n))
                          (leaked n ++ [(fullscreenchange, EnableSuccess n)])
                  = false).
  { destruct (existsb (same (fullscreenerror, EnableError n)) _) eqn:E;
      [|reflexivity].
    apply registered_In, in_app_or in E. destruct E as [E|[E|[]]].
    - apply leaked_no_change in E. cbn in E. lia.
    - discriminate. }
  assert (Hen : enableFullscreen true true doc =
                mkDocument (leaked n ++ [(fullscreenchange, EnableSuccess n);
                                         (fullscreenerror, EnableError n)])
                           (S n) (log doc ++ [RequestFullscreen])).
  { unfold enableFullscreen, addEventListener, fresh, emit. rewrite IHc.
    cbn [listeners calls log]. rewrite IHl, Hnew1.
    cbn [listeners calls log]. rewrite Hnew2.
    cbn [listeners calls log]. now rewrite <- app_assoc. }
  rewrite Hen. unfold dispatch. cbn [listeners].
  assert (Hsnap : filter (fun x => type_eqb fullscreenchange (fst x))
                    (leaked n ++ [(fullscreenchange, EnableSuccess n);
                                  (fullscreenerror, EnableError n)])
                  = [(fullscreenchange, EnableSuccess n)]).
  { rewrite filter_app. cbn.
    rewrite filter_none; [reflexivity|].
    intros x Hx. apply leaked_no_change in Hx.
    destruct Hx as [-> _]. reflexivity. }
  rewrite Hsnap. cbn [fold_left listeners].
  assert (Hreg : existsb (same (fullscreenchange, EnableSuccess n))
                   (leaked n ++ [(fullscreenchange, EnableSuccess n);
                                 (fullscreenerror, EnableError n)]) = true).
  { apply registered_In, in_or_app. right. now left. }
  rewrite Hreg. cbn [snd invoke removeEventListener emit listeners calls log].
  split; [|reflexivity].
  rewrite filter_app. cbn. rewrite Nat.eqb_refl. cbn.
  rewrite filter_all.
  - change ((fullscreenerror, EnableError 0)
            :: map (fun k => (fullscreenerror, EnableError k)) (seq 1 n))
      with (leaked (S n)).
    unfold leaked. rewrite seq_S, map_app. reflexivity.
  - intros x Hx. apply leaked_no_change in Hx.
    destruct x as [t l]. cbn in Hx. destruct Hx as [-> _]. reflexivity.
Qed.

End FullscreenProofs.

(** ** [loadFromToc] *)
Module TocProofs.

Import Toc.

(** C10.  Without a content table, [loadFromToc] calls the given error
    function with ['No content'] and then goes on to read [toc] of the
    missing table, which throws; when no error function is given, the
    call of [error] itself throws, before the missing functions are
    replaced by empty ones and before anything else is done. *)
Theorem loadFromToc_without_content app name success error progress :
  content app = None ->
  loadFromToc app name success error progress =
  match error with
  | Some f => ([Call f "No content"], Throw (PropertyOfUndefined "toc"))
  | None => ([], Throw (NotAFunction "error"))
  end.
Proof.
  intros Hc. unfold loadFromToc. rewrite Hc.
  destruct error as [f|]; reflexivity.
Qed.

(** On a fresh application, with and without an error function. *)
Lemma loadFromToc_without_content_witness :
  loadFromToc fresh "main" (Some (Given 0)) (Some (Given 1)) None =
    ([Call (Given 1) "No content"], Throw (PropertyOfUndefined "toc")) /\
  loadFromToc fresh "main" (Some (Given 0)) None None =
    ([], Throw (NotAFunction "error")).
Proof.
  split.
  - exact (loadFromToc_without_content fresh "main" (Some (Given 0))
             (Some (Given 1)) None eq_refl).
  - exact (loadFromToc_without_content fresh "main" (Some (Given 0))
             None None eq_refl).
Defined.

End TocProofs.

(** ** More about the preload batch *)
Module PreloadExtras.

Import Preload PreloadProofs PreloadTrace PreloadReports PreloadReportsProofs.

(** A property kept by the steps of [preload] is kept by every run. *)
Section Invariant.

Variable env : Loader.
Variable assets : list Asset.
Variable scripts : list string.
Variable scriptPrefix : string.
Variable P : State -> Prop.

Let a := List.length assets.
Let s := List.length scripts.

Hypothesis P_request :
  forall e st, is_callback e = false -> (forall it, e <> Settled it) ->
               (forall f, e <> FireProgress f) ->
               (forall b, e <> SetPreloading b) ->
               (forall x, e <> ConsoleError x) -> e <> ConsoleLog ->
               P st -> P (emit e st).
Hypothesis P_listeners :
  forall ls es cs st, P st -> P (set_listeners ls es cs st).
Hypothesis P_asset :
  forall i st, i < a -> Wf st -> Progress.length (_assets st) = a ->
               Progress.length (_scripts st) = s ->
               P st -> P (asset_settled i st).
Hypothesis P_script :
  forall j err st, j < s -> Wf st -> Progress.length (_assets st) = a ->
                   Progress.length (_scripts st) = s ->
                   P st -> P (script_callback j err st).
Hypothesis P_done : forall st, P st -> P (done st).

Let Kept (st : State) : Prop := GoodFor a s st /\ P st.

Lemma deliver_kept st ev : Kept st -> Kept (deliver st ev).
Proof.
  intros [Hg Hp]. split; [now apply deliver_good|].
  assert (Hwf : Wf st) by apply Hg.
  assert (Ha : Progress.length (_assets st) = a) by apply Hg.
  assert (Hs : Progress.length (_scripts st) = s) by apply Hg.
  destruct ev as [i | i | j err]; cbn.
  - destruct (mem i (load_once st)) eqn:Hm; [|assumption].
    apply mem_In in Hm.
    assert (Hg' : GoodFor a s (set_listeners (drop i (load_once st))
                                 (error_once st) (loader_callbacks st) st)).
    { apply listeners_good; [assumption|..]; rewrite <- ?Ha, <- ?Hs.
      - intros k Hk. apply drop_In in Hk. now apply wf_load_once.
      - apply wf_error_once; assumption.
      - apply wf_callbacks; assumption. }
    apply P_asset; [|apply Hg'|apply Hg'|apply Hg'|now apply P_listeners].
    rewrite <- Ha. now apply wf_load_once.
  - destruct (mem i (error_once st)) eqn:Hm; [|assumption].
    apply mem_In in Hm.
    assert (Hg' : GoodFor a s (set_listeners (load_once st)
                                 (drop i (error_once st))
                                 (loader_callbacks st) st)).
    { apply listeners_good; [assumption|..]; rewrite <- ?Ha, <- ?Hs.
      - apply wf_load_once; assumption.
      - intros k Hk. apply drop_In in Hk. now apply wf_error_once.
      - apply wf_callbacks; assumption. }
    apply P_asset; [|apply Hg'|apply Hg'|apply Hg'|now apply P_listeners].
    rewrite <- Ha. now apply wf_error_once.
  - destruct (mem j (loader_callbacks st)) eqn:Hm; [|assumption].
    apply mem_In in Hm.
    apply P_script; try assumption.
    rewrite <- Hs. now apply wf_callbacks.
Qed.

Lemma deliver_all_kept evs : forall st, Kept st -> Kept (deliver_all evs st).
Proof.
  induction evs as [|ev evs IH]; intros st Hk; cbn; [assumption|].
  apply IH. now apply deliver_kept.
Qed.

Lemma asset_step_kept st i :
  Kept st -> i < a -> Kept (asset_step env assets st i).
Proof.
  intros [Hg Hp] Hi. split; [now apply asset_step_good|].
  unfold asset_step.
  destruct (loaded _).
  - apply P_asset; try assumption; apply Hg.
  - assert (Hwf : Wf st) by apply Hg.
    assert (Ha : Progress.length (_assets st) = a) by apply Hg.
    assert (Hs : Progress.length (_scripts st) = s) by apply Hg.
    apply deliver_all_kept. split.
    + apply emit_good; [reflexivity | discriminate |].
      apply listeners_good; [assumption|..]; rewrite <- ?Ha, <- ?Hs.
      * intros k Hk. apply in_app_or in Hk. destruct Hk as [Hk|[Hk|[]]].
        -- now apply wf_load_once.
        -- subst k. now rewrite Ha.
      * intros k Hk. apply in_app_or in Hk. destruct Hk as [Hk|[Hk|[]]].
        -- now apply wf_error_once.
        -- subst k. now rewrite Ha.
      * apply wf_callbacks; assumption.
    + apply P_request; try discriminate; try reflexivity.
      now apply P_listeners.
Qed.

Lemma script_step_kept st j :
  Kept st -> j < s -> Kept (script_step env scripts scriptPrefix st j).
Proof.
  intros [Hg Hp] Hj. split; [now apply script_step_good|].
  unfold script_step.
  assert (Hwf : Wf st) by apply Hg.
  assert (Ha : Progress.length (_assets st) = a) by apply Hg.
  assert (Hs : Progress.length (_scripts st) = s) by apply Hg.
  apply deliver_all_kept. split.
  - apply emit_good; [reflexivity | discriminate |].
    apply listeners_good; [assumption|..]; rewrite <- ?Ha, <- ?Hs.
    + apply wf_load_once; assumption.
    + apply wf_error_once; assumption.
    + intros k Hk. apply in_app_or in Hk. destruct Hk as [Hk|[Hk|[]]].
      * now apply wf_callbacks.
      * subst k. now rewrite Hs.
  - apply P_request; try discriminate; try reflexivity.
    now apply P_listeners.
Qed.

Lemma loop_kept (step : State -> nat -> State) n :
  (forall st i, Kept st -> i < n -> Kept (step st i)) ->
  forall k st, k <= n -> Kept st ->
  Kept (fold_left step (seq (n - k) k) st).
Proof.
  intros Hstep. induction k as [|k IH]; intros st Hk Hg; cbn; [assumption|].
  replace (S (n - S k)) with (n - k) by lia.
  apply IH; [lia|]. apply Hstep; [assumption | lia].
Qed.

Hypothesis P_init : P (init assets scripts).

Lemma assets_phase_kept : Kept (assets_phase env assets (init assets scripts)).
Proof.
  split; [apply assets_phase_good|].
  unfold assets_phase. cbn [init _assets Progress.length].
  destruct (Nat.eqb_spec (List.length assets) 0) as [Hz|Hnz].
  - now apply P_done.
  - replace (seq 0 (List.length assets))
      with (seq (List.length assets - List.length assets) (List.length assets))
      by (now rewrite Nat.sub_diag).
    apply loop_kept; [apply asset_step_kept | reflexivity |].
    split; [|assumption].
    unfold GoodFor, Good, Latched, settled_once, callbacks_invoked,
      Progress.done.
    cbn. split; [split|auto].
    + constructor; cbn; try (intros k []); try reflexivity; try discriminate.
      apply (Flagged_other _ _ [] (SetPreloading true) (Flagged_nil _ _) eq_refl).
    + intros _. split; [discriminate|]. intros [H _].
      destruct (List.length assets); [lia | discriminate].
Qed.

Lemma scripts_phase_kept st :
  Kept st -> Kept (scripts_phase env scripts scriptPrefix st).
Proof.
  intros [Hg Hp]. split; [now apply scripts_phase_good|].
  unfold scripts_phase.
  assert (Hs : Progress.length (_scripts st) = s) by apply Hg.
  rewrite Hs.
  destruct (Nat.eqb_spec s 0) as [Hz|Hnz].
  - now apply P_done.
  - replace (seq 0 s) with (seq (s - s) s) by (now rewrite Nat.sub_diag).
    apply loop_kept; [apply script_step_kept | reflexivity | now split].
Qed.

Lemma run_kept later : P (run env assets scripts scriptPrefix later).
Proof.
  apply deliver_all_kept, scripts_phase_kept, assets_phase_kept.
Qed.

End Invariant.

(** *** What is requested *)

Lemma requests_emit e st :
  asset_requests (emit e st) =
    asset_requests st ++ match e with AssetsLoad i => [i] | _ => [] end /\
  script_requests (emit e st) =
    script_requests st ++ match e with LoaderLoad p u => [(p, u)] | _ => [] end.
Proof.
  unfold asset_requests, script_requests, emit; cbn.
  rewrite !flat_map_app; cbn. now rewrite !app_nil_r.
Qed.

Lemma requests_done st :
  asset_requests (done st) = asset_requests st /\
  script_requests (done st) = script_requests st.
Proof.
  unfold done. destruct (_ && _); [|auto].
  destruct (requests_emit (Callback []) (emit (SetPreloading false) (latch st)))
    as [-> ->].
  destruct (requests_emit (SetPreloading false) (latch st)) as [-> ->].
  cbn. now rewrite !app_nil_r.
Qed.

Lemma requests_asset_settled i st :
  asset_requests (asset_settled i st) = asset_requests st /\
  script_requests (asset_settled i st) = script_requests st.
Proof.
  unfold asset_settled.
  set (st1 := emit _ (inc_assets i st)).
  assert (H1 : asset_requests st1 = asset_requests st /\
               script_requests st1 = script_requests st).
  { unfold st1. destruct (requests_emit
      (FireProgress (JS.div (JS.of_nat (count (inc_assets i st)))
                            (JS.of_nat (total (inc_assets i st)))))
      (inc_assets i st)) as [-> ->].
    unfold asset_requests, script_requests, inc_assets; cbn.
    rewrite !flat_map_app; cbn. now rewrite !app_nil_r. }
  destruct (Progress.done (_assets st1)); [|exact H1].
  destruct (requests_done st1) as [-> ->]. exact H1.
Qed.

Lemma requests_script_callback j err st :
  asset_requests (script_callback j err st) = asset_requests st /\
  script_requests (script_callback j err st) = script_requests st.
Proof.
  unfold script_callback.
  set (st0 := match err with Some e => emit (ConsoleError e) st
                           | None => emit ConsoleLog st end).
  assert (H0 : asset_requests st0 = asset_requests st /\
               script_requests st0 = script_requests st).
  { unfold st0. destruct err as [e|].
    - destruct (requests_emit (ConsoleError e) st) as [-> ->].
      cbn. now rewrite !app_nil_r.
    - destruct (requests_emit ConsoleLog st) as [-> ->].
      cbn. now rewrite !app_nil_r. }
  set (st1 := inc_scripts j st0).
  assert (H1 : asset_requests st1 = asset_requests st /\
               script_requests st1 = script_requests st).
  { destruct H0 as [<- <-].
    unfold st1, asset_requests, script_requests, inc_scripts; cbn.
    rewrite !flat_map_app; cbn. now rewrite !app_nil_r. }
  destruct (Progress.done (_scripts st1)); [|exact H1].
  destruct (requests_done st1) as [-> ->]. exact H1.
Qed.

Lemma requests_deliver st ev :
  asset_requests (deliver st ev) = asset_requests st /\
  script_requests (deliver st ev) = script_requests st.
Proof.
  destruct ev as [i | i | j err]; cbn.
  - destruct (mem i (load_once st)); [|auto].
    now destruct (requests_asset_settled i
      (set_listeners (drop i (load_once st)) (error_once st)
                     (loader_callbacks st) st)) as [-> ->].
  - destruct (mem i (error_once st)); [|auto].
    now destruct (requests_asset_settled i
      (set_listeners (load_once st) (drop i (error_once st))
                     (loader_callbacks st) st)) as [-> ->].
  - destruct (mem j (loader_callbacks st)); [|auto].
    apply requests_script_callback.
Qed.

Lemma requests_deliver_all evs : forall st,
  asset_requests (deliver_all evs st) = asset_requests st /\
  script_requests (deliver_all evs st) = script_requests st.
Proof.
  induction evs as [|ev evs IH]; intros st; [cbn; auto|].
  change (deliver_all (ev :: evs) st) with (deliver_all evs (deliver st ev)).
  destruct (IH (deliver st ev)) as [-> ->]. apply requests_deliver.
Qed.

Section Requests.

Variable env : Loader.
Variable assets : list Asset.
Variable scripts : list string.
Variable scriptPrefix : string.

Let is_pending (i : nat) : bool :=
  negb (loaded (nth i assets {| name := EmptyString; loaded := false |})).

Lemma requests_asset_step st i :
  asset_requests (asset_step env assets st i) =
    asset_requests st ++ (if is_pending i then [i] else []) /\
  script_requests (asset_step env assets st i) = script_requests st.
Proof.
  unfold asset_step, is_pending.
  destruct (loaded _); cbn [negb].
  - destruct (requests_asset_settled i st) as [-> ->].
    now rewrite app_nil_r.
  - destruct (requests_deliver_all (during_assets_load env i)
                (emit (AssetsLoad i)
                   (set_listeners (load_once st ++ [i]) (error_once st ++ [i])
                      (loader_callbacks st) st))) as [-> ->].
    destruct (requests_emit (AssetsLoad i)
                (set_listeners (load_once st ++ [i]) (error_once st ++ [i])
                   (loader_callbacks st) st)) as [-> ->].
    cbn. now rewrite app_nil_r.
Qed.

Lemma requests_script_step st j :
  asset_requests (script_step env scripts scriptPrefix st j) =
    asset_requests st /\
  script_requests (script_step env scripts scriptPrefix st j) =
    script_requests st ++ [(scriptPrefix, nth j scripts EmptyString)].
Proof.
  unfold script_step.
  destruct (requests_deliver_all (during_loader_load env j)
              (emit (LoaderLoad scriptPrefix (nth j scripts EmptyString))
                 (set_listeners (load_once st) (error_once st)
                    (loader_callbacks st ++ [j]) st))) as [-> ->].
  destruct (requests_emit (LoaderLoad scriptPrefix (nth j scripts EmptyString))
              (set_listeners (load_once st) (error_once st)
                 (loader_callbacks st ++ [j]) st)) as [-> ->].
  cbn. now rewrite app_nil_r.
Qed.

Lemma requests_asset_loop l : forall st,
  asset_requests (fold_left (asset_step env assets) l st) =
    asset_requests st ++ filter is_pending l /\
  script_requests (fold_left (asset_step env assets) l st) =
    script_requests st.
Proof.
  induction l as [|i l IH]; intros st; cbn [fold_left filter].
  - now rewrite app_nil_r.
  - destruct (IH (asset_step env assets st i)) as [-> ->].
    destruct (requests_asset_step st i) as [-> ->].
    split; [|reflexivity]. rewrite <- app_assoc. f_equal.
    now destruct (is_pending i).
Qed.

Lemma requests_script_loop l : forall st,
  asset_requests (fold_left (script_step env scripts scriptPrefix) l st) =
    asset_requests st /\
  script_requests (fold_left (script_step env scripts scriptPrefix) l st) =
    script_requests st
    ++ map (fun j => (scriptPrefix, nth j scripts EmptyString)) l.
Proof.
  induction l as [|j l IH]; intros st; cbn [fold_left map].
  - now rewrite app_nil_r.
  - destruct (IH (script_step env scripts scriptPrefix st j)) as [-> ->].
    destruct (requests_script_step st j) as [-> ->].
    split; [reflexivity|]. now rewrite <- app_assoc.
Qed.

Lemma map_nth_seq {A} (l : list A) (d : A) :
  map (fun j => nth j l d) (seq 0 (List.length l)) = l.
Proof.
  induction l as [|x l IH]; [reflexivity|].
  cbn [List.length seq map nth]. f_equal.
  rewrite <- seq_shift, map_map. exact IH.
Qed.

(** X1.  Whatever the loader reports and whenever, [preload] hands to
    [this.assets.load] exactly the assets that are not loaded yet, each
    once and in list order, and to [this.loader.load] exactly the
    preload scripts, each once and in order, under the script prefix.
    An asset that is already loaded is never requested. *)
Theorem preload_requests_each_item_once later :
  let final := run env assets scripts scriptPrefix later in
  asset_requests final = pending_indices assets /\
  script_requests final = map (fun u => (scriptPrefix, u)) scripts.
Proof.
  intros final. unfold final, run.
  destruct (requests_deliver_all later
              (preload env assets scripts scriptPrefix)) as [-> ->].
  unfold preload, scripts_phase, assets_phase.
  set (st0 := init assets scripts).
  set (st1 := if Progress.length (_assets st0) =? 0 then done st0
              else fold_left (asset_step env assets)
                     (seq 0 (Progress.length (_assets st0))) st0).
  assert (H1 : asset_requests st1 = pending_indices assets /\
               script_requests st1 = []).
  { unfold st1, st0. cbn [init _assets Progress.length].
    destruct (Nat.eqb_spec (List.length assets) 0) as [Hz|Hnz].
    - destruct (requests_done (init assets scripts)) as [-> ->].
      unfold pending_indices. rewrite Hz. split; reflexivity.
    - destruct (requests_asset_loop (seq 0 (List.length assets))
                  (init assets scripts)) as [-> ->].
      split; reflexivity. }
  assert (Hlen : Progress.length (_scripts st1) = List.length scripts).
  { apply (assets_phase_good env assets scripts). }
  rewrite Hlen.
  destruct (Nat.eqb_spec (List.length scripts) 0) as [Hz|Hnz].
  - destruct (requests_done st1) as [-> ->].
    destruct H1 as [-> ->]. split; [reflexivity|].
    destruct scripts; [reflexivity | discriminate].
  - destruct (requests_script_loop (seq 0 (List.length scripts)) st1)
      as [-> ->].
    destruct H1 as [-> ->]. split; [reflexivity|]. cbn [app].
    rewrite <- (map_map (fun j => nth j scripts EmptyString)
                        (fun u => (scriptPrefix, u))).
    now rewrite map_nth_seq.
Qed.

End Requests.

(** *** What is reported *)

Lemma sorted_snoc (cs : list nat) (c : nat) :
  StronglySorted lt cs -> Forall (fun k => k < c) cs ->
  StronglySorted lt (cs ++ [c]).
Proof.
  induction 1 as [|x cs Hs IH Hx]; intros Hall; cbn.
  - repeat constructor.
  - inversion Hall as [|? ? Hxc Hrest]; subst.
    constructor; [now apply IH|].
    apply Forall_app. split; [assumption | now repeat constructor].
Qed.

Lemma fractions_inc_assets i st : fractions (inc_assets i st) = fractions st.
Proof.
  unfold fractions, inc_assets; cbn. rewrite flat_map_app. apply app_nil_r.
Qed.

Lemma fractions_inc_scripts j st : fractions (inc_scripts j st) = fractions st.
Proof.
  unfold fractions, inc_scripts; cbn. rewrite flat_map_app. apply app_nil_r.
Qed.

Lemma count_done st : count (done st) = count st /\ total (done st) = total st.
Proof.
  destruct (settled_done st) as (_ & _ & E3 & E4 & E5).
  unfold count. now rewrite E3, E4, E5.
Qed.

(** What a settlement does to the reported fractions and to the count. *)
Lemma asset_settled_reports i st :
  fractions (asset_settled i st) =
    fractions st ++ [fraction (total st) (S (count st))] /\
  count (asset_settled i st) = S (count st) /\
  total (asset_settled i st) = total st /\
  Progress.count (_scripts (asset_settled i st)) = Progress.count (_scripts st).
Proof.
  unfold asset_settled.
  set (st1 := emit _ (inc_assets i st)).
  assert (H1 : fractions st1 =
               fractions st ++ [fraction (total st) (S (count st))]).
  { unfold st1. rewrite fractions_emit, fractions_inc_assets. reflexivity. }
  assert (H2 : count st1 = S (count st)) by reflexivity.
  assert (H3 : total st1 = total st) by reflexivity.
  assert (H4 : Progress.count (_scripts st1) = Progress.count (_scripts st))
    by reflexivity.
  destruct (Progress.done (_assets st1)); [|auto].
  destruct (count_done st1) as [-> ->].
  destruct (settled_done st1) as (_ & _ & _ & -> & _).
  rewrite fractions_done. auto.
Qed.

Lemma script_callback_reports j err st :
  fractions (script_callback j err st) = fractions st /\
  count (script_callback j err st) = S (count st) /\
  total (script_callback j err st) = total st.
Proof.
  unfold script_callback.
  set (st0 := match err with Some e => emit (ConsoleError e) st
                           | None => emit ConsoleLog st end).
  assert (H0 : fractions st0 = fractions st /\ count st0 = count st /\
               total st0 = total st).
  { unfold st0. destruct err; rewrite fractions_emit; cbn;
      rewrite app_nil_r; auto. }
  destruct H0 as (F0 & C0 & T0).
  set (st1 := inc_scripts j st0).
  assert (H1 : fractions st1 = fractions st)
    by (unfold st1; now rewrite fractions_inc_scripts).
  assert (H2 : count st1 = S (count st)).
  { unfold st1. rewrite <- C0. unfold count; cbn. lia. }
  assert (H3 : total st1 = total st) by (unfold st1; cbn; exact T0).
  destruct (Progress.done (_scripts st1)); [|auto].
  destruct (count_done st1) as [-> ->]. rewrite fractions_done. auto.
Qed.

Section Reports.

Variable env : Loader.
Variable assets : list Asset.
Variable scripts : list string.
Variable scriptPrefix : string.

Let a := List.length assets.
Let s := List.length scripts.

Lemma run_rising later :
  Rising a s (run env assets scripts scriptPrefix later).
Proof.
  apply run_kept; unfold Rising, reports.
  - intros e st He1 He2 He3 He4 He5 He6 (cs & H1 & H2 & H3 & H4 & H5).
    exists cs. rewrite fractions_emit.
    destruct e; try (now destruct (He3 fraction0)); cbn;
      rewrite ?app_nil_r; auto.
  - intros ls es cs' st (cs & H1 & H2 & H3 & H4 & H5). now exists cs.
  - intros i st Hi _ _ _ (cs & H1 & H2 & H3 & H4 & H5).
    destruct (asset_settled_reports i st) as (F & C & T & _).
    exists (cs ++ [S (count st)]). rewrite F, C, T, H1, map_app.
    split; [reflexivity|]. split; [|split; [|split]].
    + apply sorted_snoc; [assumption|].
      eapply Forall_impl; [|exact H3]. cbn. intros c Hc. lia.
    + apply Forall_app. split.
      * eapply Forall_impl; [|exact H3]. cbn. intros c Hc. lia.
      * constructor; [lia | constructor].
    + assumption.
    + intros _. fold a in Hi. lia.
  - intros j err st _ _ _ _ (cs & H1 & H2 & H3 & H4 & H5).
    destruct (script_callback_reports j err st) as (F & C & T).
    exists cs. rewrite F, C, T. repeat split; try assumption.
    eapply Forall_impl; [|exact H3]. cbn. intros c Hc. lia.
  - intros st (cs & H1 & H2 & H3 & H4 & H5).
    destruct (count_done st) as [C T].
    exists cs. rewrite fractions_done, C, T. auto.
  - exists []. repeat split; try constructor. intros H. now destruct H.
Qed.

Lemma nat_Qlt (n m : nat) :
  n < m -> (inject_Z (Z.of_nat n) < inject_Z (Z.of_nat m))%Q.
Proof. intros H. rewrite <- Zlt_Qlt. lia. Qed.

Lemma nat_Qle (n m : nat) :
  n <= m -> (inject_Z (Z.of_nat n) <= inject_Z (Z.of_nat m))%Q.
Proof. intros H. rewrite <- Zle_Qle. lia. Qed.

(** The fraction of a count, as a rational in lowest terms. *)
Lemma fraction_ratio total c :
  0 < total ->
  fraction total c =
  JS.Fin (Qred (inject_Z (Z.of_nat c) / inject_Z (Z.of_nat total))).
Proof.
  intros Ht. unfold fraction, JS.of_nat.
  rewrite JSFacts.div_pos; [reflexivity|].
  apply (nat_Qlt 0 total Ht).
Qed.

Lemma ratio_lt total c1 c2 :
  0 < total -> c1 < c2 ->
  (Qred (inject_Z (Z.of_nat c1) / inject_Z (Z.of_nat total)) <
   Qred (inject_Z (Z.of_nat c2) / inject_Z (Z.of_nat total)))%Q.
Proof.
  intros Ht Hc. rewrite !Qred_correct. unfold Qdiv.
  apply Qmult_lt_compat_r; [|now apply nat_Qlt].
  apply Qinv_lt_0_compat, (nat_Qlt 0 total Ht).
Qed.

(** Without duplicates the count never passes the total. *)
Lemma count_bounded st :
  GoodFor a s st -> settled_once st -> count st <= a + s.
Proof.
  intros [[Hwf _] [Ha Hs]] [Na Ns]. unfold count.
  rewrite (wf_assets _ Hwf), (wf_scripts _ Hwf).
  pose proof (wf_assets_range _ Hwf) as Ra.
  pose proof (wf_scripts_range _ Hwf) as Rs.
  rewrite Ha in Ra. rewrite Hs in Rs.
  pose proof (bounded_nodup_length _ a Na Ra).
  pose proof (bounded_nodup_length _ s Ns Rs). lia.
Qed.

(** X2.  In every run the fractions reported by ["preload:progress"]
    are positive and strictly increasing; when no item settles twice
    none of them exceeds 1. *)
Theorem preload_fractions_increase later :
  let final := run env assets scripts scriptPrefix later in
  exists qs,
    fractions final = map JS.Fin qs /\
    StronglySorted Qlt qs /\
    Forall (fun q => (0 < q)%Q) qs /\
    (settled_once final -> Forall (fun q => (q <= 1)%Q) qs).
Proof.
  intros final.
  destruct (run_rising later) as (cs & H1 & H2 & H3 & H4 & H5).
  fold final in H1, H3, H4. unfold reports in H1.
  destruct cs as [|c0 cs'] eqn:Ecs.
  { exists []. repeat split; try constructor. exact H1. }
  assert (Ha : 0 < a) by (apply H5; discriminate).
  clear H5. rewrite <- Ecs in *. clear Ecs.
  assert (Ht : 0 < total final) by lia.
  set (ratio := fun c => Qred (inject_Z (Z.of_nat c)
                               / inject_Z (Z.of_nat (total final)))).
  exists (map ratio cs). split; [|split; [|split]].
  - rewrite H1, map_map. apply map_ext. intros c.
    now apply fraction_ratio.
  - clear H1 H3. induction H2 as [|c cs Hs IH Hc]; cbn; constructor.
    + exact IH.
    + apply Forall_forall. intros q Hq. apply in_map_iff in Hq.
      destruct Hq as [c' [<- Hc']]. rewrite Forall_forall in Hc.
      apply ratio_lt; [assumption | now apply Hc].
  - apply Forall_forall. intros q Hq. apply in_map_iff in Hq.
    destruct Hq as [c [<- Hc]]. rewrite Forall_forall in H3.
    specialize (H3 c Hc). unfold ratio.
    apply JSFacts.Qred_pos, JSFacts.Qdiv_pos.
    + apply (nat_Qlt 0 c). lia.
    + apply (nat_Qlt 0 _ Ht).
  - intros Hso. apply Forall_forall. intros q Hq. apply in_map_iff in Hq.
    destruct Hq as [c [<- Hc]]. rewrite Forall_forall in H3.
    specialize (H3 c Hc). unfold ratio. rewrite Qred_correct.
    apply Qle_shift_div_r; [apply (nat_Qlt 0 _ Ht)|].
    rewrite Qmult_1_l. apply nat_Qle.
    pose proof (count_bounded final (run_good _ _ _ _ later) Hso). lia.
Qed.

(** X3.  A batch without preload assets never fires
    ["preload:progress"], whatever its scripts do. *)
Theorem preload_without_assets_reports_nothing later :
  assets = [] ->
  fractions (run env assets scripts scriptPrefix later) = [].
Proof.
  intros Hnil.
  destruct (run_rising later) as (cs & H1 & _ & _ & _ & H5).
  unfold reports in H1. destruct cs as [|c cs]; [exact H1|].
  assert (H : 0 < a) by (apply H5; discriminate).
  unfold a in H. rewrite Hnil in H. cbn in H. lia.
Qed.

(** With no script in the batch the script tracker never moves and the
    notifications count the asset settlements one by one. *)
Lemma assets_only_reports later :
  scripts = [] ->
  let final := run env assets scripts scriptPrefix later in
  Progress.count (_scripts final) = 0 /\
  total final = a /\
  fractions final = map (fraction (total final)) (seq 1 (count final)).
Proof.
  intros Hnil.
  assert (Hs : s = 0) by (unfold s; now rewrite Hnil).
  apply (run_kept env assets scripts scriptPrefix
           (fun st => Progress.count (_scripts st) = 0 /\ total st = a /\
                      fractions st = map (fraction (total st))
                                         (seq 1 (count st)))).
  - intros e st He1 He2 He3 He4 He5 He6 (C & T & F).
    rewrite fractions_emit.
    destruct e; try (now destruct (He3 fraction0)); cbn;
      rewrite ?app_nil_r; auto.
  - intros ls es cs st H. exact H.
  - intros i st _ _ _ _ (C & T & F).
    destruct (asset_settled_reports i st) as (F' & C' & T' & S').
    rewrite F', C', T', S', F. repeat split; try assumption.
    rewrite seq_S, map_app. reflexivity.
  - intros j err st Hj. fold s in Hj. lia.
  - intros st (C & T & F).
    destruct (count_done st) as [C' T'].
    destruct (settled_done st) as (_ & _ & _ & E & _).
    rewrite fractions_done, C', T', E. auto.
  - cbn. rewrite Hnil. cbn. unfold a. repeat split; lia.
Qed.

Lemma fraction_full n : 0 < n -> fraction n n = JS.Fin 1.
Proof.
  intros Hn. rewrite fraction_ratio by assumption. f_equal.
  change 1%Q with (Qred 1). apply Qred_complete.
  apply Qmult_inv_r. intros E.
  pose proof (nat_Qlt 0 n Hn) as H. rewrite E in H.
  now apply Qlt_irrefl in H.
Qed.

(** X4.  A batch of assets only (no preload script): the k-th
    ["preload:progress"] notification reports k/N, N the number of
    assets, one notification per settlement counted. *)
Theorem preload_assets_only_fractions later :
  scripts = [] ->
  let final := run env assets scripts scriptPrefix later in
  fractions final =
  map (fraction (List.length assets))
      (seq 1 (List.length (settled_assets final))).
Proof.
  intros Hnil final.
  destruct (assets_only_reports later Hnil) as (C & T & F).
  fold final in C, T, F. rewrite F, T. fold a. f_equal. f_equal.
  unfold count. rewrite C.
  assert (Hwf : Wf final) by apply (run_good env assets scripts scriptPrefix later).
  rewrite (wf_assets _ Hwf). lia.
Qed.

(** X5.  A non-empty batch of assets only, in which the loader has
    reported every asset that was not loaded yet, as loaded or as
    failed, and none twice: the last fraction reported is 1. *)
Theorem preload_assets_only_ends_at_one later :
  scripts = [] -> assets <> [] ->
  answers_own env ->
  reported_once (delivered env assets scripts later) ->
  all_reported assets scripts (delivered env assets scripts later) ->
  last (fractions (run env assets scripts scriptPrefix later)) JS.NaN
  = JS.Fin 1.
Proof.
  intros Hnil Hne Hown Honce Hall.
  set (final := run env assets scripts scriptPrefix later).
  pose proof (run_tied assets scripts env scriptPrefix Hown later Honce) as Ht.
  fold final in Ht.
  destruct (tied_settled assets scripts _ _ Ht) as [[Na _] Hiff].
  destruct (proj2 Hiff Hall) as [Ha _].
  destruct (assets_only_reports later Hnil) as (C & T & F).
  fold final in C, T, F. rewrite F, T.
  assert (Hg : GoodFor a s final)
    by apply (run_good env assets scripts scriptPrefix later).
  destruct Hg as [[Hwf _] [La _]].
  assert (Hlen : List.length (settled_assets final) = a).
  { apply full_length; [assumption | | exact Ha].
    rewrite <- La. apply (wf_assets_range _ Hwf). }
  assert (Hcount : count final = a).
  { unfold count. rewrite C, (wf_assets _ Hwf). lia. }
  assert (Hpos : 0 < a).
  { unfold a. destruct assets; [congruence | cbn; lia]. }
  rewrite Hcount. destruct a as [|n] eqn:En; [lia|].
  rewrite seq_S, map_app. cbn [map]. rewrite last_last. cbn [Nat.add].
  apply fraction_full. lia.
Qed.

End Reports.

(** A cached asset, a pending one and a script, the script first. *)
Lemma preload_fractions_increase_witness :
  exists qs,
    fractions (run asynchronous [pending "a"; cached "b"] ["s.js"%string]
                   EmptyString [ScriptLoaded 0 None; AssetLoad 0])
      = map JS.Fin qs /\
    StronglySorted Qlt qs /\
    Forall (fun q => (0 < q)%Q) qs /\
    Forall (fun q => (q <= 1)%Q) qs.
Proof.
  destruct (preload_fractions_increase asynchronous
              [pending "a"; cached "b"] ["s.js"%string] EmptyString
              [ScriptLoaded 0 None; AssetLoad 0]) as (qs & A & B & C & D).
  exists qs. split; [exact A|]. split; [exact B|]. split; [exact C|].
  apply D. split; vm_compute;
    repeat (apply NoDup_cons; [cbn; intuition discriminate|]); apply NoDup_nil.
Defined.

(** Three assets, the second one cached, reported in any order. *)
Lemma preload_assets_only_fractions_witness :
  let batch := [pending "a"; cached "b"; pending "c"] in
  let final := run asynchronous batch [] EmptyString
                   [AssetError 2; AssetLoad 0] in
  fractions final =
  map (fraction (List.length batch))
      (seq 1 (List.length (settled_assets final))).
Proof.
  intros batch.
  exact (preload_assets_only_fractions asynchronous batch [] EmptyString
           [AssetError 2; AssetLoad 0] eq_refl).
Defined.

Lemma preload_assets_only_ends_at_one_witness :
  last (fractions (run asynchronous
                       [pending "a"; cached "b"; pending "c"] [] EmptyString
                       [AssetError 2; AssetLoad 0])) JS.NaN = JS.Fin 1.
Proof.
  apply (preload_assets_only_ends_at_one asynchronous
           [pending "a"; cached "b"; pending "c"] [] EmptyString
           [AssetError 2; AssetLoad 0] eq_refl).
  - discriminate.
  - apply asynchronous_answers_own.
  - vm_compute.
    repeat (apply NoDup_cons; [cbn; intuition discriminate|]). apply NoDup_nil.
  - intros [[|[|[|i]]] | j]; cbn; intros H; try tauto;
      try (destruct H as [H1 H2]; try discriminate H2); lia.
Defined.

(** *** The preloading flag *)
Section Flag.

Variable env : Loader.
Variable assets : list Asset.
Variable scripts : list string.
Variable scriptPrefix : string.

Lemma flag_done st :
  preloading st = negb (_done st) ->
  preloading (done st) = negb (_done (done st)).
Proof.
  intros H. unfold done. destruct (_ && _); [reflexivity | exact H].
Qed.

Lemma run_flag later :
  let final := run env assets scripts scriptPrefix later in
  preloading final = negb (_done final).
Proof.
  apply (run_kept env assets scripts scriptPrefix
           (fun st => preloading st = negb (_done st))).
  - intros e st _ _ _ _ _ _ H. exact H.
  - intros ls es cs st H. exact H.
  - intros i st _ _ _ _ H. unfold asset_settled.
    set (st1 := emit _ (inc_assets i st)).
    assert (H1 : preloading st1 = negb (_done st1)) by exact H.
    destruct (Progress.done (_assets st1)); [now apply flag_done | exact H1].
  - intros j err st _ _ _ _ H. unfold script_callback.
    set (st1 := inc_scripts j _).
    assert (H1 : preloading st1 = negb (_done st1))
      by (unfold st1; destruct err; exact H).
    destruct (Progress.done (_scripts st1)); [now apply flag_done | exact H1].
  - apply flag_done.
  - reflexivity.
Qed.

(** X6.  [this.systems.script.preloading] is on from the call of
    [preload] until the completion callback is invoked, and off from
    then on, whatever is reported. *)
Theorem preload_flag_on_until_callback later :
  let final := run env assets scripts scriptPrefix later in
  (preloading final = true <-> callbacks_invoked final = 0) /\
  (preloading final = false <-> callbacks_invoked final = 1).
Proof.
  intros final.
  assert (Hwf : Wf final) by apply (run_good env assets scripts scriptPrefix later).
  pose proof (wf_latch _ Hwf) as L.
  pose proof (run_flag later) as F. cbv zeta in F. fold final in F.
  rewrite F, L. destruct (_done final); cbn; split; split;
    intros; congruence.
Qed.

End Flag.

(** Two scripts and no asset, both scripts loading. *)
Lemma preload_without_assets_witness :
  fractions (run asynchronous [] ["a.js"%string; "b.js"%string] EmptyString
                 [ScriptLoaded 1 None; ScriptLoaded 0 None]) = [].
Proof.
  exact (preload_without_assets_reports_nothing asynchronous []
           ["a.js"%string; "b.js"%string] EmptyString
           [ScriptLoaded 1 None; ScriptLoaded 0 None] eq_refl).
Defined.

End PreloadExtras.

(** ** More about [configure] *)
Module ConfigureExtras.

Import Configure ConfigureProofs ConfigureTrace.

Local Opaque Z.of_nat.

(** What the delivery of one report adds to the trace. *)
Lemma deliver_report st i err :
  let st' := deliver configured st (LibraryLoaded i err) in
  effects st' =
    effects st ++
    (if existsb (Nat.eqb i) (requests st)
     then match err with
          | Some e => [ParseScripts; ParseAssets; Callback (Some e)]
          | None => if (count st - 1 =? 0)%Z
                    then [OnLibraryLoaded; ParseScripts; ParseAssets;
                          Callback None]
                    else []
          end
     else []) /\
  requests st' = requests st /\
  count st' = if existsb (Nat.eqb i) (requests st)
              then (count st - 1)%Z else count st.
Proof.
  cbn. destruct (existsb _ _); [|now rewrite app_nil_r].
  unfold library_callback. cbn [count requests effects].
  destruct err as [e|].
  - cbn. rewrite <- !app_assoc. auto.
  - destruct (Z.eqb_spec (count st - 1) 0); cbn.
    + rewrite <- !app_assoc. auto.
    + now rewrite app_nil_r.
Qed.

(** Reports for requests that were never issued are ignored. *)
Lemma no_requests later : forall st,
  requests st = [] -> fold_left (deliver configured) later st = st.
Proof.
  induction later as [|[i err] later IH]; intros st Hr; [reflexivity|].
  cbn [fold_left deliver]. rewrite Hr. cbn [existsb]. now apply IH.
Qed.

(** The state in which [configure] leaves the response handler. *)
Lemma configure_issued url response :
  let libs := libraries (application_properties response) in
  let props := application_properties response in
  let st := configure url (HttpOk response) in
  let n := List.length libs in
  requests st = (if n =? 0 then [] else seq 0 n) /\
  count st = Z.of_nat n /\
  effects st =
    [HttpGet url;
     SetCanvasResolution (resolution_mode props) (width props) (height props);
     SetCanvasFillMode (fill_mode props) (width props) (height props)]
    ++ (if n =? 0 then [ParseScripts; ParseAssets; Callback None]
        else map LoaderLoad libs).
Proof.
  intros libs props st n. unfold st, configure, parseApplicationProperties.
  cbv zeta.
  change (libraries (application_properties response)) with libs.
  change (List.length libs) with n.
  change (application_properties response) with props.
  destruct (Nat.eqb_spec n 0) as [Hz|Hnz].
  - cbn. rewrite Hz. auto.
  - set (st1 := mkState _ _ _).
    assert (G : forall l st0,
               let st' := fold_left
                 (fun st i =>
                    emit (LoaderLoad (nth i libs EmptyString))
                         (mkState (count st) (requests st ++ [i]) (effects st)))
                 l st0 in
               requests st' = requests st0 ++ l /\
               count st' = count st0 /\
               effects st' = effects st0 ++
                             map (fun i => LoaderLoad (nth i libs EmptyString)) l).
    { induction l as [|i l IH]; intros st0; cbn.
      - now rewrite !app_nil_r.
      - destruct (IH (emit (LoaderLoad (nth i libs EmptyString))
                           (mkState (count st0) (requests st0 ++ [i])
                                    (effects st0)))) as (H1 & H2 & H3).
        cbv zeta in H1, H2, H3. rewrite H1, H2, H3. cbn.
        rewrite <- !app_assoc. auto. }
    destruct (G (seq 0 n) st1) as (H1 & H2 & H3). cbv zeta in H1, H2, H3.
    rewrite H1, H2, H3. unfold st1. cbn [requests count effects emit List.app].
    repeat split. f_equal. f_equal. f_equal.
    rewrite <- map_map. f_equal. unfold n. clear.
    induction libs as [|u l IH]; [reflexivity|].
    cbn [List.length seq map]. f_equal.
    rewrite <- seq_shift, map_map. exact IH.
Qed.

Lemma issued_mem n i :
  existsb (Nat.eqb i) (if n =? 0 then [] else seq 0 n) = (i <? n).
Proof.
  destruct (Nat.ltb_spec i n) as [Hlt|Hge].
  - destruct (Nat.eqb_spec n 0); [lia|].
    apply existsb_exists. exists i. split; [apply in_seq; lia|apply Nat.eqb_refl].
  - destruct (existsb _ _) eqn:E; [|reflexivity].
    apply existsb_exists in E. destruct E as (k & Hk & Hik).
    apply Nat.eqb_eq in Hik. subst k.
    destruct (n =? 0); [destruct Hk | apply in_seq in Hk; lia].
Qed.

Section Reports.

Variable url : string.
Variable response : Response.

Let libs := libraries (application_properties response).
Let n := List.length libs.

(** What the reports add to the trace once the requests are issued. *)
Lemma reports_trace later : forall st,
  0 < n -> requests st = seq 0 n ->
  nulls (callback_args st) <= 1 ->
  ((0 < count st)%Z -> nulls (callback_args st) = 0) ->
  let st' := fold_left (deliver configured) later st in
  exists args,
    callback_args st' = callback_args st ++ args /\
    errors args = reported_errors n later /\
    handling st' = handling st ++ flat_map (invocation n) args /\
    library_requests st' = library_requests st /\
    nulls (callback_args st') <= 1.
Proof.
  induction later as [|[i err] later IH]; intros st Hn R N1 N0.
  - cbn. exists []. now rewrite !app_nil_r.
  - cbn [fold_left].
    destruct (deliver_report st i err) as (E & R' & C'). cbv zeta in E, R', C'.
    set (st1 := deliver configured st (LibraryLoaded i err)) in *.
    assert (Hmem : existsb (Nat.eqb i) (requests st) = (i <? n)).
    { rewrite R. rewrite <- (issued_mem n i).
      destruct (Nat.eqb_spec n 0); [lia | reflexivity]. }
    rewrite Hmem in E, C'.
    set (added := if i <? n
                  then match err with
                       | Some e => [Some e]
                       | None => if (count st - 1 =? 0)%Z then [None] else []
                       end
                  else []).
    assert (A : callback_args st1 = callback_args st ++ added).
    { unfold callback_args. rewrite E, flat_map_app. f_equal.
      unfold added. destruct (i <? n); [|reflexivity].
      destruct err; [reflexivity|].
      now destruct (count st - 1 =? 0)%Z. }
    assert (H : handling st1 = handling st ++ flat_map (invocation n) added).
    { unfold handling. rewrite E, filter_app. f_equal.
      unfold added. destruct (i <? n); [|reflexivity].
      destruct err; [reflexivity|].
      destruct (count st - 1 =? 0)%Z; [|reflexivity].
      cbn. destruct (Nat.eqb_spec n 0); [lia | reflexivity]. }
    assert (Er : errors added =
                 match err with
                 | Some e => if i <? n then [e] else []
                 | None => []
                 end).
    { unfold added. destruct (i <? n), err; try reflexivity.
      now destruct (count st - 1 =? 0)%Z. }
    assert (Lr : library_requests st1 = library_requests st).
    { unfold library_requests. rewrite E, flat_map_app.
      rewrite <- (app_nil_r (flat_map _ (effects st))) at 2. f_equal.
      destruct (i <? n); [|reflexivity]. destruct err; [reflexivity|].
      now destruct (count st - 1 =? 0)%Z. }
    assert (Nn : nulls (callback_args st1) <= 1 /\
                 ((0 < count st1)%Z -> nulls (callback_args st1) = 0)).
    { rewrite A, C'. unfold nulls in *. rewrite filter_app, length_app.
      unfold added. destruct (i <? n).
      - destruct err as [e|]; cbn; [split; intros; lia|].
        destruct (Z.eqb_spec (count st - 1) 0); cbn; split; intros; lia.
      - cbn. split; intros; lia. }
    destruct Nn as [N1' N0'].
    destruct (IH st1 Hn) as (args & I3 & I4 & I5 & I6 & I7);
      try assumption; [now rewrite R'|].
    exists (added ++ args).
    split; [now rewrite I3, A, <- app_assoc|]. split; [|split; [|split]].
    + unfold errors. rewrite flat_map_app.
      fold (errors added). fold (errors args). rewrite Er, I4.
      cbn [reported_errors flat_map]. now destruct err.
    + rewrite I5, H, flat_map_app, app_assoc. reflexivity.
    + now rewrite I6.
    + exact I7.
Qed.

Lemma library_requests_map (l : list string) :
  flat_map (fun e => match e with LoaderLoad u => [u] | _ => [] end)
           (map LoaderLoad l) = l.
Proof. induction l as [|u l IH]; cbn; [reflexivity | now rewrite IH]. Qed.

(** The whole run, from the request to the last report. *)
Lemma run_trace later :
  let props := application_properties response in
  let final := run url (HttpOk response) later in
  library_requests final = libs /\
  errors (callback_args final) = reported_errors n later /\
  nulls (callback_args final) <= 1 /\
  handling final = flat_map (invocation n) (callback_args final).
Proof.
  intros props final.
  destruct (configure_issued url response) as (R & C & E).
  cbv zeta in R, C, E. fold libs in R, C, E. fold n in R, C, E.
  fold props in E.
  set (st := configure url (HttpOk response)) in *.
  assert (F : final = fold_left (deliver configured) later st) by reflexivity.
  clearbody final. clearbody st. subst final.
  destruct (Nat.eqb_spec n 0) as [Hz|Hnz].
  - rewrite no_requests by assumption. unfold library_requests, callback_args, handling. rewrite E.
    cbn. rewrite Hz. cbn. repeat split; try lia.
    + unfold n in Hz. destruct libs; [reflexivity | discriminate].
    + clear. induction later as [|[i [e|]] l IH]; cbn; auto.
  - assert (L0 : library_requests st = libs).
    { unfold library_requests. rewrite E. cbn. apply library_requests_map. }
    assert (A0 : callback_args st = []).
    { unfold callback_args. rewrite E. cbn. clear.
      induction libs as [|u l IH]; cbn; auto. }
    assert (H0 : handling st = []).
    { unfold handling. rewrite E. cbn. clear.
      induction libs as [|u l IH]; cbn; auto. }
    destruct (reports_trace later st) as (args & I1 & I2 & I3 & I4 & I5);
      try lia; try assumption; try (rewrite A0; cbn; lia).
    cbv zeta in I1, I3, I4, I5.
    rewrite A0 in I1. rewrite H0 in I3. cbn in I1, I3.
    rewrite I4, L0, I3, I1, I2. rewrite I1 in I5. auto.
Qed.

(** X8.  [configure] asks the loader for each declared library exactly
    once, in the declared order, after the canvas resolution and fill
    mode have been set from the declared width and height; no report
    makes it ask again. *)
Theorem configure_requests_each_library_once later :
  let props := application_properties response in
  let final := run url (HttpOk response) later in
  library_requests final = libraries props /\
  firstn (3 + List.length (libraries props)) (effects (configure url (HttpOk response))) =
    [HttpGet url;
     SetCanvasResolution (resolution_mode props) (width props) (height props);
     SetCanvasFillMode (fill_mode props) (width props) (height props)]
    ++ map LoaderLoad (libraries props).
Proof.
  intros props final. split; [apply (run_trace later)|].
  destruct (configure_issued url response) as (_ & _ & E).
  cbv zeta in E. rewrite E. fold props.
  set (three := [HttpGet url; _; _]).
  change 3 with (List.length three). rewrite firstn_app_2. f_equal.
  destruct (libraries props) as [|u l]; [reflexivity|].
  change (S (List.length l) =? 0) with false. cbv iota.
  rewrite <- (length_map LoaderLoad (u :: l)). apply firstn_all.
Qed.

(** X9.  Every error the loader reports for a declared library is
    passed to the callback of [configure], in the order reported, and
    [callback(null)] occurs at most once. *)
Theorem configure_passes_every_error later :
  let final := run url (HttpOk response) later in
  errors (callback_args final) =
    reported_errors (List.length (libraries (application_properties response)))
                    later /\
  nulls (callback_args final) <= 1.
Proof.
  intros final. destruct (run_trace later) as (_ & H1 & H2 & _).
  split; assumption.
Qed.

(** X10.  The response handler parses the scripts and then the assets
    before each invocation of the callback, once per invocation, and
    [onLibraryLoaded] runs right before that exactly when libraries
    were declared and the callback receives [null]. *)
Theorem configure_parses_before_each_callback later :
  let final := run url (HttpOk response) later in
  handling final =
  flat_map (invocation (List.length (libraries (application_properties response))))
           (callback_args final).
Proof. intros final. apply (run_trace later). Qed.

End Reports.

End ConfigureExtras.

(** ** More about the frame loop *)
Module FrameExtras.

Import Frame FrameProofs FrameRun JSFacts.

(** X12.  A tick that reads a falsy clock value (0 or NaN) stores it,
    and the clock counts as not seeded: the step of the next tick is
    zero, however late that tick comes. *)
Theorem tick_after_falsy_clock_measures_nothing app now (t : Q) :
  JS.truthy now = false ->
  let app1 := fst (tick app now) in
  _time app1 = now /\
  update_steps (snd (tick app1 (JS.Fin t))) =
    [JS.mul (JS.Fin 0) (timeScale app)].
Proof.
  intros Hf app1. split; [reflexivity|].
  rewrite tick_step. unfold spec_delta, lastTimestamp.
  change (_time app1) with now. change (timeScale app1) with (timeScale app).
  rewrite Hf.
  change (JS.sub (JS.Fin t) (JS.Fin t)) with (JS.fin (t - t)).
  rewrite (fin_eq (t - t) 0) by ring. reflexivity.
Qed.

Lemma tick_after_falsy_clock_witness :
  _time (fst (tick stalled (JS.Fin 0))) = JS.Fin 0 /\
  update_steps (snd (tick (fst (tick stalled (JS.Fin 0))) (JS.Fin 5000))) =
    [JS.mul (JS.Fin 0) (timeScale stalled)].
Proof.
  exact (tick_after_falsy_clock_measures_nothing stalled (JS.Fin 0) 5000
           eq_refl).
Defined.

End FrameExtras.

(** ** More about the canvas *)
Module ViewportExtras.

Import Viewport ViewportTrace.

(** X13.  The [width] and [height] given to [resizeCanvas] matter only
    in the browser and when the fill mode is neither KEEP_ASPECT nor
    FILL_WINDOW; then they are applied and returned as they are,
    [undefined] included. *)
Theorem resizeCanvas_arguments_only_without_fill host app w h :
  (isCocoonJS host = true \/ _fillMode app = FILLMODE_KEEP_ASPECT \/
   _fillMode app = FILLMODE_FILL_WINDOW ->
   forall w' h', resizeCanvas host app w h = resizeCanvas host app w' h') /\
  (isCocoonJS host = false -> _fillMode app <> FILLMODE_KEEP_ASPECT ->
   _fillMode app <> FILLMODE_FILL_WINDOW ->
   snd (resizeCanvas host app w h) = {| width := w; height := h |} /\
   firstn 2 (snd (fst (resizeCanvas host app w h))) =
     [StyleWidth w; StyleHeight h]).
Proof.
  split.
  - intros [Hc | [Hk | Hf]] w' h'; unfold resizeCanvas.
    + now rewrite Hc.
    + rewrite Hk. reflexivity.
    + rewrite Hf. reflexivity.
  - intros Hc Hk Hf. unfold resizeCanvas. rewrite Hc.
    destruct (String.eqb_spec (_fillMode app) FILLMODE_KEEP_ASPECT) as [E|_];
      [contradiction|].
    destruct (String.eqb_spec (_fillMode app) FILLMODE_FILL_WINDOW) as [E|_];
      [contradiction|].
    destruct (String.eqb (_resolutionMode app) RESOLUTION_AUTO); split;
      reflexivity.
Qed.

Lemma resizeCanvas_arguments_ignored_witness :
  resizeCanvas (browser (JS.Fin 1000) (JS.Fin 500) (JS.Fin 800) (JS.Fin 600))
               keep_aspect (Some (JS.Fin 1)) (Some (JS.Fin 2)) =
  resizeCanvas (browser (JS.Fin 1000) (JS.Fin 500) (JS.Fin 800) (JS.Fin 600))
               keep_aspect None None.
Proof.
  exact (proj1 (resizeCanvas_arguments_only_without_fill
                  (browser (JS.Fin 1000) (JS.Fin 500) (JS.Fin 800) (JS.Fin 600))
                  keep_aspect (Some (JS.Fin 1)) (Some (JS.Fin 2)))
               (or_intror (or_introl eq_refl)) None None).
Defined.

(** X14.  [resizeCanvas] changes neither mode of the application, and
    [setCanvasFillMode] only the fill mode.  [resizeCanvas] resizes the
    device at most once: under CocoonJS to the window scaled by the
    pixel ratio, in the browser only in AUTO resolution mode, and then
    to the client size of the canvas. *)
Theorem resizeCanvas_keeps_modes host app mode w h :
  fst (fst (resizeCanvas host app w h)) = app /\
  fst (setCanvasFillMode host app mode w h) =
    {| _fillMode := mode; _resolutionMode := _resolutionMode app |} /\
  device_sizes (snd (fst (resizeCanvas host app w h))) =
    if isCocoonJS host
    then [(Some (JS.mul (innerWidth host) (devicePixelRatio host)),
           Some (JS.mul (innerHeight host) (devicePixelRatio host)))]
    else if String.eqb (_resolutionMode app) RESOLUTION_AUTO
         then [(Some (clientWidth host), Some (clientHeight host))]
         else [].
Proof.
  assert (H : forall a x y,
            fst (fst (resizeCanvas host a x y)) = a /\
            device_sizes (snd (fst (resizeCanvas host a x y))) =
              if isCocoonJS host
              then [(Some (JS.mul (innerWidth host) (devicePixelRatio host)),
                     Some (JS.mul (innerHeight host) (devicePixelRatio host)))]
              else if String.eqb (_resolutionMode a) RESOLUTION_AUTO
                   then [(Some (clientWidth host), Some (clientHeight host))]
                   else []).
  { intros a x y. unfold resizeCanvas.
    destruct (isCocoonJS host); [split; reflexivity|].
    destruct (String.eqb (_fillMode a) FILLMODE_KEEP_ASPECT);
      [destruct (JS.gt _ _)|
       destruct (String.eqb (_fillMode a) FILLMODE_FILL_WINDOW)];
      (destruct (String.eqb_spec (_resolutionMode a) RESOLUTION_AUTO) as [E|E];
       [cbn; rewrite <- E; now destruct a | split; reflexivity]). }
  split; [apply H|]. split; [|apply H].
  unfold setCanvasFillMode.
  destruct (H {| _fillMode := mode; _resolutionMode := _resolutionMode app |}
              w h) as [E _].
  destruct (resizeCanvas host _ w h) as [[a t] sz]. exact E.
Qed.

End ViewportExtras.

(** ** More about the fullscreen observers *)
Module FullscreenExtras.

Import Fullscreen FullscreenProofs FullscreenTrace.

Lemma invoke_registered l doc :
  listeners (invoke l doc) =
    filter (fun z => negb (same (type_of l, l) z)) (listeners doc) /\
  fired (invoke l doc) = fired doc ++ [l] /\
  calls (invoke l doc) = calls doc.
Proof.
  assert (Hinv : invoke l doc =
                 removeEventListener (type_of l) l (emit (Fired l) doc))
    by now destruct l.
  rewrite Hinv. repeat split.
  change (fired (removeEventListener (type_of l) l (emit (Fired l) doc)))
    with (fired (emit (Fired l) doc)).
  apply fired_emit.
Qed.

(** The listeners of a snapshot run one after the other, each removing
    itself. *)
Lemma dispatch_snapshot snapshot : forall doc,
  Wf doc -> NoDup snapshot ->
  (forall x, In x snapshot -> In x (listeners doc)) ->
  let doc' :=
    fold_left
      (fun doc x =>
         if existsb (same x) (listeners doc) then invoke (snd x) doc else doc)
      snapshot doc in
  listeners doc' =
    filter (fun z => negb (existsb (same z) snapshot)) (listeners doc) /\
  fired doc' = fired doc ++ map snd snapshot /\
  calls doc' = calls doc.
Proof.
  induction snapshot as [|[ty l] snapshot IH]; intros doc Hwf Hnd Hin.
  - cbn. rewrite app_nil_r. repeat split.
    symmetry. apply filter_all. reflexivity.
  - cbn [fold_left].
    assert (Hx : In (ty, l) (listeners doc)) by (apply Hin; now left).
    assert (E : existsb (same (ty, l)) (listeners doc) = true)
      by now apply registered_In.
    rewrite E. cbn [snd].
    assert (Hty : ty = type_of l) by exact (wf_typed _ Hwf _ _ Hx).
    subst ty.
    destruct (invoke_registered l doc) as (L & F & C).
    inversion Hnd as [|? ? Hnot Hnd']; subst.
    destruct (IH (invoke l doc)) as (L' & F' & C').
    + now apply invoke_wf.
    + assumption.
    + intros x Hxs. rewrite L. apply removed_In. split.
      * apply Hin. now right.
      * intros ->. contradiction.
    + cbv zeta in L', F', C'. rewrite L', F', C', L, F, C.
      split; [|split; [now rewrite <- app_assoc | reflexivity]].
      clear. induction (listeners doc) as [|z zs IHz]; [reflexivity|].
      cbn [filter existsb].
      assert (S : same z (type_of l, l) = same (type_of l, l) z).
      { destruct (same z _) eqn:A, (same (type_of l, l) z) eqn:B;
          try reflexivity.
        - apply same_eq in A. subst z.
          assert (same (type_of l, l) (type_of l, l) = true)
            by now apply same_eq.
          congruence.
        - apply same_eq in B. subst z.
          assert (same (type_of l, l) (type_of l, l) = true)
            by now apply same_eq.
          congruence. }
      rewrite S. destruct (same (type_of l, l) z); cbn [negb orb].
      * exact IHz.
      * cbn [filter]. destruct (existsb (same z) snapshot); cbn [negb];
          now rewrite IHz.
Qed.

(** What an event does to a reachable document. *)
Lemma dispatch_reachable ty doc :
  Wf doc ->
  listeners (dispatch ty doc) = registered_otherwise ty doc /\
  fired (dispatch ty doc) = fired doc ++ map snd (registered_for ty doc) /\
  calls (dispatch ty doc) = calls doc.
Proof.
  intros Hwf. unfold dispatch.
  destruct (dispatch_snapshot (registered_for ty doc) doc Hwf)
    as (L & F & C).
  - apply NoDup_filter, (wf_nodup _ Hwf).
  - intros x Hx. unfold registered_for in Hx. now apply filter_In in Hx.
  - cbv zeta in L, F, C. fold (registered_for ty doc).
    rewrite L, F, C. repeat split.
    unfold registered_otherwise. apply filter_ext_in. intros z Hz. f_equal.
    destruct (type_eqb ty (fst z)) eqn:T.
    + apply registered_In. unfold registered_for. apply filter_In. now split.
    + destruct (existsb _ _) eqn:E; [|reflexivity].
      apply registered_In in E. unfold registered_for in E.
      apply filter_In in E. destruct E as [_ E]. congruence.
Qed.

(** X15.  An event runs exactly the observers registered for it, in
    the order they were registered, each once, and removes them all;
    the observers of the other event stay as they are. *)
Theorem fullscreen_event_runs_its_observers steps ty :
  let doc := run steps in
  listeners (dispatch ty doc) = registered_otherwise ty doc /\
  fired (dispatch ty doc) = fired doc ++ map snd (registered_for ty doc).
Proof.
  intros doc. destruct (dispatch_reachable ty doc (run_wf steps)) as (L & F & _).
  split; assumption.
Qed.

(** Entering fullscreen with both functions given registers one
    observer for each outcome, after those already there. *)
Lemma enable_both doc :
  Wf doc ->
  let k := calls doc in
  listeners (enableFullscreen true true doc) =
    listeners doc ++ [(fullscreenchange, EnableSuccess k);
                      (fullscreenerror, EnableError k)] /\
  fired (enableFullscreen true true doc) = fired doc.
Proof.
  intros Hwf k.
  assert (N1 : existsb (same (fullscreenchange, EnableSuccess (calls doc)))
                 (listeners doc) = false).
  { destruct (existsb (same (fullscreenchange, EnableSuccess (calls doc)))
                (listeners doc)) eqn:E; [|reflexivity].
    apply registered_In in E.
    pose proof (wf_known _ Hwf _ _ E) as Hk. cbn in Hk. lia. }
  assert (N2 : existsb (same (fullscreenerror, EnableError (calls doc)))
                 (listeners doc
                  ++ [(fullscreenchange, EnableSuccess (calls doc))]) = false).
  { destruct (existsb (same (fullscreenerror, EnableError (calls doc)))
                (listeners doc
                 ++ [(fullscreenchange, EnableSuccess (calls doc))]))
      eqn:E; [|reflexivity].
    apply registered_In, in_app_or in E. destruct E as [E | [E | []]];
      [|discriminate].
    pose proof (wf_known _ Hwf _ _ E) as Hk. cbn in Hk. lia. }
  assert (Hen : enableFullscreen true true doc =
                mkDocument
                  (listeners doc ++ [(fullscreenchange, EnableSuccess k);
                                     (fullscreenerror, EnableError k)])
                  (S k) (log doc ++ [RequestFullscreen])).
  { unfold enableFullscreen, addEventListener, fresh, emit, k.
    cbn [listeners calls log]. rewrite N1.
    cbn [listeners calls log]. rewrite N2.
    cbn [listeners calls log]. now rewrite <- app_assoc. }
  rewrite Hen. split; [reflexivity|].
  unfold fired. cbn [log]. rewrite flat_map_app. cbn. apply app_nil_r.
Qed.

(** C9.  The observer of the outcome that did not occur is never
    removed.  Whatever happened before, when [enableFullscreen] is
    called with both functions and the request succeeds, [success]
    runs and the error observer of that call stays registered: the
    next ['fullscreenerror'] event, which reports the failure of
    another request, calls the [error] function of the request that
    succeeded.  In the same way a request that fails leaves its
    success observer behind, and the next ['fullscreenchange'] calls
    its [success].  Rounds of entering fullscreen with both functions,
    each succeeding, leave one error observer each.  What does hold:
    no observer runs twice, and one that has run is no longer
    registered. *)
Theorem fullscreen_error_observer_outlives_success steps :
  let doc := run steps in
  let k := calls doc in
  let entered := dispatch fullscreenchange (enableFullscreen true true doc) in
  let refused := dispatch fullscreenerror (enableFullscreen true true doc) in
  (In (EnableSuccess k) (fired entered) /\
   In (fullscreenerror, EnableError k) (listeners entered) /\
   In (EnableError k) (fired (dispatch fullscreenerror entered))) /\
  (In (EnableError k) (fired refused) /\
   In (fullscreenchange, EnableSuccess k) (listeners refused) /\
   In (EnableSuccess k) (fired (dispatch fullscreenchange refused))) /\
  fired (run [Enable true true; Event fullscreenchange;
              Enable true true; Event fullscreenerror])
    = [EnableSuccess 0; EnableError 0; EnableError 1] /\
  (forall n, listeners (run (rounds n)) = leaked n) /\
  NoDup (fired doc) /\
  (forall ty l, In l (fired doc) -> ~ In (ty, l) (listeners doc)).
Proof.
  intros doc k entered refused.
  pose proof (run_wf steps) as Hwf. fold doc in Hwf.
  destruct (enable_both doc Hwf) as [L F]. cbv zeta in L. fold k in L.
  set (asked := enableFullscreen true true doc) in *.
  assert (Hw : Wf asked) by now apply enableFullscreen_wf.
  assert (outcome : forall ty l ty' l',
            In (ty, l) (listeners asked) -> In (ty', l') (listeners asked) ->
            ty' <> ty ->
            In l (fired (dispatch ty asked)) /\
            In (ty', l') (listeners (dispatch ty asked)) /\
            In l' (fired (dispatch ty' (dispatch ty asked)))).
  { intros ty l ty' l' Hin Hin' Hne.
    destruct (dispatch_reachable ty asked Hw) as (L1 & F1 & _).
    assert (Hkept : In (ty', l') (listeners (dispatch ty asked))).
    { rewrite L1. unfold registered_otherwise. apply filter_In.
      split; [assumption|]. cbn. now destruct ty, ty'. }
    split; [|split; [exact Hkept|]].
    - rewrite F1. apply in_or_app. right.
      apply (in_map snd _ (ty, l)). unfold registered_for.
      apply filter_In. split; [assumption|]. cbn. now destruct ty.
    - destruct (dispatch_reachable ty' (dispatch ty asked)
                  (dispatch_wf ty asked Hw)) as (_ & F2 & _).
      rewrite F2. apply in_or_app. right.
      apply (in_map snd _ (ty', l')). unfold registered_for.
      apply filter_In. split; [assumption|]. cbn. now destruct ty'. }
  assert (Hs : In (fullscreenchange, EnableSuccess k) (listeners asked)).
  { rewrite L. apply in_or_app. right. now left. }
  assert (He : In (fullscreenerror, EnableError k) (listeners asked)).
  { rewrite L. apply in_or_app. right. right. now left. }
  split; [|split; [|split; [|split; [|split]]]].
  - apply (outcome fullscreenchange (EnableSuccess k)
             fullscreenerror (EnableError k) Hs He). discriminate.
  - apply (outcome fullscreenerror (EnableError k)
             fullscreenchange (EnableSuccess k) He Hs). discriminate.
  - reflexivity.
  - intros n. apply rounds_leak.
  - apply (wf_fired_once _ Hwf).
  - apply (wf_fired_gone _ Hwf).
Qed.

Lemma addEventListener_new l doc :
  Wf doc -> call_of l = calls doc ->
  let doc' := addEventListener (type_of l) l (fresh doc) in
  List.length (listeners doc') = S (List.length (listeners doc)) /\
  fired doc' = fired doc.
Proof.
  intros Hwf Hk. destruct (fresh_new l doc Hwf Hk) as [Hnew _].
  cbn. unfold addEventListener.
  destruct (existsb _ _) eqn:E.
  - apply registered_In in E. destruct (Hnew _ E).
  - cbn. rewrite length_app. cbn. split; [lia | reflexivity].
Qed.

Lemma step_conserves doc s :
  Wf doc ->
  List.length (listeners (step doc s)) + List.length (fired (step doc s)) =
  List.length (listeners doc) + List.length (fired doc) + supplied s.
Proof.
  intros Hwf. destruct s as [success error | success | ty]; cbn [step supplied].
  - unfold enableFullscreen.
    set (k := calls doc).
    set (d1 := if success
               then addEventListener fullscreenchange (EnableSuccess k) (fresh doc)
               else fresh doc).
    assert (H1 : List.length (listeners d1) =
                 List.length (listeners doc) + Nat.b2n success /\
                 fired d1 = fired doc /\ Wf d1 /\ calls d1 = S k).
    { unfold d1. destruct success; cbn [Nat.b2n].
      - destruct (addEventListener_new (EnableSuccess k) doc Hwf eq_refl)
          as [A B]. cbv zeta in A, B. cbn [type_of] in A, B.
        rewrite A, B. split; [lia|]. split; [reflexivity|]. split.
        + destruct (fresh_new (EnableSuccess k) doc Hwf eq_refl).
          apply (addEventListener_wf (EnableSuccess k));
            [now apply fresh_wf | reflexivity | assumption | assumption].
        + now destruct (addEventListener_same fullscreenchange
                          (EnableSuccess k) (fresh doc)) as (-> & _).
      - split; [cbn; lia|]. split; [reflexivity|]. split; [|reflexivity].
        now apply fresh_wf. }
    destruct H1 as (L1 & F1 & W1 & C1).
    set (d2 := if error
               then addEventListener fullscreenerror (EnableError k) d1
               else d1).
    assert (H2 : List.length (listeners d2) =
                 List.length (listeners d1) + Nat.b2n error /\
                 fired d2 = fired d1).
    { unfold d2. destruct error; cbn [Nat.b2n]; [|split; [lia | reflexivity]].
      unfold addEventListener.
      destruct (existsb _ _) eqn:E.
      - apply registered_In in E.
        pose proof (wf_known _ W1 _ _ E) as Hk.
        unfold d1 in E. destruct success.
        + destruct (addEventListener_same fullscreenchange (EnableSuccess k)
                      (fresh doc)) as (_ & _ & Hin).
          destruct (Hin _ E) as [Hold | Hnew]; [|discriminate].
          cbn in Hold. pose proof (wf_known _ Hwf _ _ Hold) as Hk'.
          cbn in Hk'. unfold k in Hk'. lia.
        + cbn in E. pose proof (wf_known _ Hwf _ _ E) as Hk'.
          cbn in Hk'. unfold k in Hk'. lia.
      - cbn. rewrite length_app. cbn. split; [lia | reflexivity]. }
    destruct H2 as (L2 & F2).
    change (fired (emit RequestFullscreen d2)) with
      (flat_map (fun e => match e with Fired l => [l] | _ => [] end)
                (log d2 ++ [RequestFullscreen])).
    rewrite flat_map_app. cbn [flat_map]. rewrite app_nil_r.
    fold (fired d2). cbn [listeners emit]. rewrite L2, F2, L1, F1. lia.
  - unfold disableFullscreen.
    set (k := calls doc).
    set (d1 := if success
               then addEventListener fullscreenchange (DisableSuccess k) (fresh doc)
               else fresh doc).
    assert (H1 : List.length (listeners d1) =
                 List.length (listeners doc) + Nat.b2n success /\
                 fired d1 = fired doc).
    { unfold d1. destruct success; cbn [Nat.b2n].
      - destruct (addEventListener_new (DisableSuccess k) doc Hwf eq_refl)
          as [A B]. cbv zeta in A, B. cbn [type_of] in A, B.
        rewrite A, B. split; [lia | reflexivity].
      - split; [cbn; lia | reflexivity]. }
    destruct H1 as (L1 & F1).
    change (fired (emit ExitFullscreen d1)) with
      (flat_map (fun e => match e with Fired l => [l] | _ => [] end)
                (log d1 ++ [ExitFullscreen])).
    rewrite flat_map_app. cbn [flat_map]. rewrite app_nil_r.
    fold (fired d1). cbn [listeners emit]. rewrite L1, F1. lia.
  - destruct (dispatch_reachable ty doc Hwf) as (L & F & _).
    rewrite L, F, length_app, length_map.
    unfold registered_otherwise, registered_for.
    pose proof (filter_length (fun x => type_eqb ty (fst x)) (listeners doc)).
    lia.
Qed.

(** X16.  Whatever calls and events occur, every function given to
    [enableFullscreen] or [disableFullscreen] is accounted for: its
    observer is still registered or it has run, so the listeners
    registered plus the observers that ran equal the functions
    supplied. *)
Theorem fullscreen_observers_accounted_for steps :
  let doc := run steps in
  List.length (listeners doc) + List.length (fired doc) = supplied_by steps.
Proof.
  intros doc. unfold doc, run, supplied_by.
  assert (G : forall steps d, Wf d ->
            List.length (listeners (fold_left step steps d)) +
            List.length (fired (fold_left step steps d)) =
            List.length (listeners d) + List.length (fired d) +
            list_sum (map supplied steps)).
  { clear. induction steps as [|s steps IH]; intros d Hwf;
      cbn [fold_left map list_sum fold_right]; [lia|].
    fold (list_sum (map supplied steps)).
    rewrite IH by now apply step_wf.
    rewrite step_conserves by assumption. lia. }
  rewrite G; [reflexivity|].
  constructor; cbn; try tauto; constructor.
Qed.

End FullscreenExtras.

(** ** More about [loadFromToc] *)
Module TocExtras.

Import Toc TocTrace.

(** X17.  With a content table, [loadFromToc] calls none of the three
    functions before it returns.  A name the table does not have
    raises with nothing done: on [toc.packs] when nothing is found,
    on [toc.packs[0]] when the name is one every object inherits,
    such as ["constructor"].  Otherwise the call returns normally:
    while the libraries are not loaded it only subscribes to
    ['librariesloaded']; once they are, it lists the assets of the
    first pack, subscribes [progress] (the empty function when none is
    given), and loads the assets, or defers [onLoaded] when the list
    is empty. *)
Theorem loadFromToc_with_content app name success error progress c :
  content app = Some c ->
  let result := loadFromToc app name success error progress in
  filter is_call (fst result) = [] /\
  match lookup name (toc c) with
  | None =>
      result =
      ([], Throw (PropertyOfUndefined
                    (if existsb (String.eqb name) Object_prototype
                     then "0" else "packs")))
  | Some b =>
      let guid := nth_error (packs b) 0 in
      result =
      ((if negb (_librariesLoaded app) then [OnLibrariesLoaded]
        else [AssetsList guid; LoaderOnProgress (or_empty progress);
              if listed app guid =? 0 then SetTimeoutOnLoaded
              else AssetsLoad guid]),
       Normal tt)
  end.
Proof.
  intros Hc result. unfold result, loadFromToc, member. rewrite Hc.
  destruct (lookup name (toc c)) as [b|].
  - destruct (_librariesLoaded app); [|split; reflexivity].
    unfold load. cbn -[Nat.eqb nth_error].
    destruct (listed app (nth_error (packs b) 0) =? 0); split; reflexivity.
  - destruct (existsb (String.eqb name) Object_prototype); split; reflexivity.
Qed.

Lemma loadFromToc_with_content_witness :
  loadFromToc (one_pack "main" "guid-1") "main" None None None =
    ([AssetsList (Some "guid-1"%string); LoaderOnProgress Empty;
      AssetsLoad (Some "guid-1"%string)], Normal tt) /\
  loadFromToc (one_pack "main" "guid-1") "other" None None None =
    ([], Throw (PropertyOfUndefined "packs")) /\
  loadFromToc (one_pack "main" "guid-1") "constructor" None None None =
    ([], Throw (PropertyOfUndefined "0")).
Proof.
  split; [|split].
  - exact (proj2 (loadFromToc_with_content (one_pack "main" "guid-1") "main"
                    None None None _ eq_refl)).
  - exact (proj2 (loadFromToc_with_content (one_pack "main" "guid-1") "other"
                    None None None _ eq_refl)).
  - exact (proj2 (loadFromToc_with_content (one_pack "main" "guid-1")
                    "constructor" None None None _ eq_refl)).
Defined.

End TocExtras.

(** ** The vector methods *)
Module Vec4Proofs.

Import Vec4.

Lemma nth_error_store_eq r o : forall h,
  r < List.length h -> nth_error (store r o h) r = Some o.
Proof.
  induction r as [|r IH]; intros [|o' h] Hr; cbn in *; try lia; auto.
  apply IH. lia.
Qed.

Lemma nth_error_store_neq r o : forall h r',
  r <> r' -> nth_error (store r o h) r' = nth_error h r'.
Proof.
  induction r as [|r IH]; intros [|o' h] [|r'] Hne; cbn; try reflexivity;
    try contradiction.
  apply IH. lia.
Qed.

Lemma length_store r o : forall h, List.length (store r o h) = List.length h.
Proof.
  induction r as [|r IH]; intros [|o' h]; cbn; auto.
Qed.

Lemma store_store r o1 o2 : forall h, store r o2 (store r o1 h) = store r o2 h.
Proof.
  induction r as [|r IH]; intros [|o' h]; cbn; try reflexivity.
  now rewrite IH.
Qed.

Lemma store_same r : forall h o, nth_error h r = Some o -> store r o h = h.
Proof.
  induction r as [|r IH]; intros [|o' h] o H; cbn in *; try discriminate.
  - now injection H as ->.
  - now rewrite IH.
Qed.

Lemma nth_error_length {A} (l : list A) r o :
  nth_error l r = Some o -> r < List.length l.
Proof. intros H. apply nth_error_Some. congruence. Qed.

Lemma value_store this c fr h r :
  this < List.length h ->
  value (store this (mkObject c fr) h) r =
  if r =? this then Some c else value h r.
Proof.
  intros Ht. unfold value. destruct (Nat.eqb_spec r this) as [->|Hne].
  - now rewrite nth_error_store_eq.
  - rewrite nth_error_store_neq by congruence. reflexivity.
Qed.

Lemma get_value r f h c :
  value h r = Some c -> get r f h = Ok (field f c) h.
Proof.
  unfold value, get. destruct (nth_error h r) as [o|]; [|discriminate].
  cbn. now intros [= <-].
Qed.

Lemma put_unfrozen this f v h c :
  nth_error h this = Some (mkObject c false) ->
  put this f v h = Ok tt (store this (mkObject (with_field f v c) false) h).
Proof. intros H. unfold put. now rewrite H. Qed.

Lemma field_with_field f f' v c :
  field f' (with_field f v c) =
  match f, f' with
  | X, X | Y, Y | Z, Z | W, W => v
  | _, _ => field f' c
  end.
Proof. destruct f, f'; reflexivity. Qed.

(** *** Four assignments in a row *)
Section Assignments.

Variable op : JS.number -> JS.number -> JS.number.
Variable E : Field -> M JS.number.
Variables this lhs rhs : Ref.
Variable h0 : Heap.
Variables ct cl cr : Components.

Hypothesis this_unfrozen : nth_error h0 this = Some (mkObject ct false).
Hypothesis lhs_value : value h0 lhs = Some cl.
Hypothesis rhs_value : value h0 rhs = Some cr.

(** The expression for a field reads that field of the operands, and
    nothing else. *)
Hypothesis E_reads :
  forall f h cl' cr',
    value h lhs = Some cl' -> value h rhs = Some cr' ->
    E f h = Ok (op (field f cl') (field f cr')) h.

(** The heap after the fields [done] have been assigned. *)
Let Inv (done : Field -> bool) (h : Heap) : Prop :=
  exists c, h = store this (mkObject c false) h0 /\
            forall f, field f c =
                      if done f then op (field f cl) (field f cr)
                      else field f ct.

Lemma assignments_start : Inv (fun _ => false) h0.
Proof.
  exists ct. split; [|reflexivity].
  symmetry. now apply store_same.
Qed.

Lemma assignments_step done done' f h :
  Inv done h -> done f = false -> done' f = true ->
  (forall f', f' <> f -> done' f' = done f') ->
  exists h', assign this f (E f) h = Ok tt h' /\ Inv done' h'.
Proof.
  intros (c & -> & Hc) Hf Hf' Hother.
  pose proof (nth_error_length _ _ _ this_unfrozen) as Hlen.
  set (h := store this (mkObject c false) h0).
  assert (Hl : exists cl', value h lhs = Some cl' /\ field f cl' = field f cl).
  { unfold h. rewrite value_store by assumption.
    destruct (Nat.eqb_spec lhs this) as [->|_]; [|eauto].
    exists c. split; [reflexivity|]. rewrite Hc, Hf.
    unfold value in lhs_value. rewrite this_unfrozen in lhs_value.
    cbn in lhs_value. now injection lhs_value as ->. }
  assert (Hr : exists cr', value h rhs = Some cr' /\ field f cr' = field f cr).
  { unfold h. rewrite value_store by assumption.
    destruct (Nat.eqb_spec rhs this) as [->|_]; [|eauto].
    exists c. split; [reflexivity|]. rewrite Hc, Hf.
    unfold value in rhs_value. rewrite this_unfrozen in rhs_value.
    cbn in rhs_value. now injection rhs_value as ->. }
  destruct Hl as (cl' & Hl & Hlf). destruct Hr as (cr' & Hr & Hrf).
  exists (store this (mkObject (with_field f (op (field f cl) (field f cr)) c)
                               false) h0).
  split.
  - unfold assign, bind. rewrite (E_reads f h cl' cr' Hl Hr), Hlf, Hrf.
    rewrite (put_unfrozen this f _ h c).
    + unfold h. now rewrite store_store.
    + unfold h. now apply nth_error_store_eq.
  - eexists. split; [reflexivity|]. intros f'.
    rewrite field_with_field.
    destruct f, f'; rewrite ?Hf'; try reflexivity;
      (rewrite Hother by discriminate); apply Hc.
Qed.

Lemma assignments_done h :
  Inv (fun _ => true) h ->
  h = store this (mkObject (pointwise op cl cr) false) h0.
Proof.
  intros (c & -> & Hc). do 2 f_equal.
  pose proof (Hc X) as Hx. pose proof (Hc Y) as Hy.
  pose proof (Hc Z) as Hz. pose proof (Hc W) as Hw.
  destruct c. cbn in *. unfold pointwise. congruence.
Qed.

Lemma four_assignments :
  (assign this X (E X) ;;; assign this Y (E Y) ;;;
   assign this Z (E Z) ;;; assign this W (E W) ;;; ret this) h0 =
  Ok this (store this (mkObject (pointwise op cl cr) false) h0).
Proof.
  destruct (assignments_step (fun _ => false)
              (fun f => match f with X => true | _ => false end) X h0)
    as (h1 & S1 & I1);
    [apply assignments_start | reflexivity | reflexivity
     | intros []; congruence |].
  destruct (assignments_step _
              (fun f => match f with X | Y => true | _ => false end) Y h1 I1)
    as (h2 & S2 & I2);
    [reflexivity | reflexivity | intros []; congruence |].
  destruct (assignments_step _
              (fun f => match f with W => false | _ => true end) Z h2 I2)
    as (h3 & S3 & I3);
    [reflexivity | reflexivity | intros []; congruence |].
  destruct (assignments_step _ (fun _ => true) W h3 I3)
    as (h4 & S4 & I4);
    [reflexivity | reflexivity | intros []; congruence |].
  unfold bind at 1. rewrite S1. unfold bind at 1. rewrite S2.
  unfold bind at 1. rewrite S3. unfold bind at 1. rewrite S4.
  unfold ret. f_equal. now apply assignments_done.
Qed.

End Assignments.

Lemma binary_reads {A} (op : JS.number -> JS.number -> A) a b f h ca cb :
  value h a = Some ca -> value h b = Some cb ->
  binary op (get a f) (get b f) h = Ok (op (field f ca) (field f cb)) h.
Proof.
  intros Ha Hb. unfold binary, bind, ret.
  now rewrite (get_value a f h ca Ha), (get_value b f h cb Hb).
Qed.

(** The two-operand form of a componentwise operation. *)
Lemma two_operand_form op this lhs rhs h ct cl cr :
  nth_error h this = Some (mkObject ct false) ->
  value h lhs = Some cl -> value h rhs = Some cr ->
  (assign this X (binary op (get lhs X) (get rhs X)) ;;;
   assign this Y (binary op (get lhs Y) (get rhs Y)) ;;;
   assign this Z (binary op (get lhs Z) (get rhs Z)) ;;;
   assign this W (binary op (get lhs W) (get rhs W)) ;;;
   ret this) h =
  Ok this (store this (mkObject (pointwise op cl cr) false) h).
Proof.
  intros Ht Hl Hr.
  apply (four_assignments op (fun f => binary op (get lhs f) (get rhs f))
           this lhs rhs h ct cl cr Ht Hl Hr).
  intros f h' cl' cr'. apply binary_reads.
Qed.

Lemma value_of_object h r o : nth_error h r = Some o -> value h r = Some (components o).
Proof. intros H. unfold value. now rewrite H. Qed.

(** X18.  The methods that combine two vectors work componentwise on
    the values the operands had before the call, whether or not the
    operands are the vector the method is called on, or one another:
    no field is read after it was overwritten.  [lhs] and [rhs] may be
    [this]. *)
Theorem vec4_operands_may_alias this lhs rhs alpha h ct cl cr :
  nth_error h this = Some (mkObject ct false) ->
  value h lhs = Some cl -> value h rhs = Some cr ->
  let stored c := Ok this (store this (mkObject c false) h) in
  add2 this lhs rhs h = stored (pointwise plus cl cr) /\
  sub2 this lhs rhs h = stored (pointwise JS.sub cl cr) /\
  mul2 this lhs rhs h = stored (pointwise JS.mul cl cr) /\
  div2 this lhs rhs h = stored (pointwise JS.div cl cr) /\
  lerp this lhs rhs alpha h =
    stored (pointwise (fun a b => plus a (JS.mul alpha (JS.sub b a))) cl cr) /\
  add this rhs h = stored (pointwise plus ct cr) /\
  sub this rhs h = stored (pointwise JS.sub ct cr) /\
  mul this rhs h = stored (pointwise JS.mul ct cr) /\
  div this rhs h = stored (pointwise JS.div ct cr) /\
  copy this rhs h = stored cr.
Proof.
  intros Ht Hl Hr stored.
  pose proof (value_of_object h this _ Ht) as Hv. cbn in Hv.
  repeat split;
    try (now apply (two_operand_form _ this lhs rhs h ct cl cr));
    try (now apply (two_operand_form _ this this rhs h ct ct cr)).
  - apply (four_assignments
             (fun a b => plus a (JS.mul alpha (JS.sub b a)))
             (fun f => binary plus (get lhs f)
                         (binary JS.mul (ret alpha)
                                 (binary JS.sub (get rhs f) (get lhs f))))
             this lhs rhs h ct cl cr Ht Hl Hr).
    intros f h' cl' cr' Hl' Hr'. unfold binary, bind, ret.
    repeat (cbv beta iota;
            first [ rewrite (get_value lhs f h' cl' Hl')
                  | rewrite (get_value rhs f h' cr' Hr') ]).
    reflexivity.
  - assert (Ecr : pointwise (fun _ b => b) cr cr = cr)
      by (clear; destruct cr; reflexivity).
    rewrite <- Ecr.
    apply (four_assignments (fun _ b => b) (fun f => get rhs f)
             this rhs rhs h ct cr cr Ht Hr Hr).
    intros f h' cl' cr' _ Hr'. now apply get_value.
Qed.

(** [v.add2(v, v)] doubles [v]. *)
Lemma vec4_operands_may_alias_witness :
  let v := mkComponents (JS.Fin 1) (JS.Fin 2) (JS.Fin 3) (JS.Fin 4) in
  add2 0 0 0 [mkObject v false] =
  Ok 0 [mkObject (mkComponents (JS.Fin 2) (JS.Fin 4) (JS.Fin 6) (JS.Fin 8))
                 false].
Proof.
  intros v.
  exact (proj1 (vec4_operands_may_alias 0 0 0 (JS.Fin 0) [mkObject v false]
                  v v v eq_refl eq_refl eq_refl)).
Defined.

(** *** What a call leaves alone *)

Lemma preserves_refl this h : Preserves this h h.
Proof. split; auto. Qed.

Lemma preserves_trans this h1 h2 h3 :
  Preserves this h1 h2 -> Preserves this h2 h3 -> Preserves this h1 h3.
Proof.
  intros [L1 P1] [L2 P2]. split; [lia|].
  intros r o Hr Hcase. apply P2; [now apply P1 | assumption].
Qed.

Lemma frames_ret {A} this (a : A) : Frames this (ret a).
Proof. intros h. apply preserves_refl. Qed.

Lemma frames_bind {A B} this (m : M A) (k : A -> M B) :
  Frames this m -> (forall a, Frames this (k a)) -> Frames this (bind m k).
Proof.
  intros Hm Hk h. unfold bind. specialize (Hm h).
  destruct (m h) as [a h'|e h']; cbn in *; [|assumption].
  eapply preserves_trans; [exact Hm | apply Hk].
Qed.

Lemma frames_get this r f : Frames this (get r f).
Proof.
  intros h. unfold get. destruct (nth_error h r); apply preserves_refl.
Qed.

Lemma frames_put this f v : Frames this (put this f v).
Proof.
  intros h. unfold put. destruct (nth_error h this) as [o|] eqn:E;
    [|apply preserves_refl].
  destruct (frozen o) eqn:F; [apply preserves_refl|]. cbn.
  split; [now rewrite length_store|].
  intros r o' Hr [Hne | Hfr].
  - rewrite nth_error_store_neq by congruence. assumption.
  - destruct (Nat.eq_dec r this) as [->|Hne].
    + congruence.
    + rewrite nth_error_store_neq by congruence. assumption.
Qed.

Lemma frames_new this x y z w : Frames this (new x y z w).
Proof.
  intros h. cbn. split; [rewrite length_app; lia|].
  intros r o Hr _. rewrite nth_error_app1; [assumption|].
  now apply nth_error_length in Hr.
Qed.

Lemma frames_binary {A} this (op : JS.number -> JS.number -> A) e1 e2 :
  Frames this e1 -> Frames this e2 -> Frames this (binary op e1 e2).
Proof.
  intros H1 H2. unfold binary.
  apply frames_bind; [assumption|]. intros a.
  apply frames_bind; [assumption|]. intros b. apply frames_ret.
Qed.

Lemma frames_assign this f e : Frames this e -> Frames this (assign this f e).
Proof.
  intros H. unfold assign. apply frames_bind; [assumption|].
  intros v. apply frames_put.
Qed.

Lemma frames_compound this op f e :
  Frames this e -> Frames this (compound op this f e).
Proof.
  intros H. unfold compound. apply frames_assign, frames_binary;
    [apply frames_get | assumption].
Qed.

Lemma frames_and_then this e1 e2 :
  Frames this e1 -> Frames this e2 -> Frames this (and_then e1 e2).
Proof.
  intros H1 H2. unfold and_then. apply frames_bind; [assumption|].
  intros [|]; [assumption | apply frames_ret].
Qed.

Lemma frames_products this a b : Frames this (products a b).
Proof.
  unfold products. repeat apply frames_binary; apply frames_get.
Qed.

Ltac frames :=
  repeat first
    [ apply frames_ret | apply frames_get | apply frames_put
    | apply frames_new | apply frames_products
    | apply frames_compound | apply frames_assign
    | apply frames_binary | apply frames_and_then
    | apply frames_bind | intro ].

(** X19.  Whatever the method and its arguments, a call removes no
    object, changes no object other than the one it is called on, and
    changes no frozen object. *)
Theorem vec4_call_changes_only_its_target sqrt m this h :
  Preserves this h (heap_of (call sqrt m this h)).
Proof.
  revert h. change (Frames this (call sqrt m this)).
  destruct m; unfold call, add, add2, addScalar, clone, copy, div, div2,
    divScalar, dot, equals, Vec4.length, lengthSq, lerp, mul, mul2,
    mulScalar, normalize, set, sub, sub2, subScalar;
    try (apply frames_bind; [|intro; apply frames_ret]); frames.
  destruct (JS.gt _ _); frames.
Qed.

(** *** Frozen vectors *)

Lemma assign_frozen this f e v h o :
  nth_error h this = Some o -> frozen o = true -> e h = Ok v h ->
  assign this f e h = Throw (ReadOnlyProperty f) h.
Proof.
  intros Ht Hf He. unfold assign, bind, put. now rewrite He, Ht, Hf.
Qed.

Lemma bind_throw {A B} (m : M A) (k : A -> M B) e h h' :
  m h = Throw e h' -> bind m k h = Throw e h'.
Proof. intros H. unfold bind. now rewrite H. Qed.

Lemma present h r : value h r <> None -> exists c, value h r = Some c.
Proof. destruct (value h r) as [c|]; [eauto | congruence]. Qed.

Ltac operand H :=
  let c := fresh "c" in
  let Hc := fresh "Hc" in
  apply present in H; destruct H as [c Hc].

(** X20.  A method that assigns the fields of its target, called on a
    frozen vector with operands that are vectors, throws at the first
    assignment, [this.x], and leaves the heap as it was: [Vec4.ZERO]
    and [Vec4.ONE] cannot be changed in place. *)
Theorem vec4_frozen_target_rejects_writes sqrt m this h o :
  nth_error h this = Some o -> frozen o = true ->
  writes m = true ->
  Forall (fun r => value h r <> None) (operands m) ->
  call sqrt m this h = Throw (ReadOnlyProperty X) h.
Proof.
  intros Ht Hf Hw Hops.
  pose proof (value_of_object h this o Ht) as Hv.
  destruct m; try discriminate Hw; cbn [operands] in Hops;
    repeat match goal with
           | H : Forall _ (_ :: _) |- _ =>
               let H1 := fresh "Hop" in
               let H2 := fresh "Hrest" in
               inversion H as [|? ? H1 H2]; subst; clear H; operand H1
           end;
    unfold call, add, add2, addScalar, copy, div, div2, divScalar, lerp, mul,
      mul2, mulScalar, set, sub, sub2, subScalar, compound;
    apply bind_throw; apply bind_throw;
    try (eapply assign_frozen; [exact Ht | exact Hf |]);
    try (now eapply binary_reads; eauto).
  - unfold binary, bind, ret. now rewrite (get_value this X h _ Hv).
  - now eapply get_value; eauto.
  - unfold binary, bind, ret. now rewrite (get_value this X h _ Hv).
  - unfold binary, bind, ret.
    repeat (cbv beta iota;
            first [ rewrite (get_value lhs X h _ Hc)
                  | rewrite (get_value rhs X h _ Hc0) ]).
    reflexivity.
  - unfold binary, bind, ret. now rewrite (get_value this X h _ Hv).
  - unfold put. now rewrite Ht, Hf.
  - unfold binary, bind, ret. now rewrite (get_value this X h _ Hv).
Qed.

(** [Vec4.ZERO.add(Vec4.ZERO)] *)
Lemma vec4_frozen_target_witness :
  call (fun n => n) (CallAdd 0) 0 (heap_of (ZERO [])) =
  Throw (ReadOnlyProperty X) (heap_of (ZERO [])).
Proof.
  apply (vec4_frozen_target_rejects_writes (fun n => n) (CallAdd 0) 0
           (heap_of (ZERO [])) _ eq_refl eq_refl eq_refl).
  repeat constructor. discriminate.
Defined.

(** *** Comparing and multiplying *)

Lemma strict_equal_comm a b : strict_equal a b = strict_equal b a.
Proof. destruct a, b; cbn; try reflexivity. apply Qeq_bool_comm. Qed.

Lemma strict_equal_refl a : strict_equal a a = negb (is_nan a).
Proof. destruct a; cbn; try reflexivity. apply Qeq_bool_refl. Qed.

Lemma equals_value a b h ca cb :
  value h a = Some ca -> value h b = Some cb ->
  equals a b h = Ok (same_components ca cb) h.
Proof.
  intros Ha Hb. unfold equals, and_then, bind.
  rewrite !(binary_reads strict_equal a b _ h ca cb Ha Hb).
  unfold same_components. cbn [field].
  destruct (strict_equal (x ca) (x cb)); cbn; [|reflexivity].
  rewrite !(binary_reads strict_equal a b _ h ca cb Ha Hb). cbn [field].
  destruct (strict_equal (y ca) (y cb)); cbn; [|reflexivity].
  rewrite !(binary_reads strict_equal a b _ h ca cb Ha Hb). cbn [field].
  destruct (strict_equal (z ca) (z cb)); cbn; [|reflexivity].
  rewrite !(binary_reads strict_equal a b _ h ca cb Ha Hb). reflexivity.
Qed.

Lemma clone_value this h c :
  value h this = Some c ->
  clone this h = Ok (List.length h) (h ++ [mkObject c false]).
Proof.
  intros Hv. unfold clone, bind.
  rewrite !(get_value this _ h c Hv). destruct c. reflexivity.
Qed.

(** X21.  [equals] compares field by field with [===]: it is
    symmetric, and a vector equals itself, and its own clone, exactly
    when none of its components is NaN. *)
Theorem vec4_equals_symmetric_not_reflexive a b h ca cb :
  value h a = Some ca -> value h b = Some cb ->
  equals a b h = equals b a h /\
  equals a a h = Ok (negb (has_nan ca)) h /\
  exists r h', clone a h = Ok r h' /\ r <> a /\
               equals r a h' = Ok (negb (has_nan ca)) h'.
Proof.
  intros Ha Hb.
  assert (Hrefl : same_components ca ca = negb (has_nan ca)).
  { unfold same_components, has_nan. rewrite !strict_equal_refl.
    destruct (is_nan (x ca)), (is_nan (y ca)), (is_nan (z ca)),
      (is_nan (w ca)); reflexivity. }
  split; [|split].
  - rewrite (equals_value a b h ca cb Ha Hb), (equals_value b a h cb ca Hb Ha).
    f_equal. unfold same_components.
    now rewrite (strict_equal_comm (x ca)), (strict_equal_comm (y ca)),
      (strict_equal_comm (z ca)), (strict_equal_comm (w ca)).
  - rewrite (equals_value a a h ca ca Ha Ha). now rewrite Hrefl.
  - exists (List.length h), (h ++ [mkObject ca false]).
    assert (Hlen : a < List.length h).
    { unfold value in Ha. destruct (nth_error h a) eqn:E; [|discriminate].
      now apply nth_error_length in E. }
    split; [now apply clone_value|]. split; [lia|].
    rewrite (equals_value (List.length h) a _ ca ca).
    + now rewrite Hrefl.
    + unfold value. rewrite nth_error_app2 by lia.
      now rewrite Nat.sub_diag.
    + unfold value in *. now rewrite nth_error_app1 by assumption.
Qed.

(** A vector with a NaN component is not equal to itself. *)
Lemma vec4_equals_witness :
  let v := mkComponents (JS.Fin 1) JS.NaN (JS.Fin 3) (JS.Fin 4) in
  equals 0 0 [mkObject v false] = Ok false [mkObject v false].
Proof.
  intros v.
  exact (proj1 (proj2 (vec4_equals_symmetric_not_reflexive 0 0
                         [mkObject v false] v v eq_refl eq_refl))).
Defined.

Lemma plus_comm a b : plus a b = plus b a.
Proof.
  destruct a, b; cbn; try reflexivity.
  apply JSFacts.fin_eq. ring.
Qed.

Lemma mul_comm a b : JS.mul a b = JS.mul b a.
Proof.
  destruct a, b; cbn; try reflexivity.
  apply JSFacts.fin_eq. ring.
Qed.

Lemma pointwise_comm op a b :
  (forall u v, op u v = op v u) -> pointwise op a b = pointwise op b a.
Proof.
  intros H. unfold pointwise.
  now rewrite (H (x a)), (H (y a)), (H (z a)), (H (w a)).
Qed.

Lemma products_value a b h ca cb :
  value h a = Some ca -> value h b = Some cb ->
  products a b h = Ok (dot_value ca cb) h.
Proof.
  intros Ha Hb. unfold products.
  unfold binary at 1 2 3. unfold bind, ret.
  rewrite !(binary_reads JS.mul a b _ h ca cb Ha Hb). reflexivity.
Qed.

(** X22.  Sums and products do not depend on the order of the
    operands: [add2] and [mul2] store the same vector, and [dot]
    returns the same number, when [lhs] and [rhs] are exchanged. *)
Theorem vec4_sum_and_product_commute this lhs rhs h ct cl cr :
  nth_error h this = Some (mkObject ct false) ->
  value h lhs = Some cl -> value h rhs = Some cr ->
  add2 this lhs rhs h = add2 this rhs lhs h /\
  mul2 this lhs rhs h = mul2 this rhs lhs h /\
  dot lhs rhs h = dot rhs lhs h.
Proof.
  intros Ht Hl Hr. split; [|split].
  - etransitivity;
      [exact (two_operand_form plus this lhs rhs h ct cl cr Ht Hl Hr)|].
    rewrite (pointwise_comm plus cl cr plus_comm). symmetry.
    exact (two_operand_form plus this rhs lhs h ct cr cl Ht Hr Hl).
  - etransitivity;
      [exact (two_operand_form JS.mul this lhs rhs h ct cl cr Ht Hl Hr)|].
    rewrite (pointwise_comm JS.mul cl cr mul_comm). symmetry.
    exact (two_operand_form JS.mul this rhs lhs h ct cr cl Ht Hr Hl).
  - unfold dot.
    rewrite (products_value lhs rhs h cl cr Hl Hr),
      (products_value rhs lhs h cr cl Hr Hl).
    f_equal. unfold dot_value.
    now rewrite (mul_comm (x cl)), (mul_comm (y cl)), (mul_comm (z cl)),
      (mul_comm (w cl)).
Qed.

Lemma vec4_commute_witness :
  let a := mkComponents (JS.Fin 1) (JS.Fin 2) (JS.Fin 3) (JS.Fin 4) in
  let b := mkComponents (JS.Fin 5) JS.PosInf (JS.Fin 0) JS.NaN in
  let h := [mkObject a false; mkObject b true] in
  dot 0 1 h = dot 1 0 h.
Proof.
  intros a b h.
  exact (proj2 (proj2 (vec4_sum_and_product_commute 0 0 1 h a a b
                         eq_refl eq_refl eq_refl))).
Defined.

(** *** [normalize] *)

Lemma dot_value_nan c : has_nan c = true -> dot_value c c = JS.NaN.
Proof.
  unfold has_nan, dot_value. destruct c as [a b c d]; cbn [x y z w].
  assert (N : forall u, plus u JS.NaN = JS.NaN) by (now intros []).
  assert (N' : forall u, plus JS.NaN u = JS.NaN) by (now intros []).
  destruct a; cbn [is_nan orb];
    try (intros _; cbn [JS.mul]; now rewrite ?N', ?N);
    destruct b; cbn [is_nan orb];
    try (intros _; cbn [JS.mul]; now rewrite ?N', ?N);
    destruct c; cbn [is_nan orb];
    try (intros _; cbn [JS.mul]; now rewrite ?N', ?N);
    destruct d; cbn [is_nan orb];
    try (intros _; cbn [JS.mul]; now rewrite ?N', ?N);
    discriminate.
Qed.

(** X23.  [normalize] writes no field when the sum of the squares is
    not greater than 0.  So the zero vector and every vector with a
    NaN component are left as they are and [this] is returned, also
    when the vector is frozen: [Vec4.ZERO.normalize()] returns.  A
    frozen vector of ones has the sum of squares 4, and
    [Vec4.ONE.normalize()] throws at [this.x]. *)
Theorem vec4_normalize_guard sqrt this h o :
  nth_error h this = Some o ->
  (components o = uniform (JS.Fin 0) \/ has_nan (components o) = true ->
   normalize sqrt this h = Ok this h) /\
  (components o = uniform (JS.Fin 1) -> frozen o = true ->
   normalize sqrt this h = Throw (ReadOnlyProperty X) h).
Proof.
  intros Ht.
  pose proof (value_of_object h this o Ht) as Hv.
  assert (Hp : products this this h =
               Ok (dot_value (components o) (components o)) h)
    by now apply products_value.
  split.
  - intros Hc.
    assert (Hg : JS.gt (dot_value (components o) (components o)) (JS.Fin 0)
                 = false).
    { destruct Hc as [Hz | Hn].
      - rewrite Hz. reflexivity.
      - now rewrite dot_value_nan. }
    unfold normalize, bind. rewrite Hp, Hg. reflexivity.
  - intros Hone Hf. unfold normalize. unfold bind at 1. rewrite Hp.
    assert (Hg : JS.gt (dot_value (components o) (components o)) (JS.Fin 0)
                 = true) by (rewrite Hone; reflexivity).
    rewrite Hg.
    apply bind_throw. apply bind_throw. unfold compound.
    eapply assign_frozen; [exact Ht | exact Hf |].
    unfold binary, bind, ret. now rewrite (get_value this X h _ Hv).
Qed.

(** [Vec4.ZERO.normalize()] returns; [Vec4.ONE.normalize()] throws. *)
Lemma vec4_normalize_witness :
  normalize (fun n => n) 0 (heap_of (ZERO [])) = Ok 0 (heap_of (ZERO [])) /\
  normalize (fun n => n) 0 (heap_of (ONE [])) =
    Throw (ReadOnlyProperty X) (heap_of (ONE [])).
Proof.
  split.
  - exact (proj1 (vec4_normalize_guard (fun n => n) 0 (heap_of (ZERO [])) _
                    eq_refl) (or_introl eq_refl)).
  - exact (proj2 (vec4_normalize_guard (fun n => n) 0 (heap_of (ONE [])) _
                    eq_refl) eq_refl eq_refl).
Defined.

End Vec4Proofs.
